(** * Daemon Arena: match server, storage layer and challenge engine

    A shallow embedding of the arena's HTTP handlers (the Express server),
    of the SQLite storage class [DaemonDB] (database.js) and of the
    challenge engine the server consumes through [generateChallenge] and
    [validateSolution].

    Conventions.
    - JavaScript values that travel through [JSON.parse]/[JSON.stringify]
      are terms of [value]; numbers are the integers the arena uses.
    - A JavaScript exception is the [None] of an [option] result; the
      handlers turn it into a 4xx/5xx response where the source has a
      [try]/[catch].
    - Everything the Node runtime decides for a request (random bytes,
      UUIDs, [Math.random], the clock) is an explicit argument of the
      handler that consumes it.
    - Request bodies are read at the types SKILL.md documents (strings,
      numbers, or absent).
    - Of an error answer the status and the [error] text are kept; the
      broadcasts to the event stream, which no handler reads back, are
      left out. *)

From Stdlib Require Import ZArith Lia Ascii String List DecimalString DecimalZ
  DecimalPos.
From stdpp Require Import base option list strings gmap sorting.

Set Warnings "-register-all".

Local Open Scope Z_scope.
Local Open Scope string_scope.

(** ** Strings as JavaScript uses them *)

(** [s.startsWith(p)]. *)
Fixpoint startsWith (p s : string) : bool :=
  match p, s with
  | EmptyString, _ => true
  | String a p', String b s' => if Ascii.eqb a b then startsWith p' s' else false
  | String _ _, EmptyString => false
  end.

(** [s.includes(p)]. *)
Fixpoint includes (p s : string) : bool :=
  startsWith p s ||
  match s with
  | EmptyString => false
  | String _ s' => includes p s'
  end.

Definition upper_ascii (c : ascii) : ascii :=
  let n := nat_of_ascii c in
  if (97 <=? n)%nat && (n <=? 122)%nat then ascii_of_nat (n - 32) else c.

Definition lower_ascii (c : ascii) : ascii :=
  let n := nat_of_ascii c in
  if (65 <=? n)%nat && (n <=? 90)%nat then ascii_of_nat (n + 32) else c.

(** [s.toUpperCase()] and [s.toLowerCase()] on the ASCII range. *)
Fixpoint toUpperCase (s : string) : string :=
  match s with
  | EmptyString => EmptyString
  | String c s' => String (upper_ascii c) (toUpperCase s')
  end.

Fixpoint toLowerCase (s : string) : string :=
  match s with
  | EmptyString => EmptyString
  | String c s' => String (lower_ascii c) (toLowerCase s')
  end.

(** White space removed by [trim]: space, tab, LF, VT, FF, CR. *)
Definition is_space (c : ascii) : bool :=
  let n := nat_of_ascii c in
  (n =? 32)%nat || ((9 <=? n)%nat && (n <=? 13)%nat).

Fixpoint trimStart (s : string) : string :=
  match s with
  | EmptyString => EmptyString
  | String c s' => if is_space c then trimStart s' else s
  end.

(** [trimEnd] keeps a character when it is not white space or when
    something that is kept follows it. *)
Fixpoint trimEnd (s : string) : string :=
  match s with
  | EmptyString => EmptyString
  | String c s' =>
      match trimEnd s' with
      | EmptyString => if is_space c then EmptyString else String c EmptyString
      | t => String c t
      end
  end.

Definition trim (s : string) : string := trimEnd (trimStart s).

(** ** BigInt and its decimal rendering

    The wei columns are TEXT holding what [BigInt.prototype.toString]
    prints.  [BigInt_parse] reads such a rendering back ([BigInt(text)]);
    any other text is taken as the SyntaxError of the source
    (JavaScript also reads blank text, signs and radix prefixes, which
    no wei column ever holds). *)

Definition BigInt_toString (z : Z) : string :=
  NilZero.string_of_int (Z.to_int z).

Definition BigInt_parse (s : string) : option Z :=
  option_map Z.of_int (NilZero.int_of_string s).

(** BigInt division truncates towards zero. *)
Definition BigInt_div (a b : Z) : Z := Z.quot a b.

(** ** Numbers

    A JavaScript number is a double.  The numbers of the arena are
    whole, so a finite one is kept as the integer it stands for, next
    to the two infinities and NaN ([-0] is kept as [0]: the arena only
    tests it for truth, prints it and converts it). *)

Inductive number :=
| Finite (z : Z)
| Infinite (negative : bool)
| NaN.

(** The double nearest to an integer, as an integer (round to nearest,
    ties to even).  Every integer up to 2^53 in size is a double;
    beyond, the 53 leading bits are kept. *)
Definition nearest_double (n : Z) : Z :=
  let a := Z.abs n in
  if Z.leb a (2 ^ 53) then n
  else
    let e := Z.log2 a - 52 in
    let q := a / 2 ^ e in
    let r := a mod 2 ^ e in
    let half := 2 ^ (e - 1) in
    let q' := if Z.ltb r half then q
              else if Z.ltb half r then q + 1
              else if Z.even q then q else q + 1 in
    Z.sgn n * (q' * 2 ^ e).

(** An integer as a number: what lies beyond the largest double is an
    infinity. *)
Definition Number_of (n : Z) : number :=
  let d := nearest_double n in
  if Z.leb (2 ^ 1024) (Z.abs d) then Infinite (Z.ltb n 0) else Finite d.

(** [BigInt (x)] for a number: the RangeError's message, or the integer. *)
Definition number_name (x : number) : string :=
  match x with
  | NaN => "NaN"
  | Infinite negative => if negative then "-Infinity" else "Infinity"
  | Finite _ => EmptyString
  end.

Definition BigInt_of_number (x : number) : string + Z :=
  match x with
  | Finite z => inr z
  | _ => inl ("The number " +:+ number_name x +:+
              " cannot be converted to a BigInt because it is not an integer")
  end.

(** [Number.prototype.toString]: the decimal with the fewest significant
    digits that reads back as the same double, and of those the closest
    one.  [shortest_from fuel k d x] tries [k], [k + 1], ... significant
    digits on the positive whole double [x] of [d] digits: the two
    decimals of that many digits around [x] are [lo] and [hi].
    Seventeen digits tell any two doubles apart. *)
Definition digits10 (x : Z) : Z :=
  Z.of_nat (String.length (BigInt_toString x)).

Fixpoint shortest_from (fuel : nat) (k d x : Z) : Z :=
  match fuel with
  | O => x
  | S fuel' =>
      let p := 10 ^ Z.max 0 (d - k) in
      let lo := x / p * p in
      let hi := lo + p in
      let ok_lo := Z.eqb (nearest_double lo) x in
      let ok_hi := Z.eqb (nearest_double hi) x in
      if ok_lo && ok_hi then
        if Z.ltb (x - lo) (hi - x) then lo
        else if Z.ltb (hi - x) (x - lo) then hi
        else if Z.even (lo / p) then lo else hi
      else if ok_lo then lo
      else if ok_hi then hi
      else shortest_from fuel' (k + 1) d x
  end.

Definition shortest (x : Z) : Z := shortest_from 17 1 (digits10 x) x.

(** A decimal text without its trailing zeros. *)
Fixpoint strip_zeros (s : string) : string :=
  match s with
  | EmptyString => EmptyString
  | String c s' =>
      match strip_zeros s' with
      | EmptyString => if Ascii.eqb c "0" then EmptyString else String c EmptyString
      | t => String c t
      end
  end.

(** The exponent notation numbers of 22 digits or more print in:
    ["1e+21"], ["1.5e+21"]. *)
Definition exponent_form (v : Z) : string :=
  let text := BigInt_toString v in
  let n := Z.of_nat (String.length text) in
  match strip_zeros text with
  | EmptyString => text
  | String c EmptyString => String c ("e+" +:+ BigInt_toString (n - 1))
  | String c rest => String c ("." +:+ rest +:+ "e+" +:+ BigInt_toString (n - 1))
  end.

Definition Number_toString (x : number) : string :=
  match x with
  | Finite z =>
      if Z.eqb z 0 then "0"
      else
        let v := shortest (Z.abs z) in
        (if Z.ltb z 0 then "-" else EmptyString) +:+
        (if Z.ltb v (10 ^ 21) then BigInt_toString v else exponent_form v)
  | _ => number_name x
  end.

(** [x || dflt] and [Math.min (x, cap)] on numbers. *)
Definition number_or (x : number) (dflt : Z) : number :=
  match x with
  | NaN => Finite dflt
  | Finite z => if Z.eqb z 0 then Finite dflt else x
  | Infinite _ => x
  end.

Definition Math_min (x : number) (cap : Z) : number :=
  match x with
  | NaN => NaN
  | Finite z => Finite (Z.min z cap)
  | Infinite negative => if negative then x else Finite cap
  end.

(** [parseInt (text)] without a radix: leading white space, an optional
    sign, an optional [0x] prefix, then the longest run of digits, whose
    value is rounded to a double; NaN when there is no digit.  (Of the
    white space JavaScript skips, the characters of the ASCII range.
    Beyond twenty digits the standard leaves the last bit of the result
    to the implementation; V8 rounds the exact value.) *)
Definition digit_of (radix : Z) (c : ascii) : option Z :=
  let n := Z.of_nat (nat_of_ascii c) in
  let v := if Z.leb 48 n && Z.leb n 57 then Some (n - 48)
           else if Z.leb 97 n && Z.leb n 122 then Some (n - 87)
           else if Z.leb 65 n && Z.leb n 90 then Some (n - 55)
           else None in
  match v with
  | Some k => if Z.ltb k radix then Some k else None
  | None => None
  end.

Fixpoint digits (radix : Z) (acc : option Z) (s : string) : option Z :=
  match s with
  | EmptyString => acc
  | String c s' =>
      match digit_of radix c with
      | Some k => digits radix (Some (default 0 acc * radix + k)) s'
      | None => acc
      end
  end.

(** An optional sign at the front of a text. *)
Definition signed (s : string) : bool * string :=
  match s with
  | String c r =>
      if Ascii.eqb c "-" then (true, r)
      else if Ascii.eqb c "+" then (false, r) else (false, s)
  | EmptyString => (false, s)
  end.

Definition parseInt (text : string) : number :=
  let '(negative, s2) := signed (trimStart text) in
  let '(radix, s3) :=
    match s2 with
    | String c0 (String c1 r) =>
        if Ascii.eqb c0 "0" && (Ascii.eqb c1 "x" || Ascii.eqb c1 "X")
        then (16, r) else (10, s2)
    | _ => (10, s2)
    end in
  match digits radix None s3 with
  | Some n => Number_of (if negative then - n else n)
  | None => NaN
  end.

(** ** SQLite's integers

    [CAST (text AS INTEGER)]: the longest prefix that reads as an
    integer, after leading white space; 0 when there is none, and the
    nearest 64-bit integer when it is out of range. *)
Definition INT64_MAX : Z := 2 ^ 63 - 1.
Definition INT64_MIN : Z := - 2 ^ 63.

Definition sql_cast_integer (text : string) : Z :=
  let '(negative, s) := signed (trimStart text) in
  match digits 10 None s with
  | Some n => Z.max INT64_MIN (Z.min INT64_MAX (if negative then - n else n))
  | None => 0
  end.

(** [SUM] over integers, in the order of the rows: a sum that leaves
    the 64 bits at any point is the error 'integer overflow' ([None]). *)
Definition sql_sum (l : list Z) : option Z :=
  foldl (fun acc x =>
           t ← acc;
           if Z.leb INT64_MIN (t + x) && Z.leb (t + x) INT64_MAX
           then Some (t + x) else None)
        (Some 0) l.

(** ** JavaScript values *)

Inductive value : Type :=
| VUndef
| VNull
| VBool (b : bool)
| VNum (n : Z)
| VStr (s : string)
| VArr (xs : list value)
| VObj (fields : list (string * value)).

(** An object: own enumerable properties in insertion order. *)
Abbreviation obj := (list (string * value)).

Definition truthy (v : value) : bool :=
  match v with
  | VUndef | VNull => false
  | VBool b => b
  | VNum n => negb (Z.eqb n 0)
  | VStr s => negb (String.eqb s EmptyString)
  | VArr _ | VObj _ => true
  end.

(** [a || b]. *)
Definition js_or (a b : value) : value := if truthy a then a else b.

(** [o[k]] on an object's property list; [None] when [k] is not an own
    property. *)
Fixpoint field (k : string) (o : obj) : option value :=
  match o with
  | [] => None
  | (k', v) :: o' => if String.eqb k' k then Some v else field k o'
  end.

(** [delete o[k]]. *)
Fixpoint del (k : string) (o : obj) : obj :=
  match o with
  | [] => []
  | (k', v) :: o' => if String.eqb k' k then del k o' else (k', v) :: del k o'
  end.

(** [o[k] = v]: an existing property keeps its place, a new one goes last. *)
Fixpoint put (k : string) (v : value) (o : obj) : obj :=
  match o with
  | [] => [(k, v)]
  | (k', v') :: o' =>
      if String.eqb k' k then (k, v) :: o' else (k', v') :: put k v o'
  end.

(** [v.k] for a property name that is neither an index nor [length]:
    reading from [null] or [undefined] throws, a missing property reads
    as [undefined]. *)
Definition getprop (v : value) (k : string) : option value :=
  match v with
  | VUndef | VNull => None
  | VObj o => Some (default VUndef (field k o))
  | _ => Some VUndef
  end.

(** What [JSON.parse (JSON.stringify v)] gives back: properties whose
    value is [undefined] are dropped, [undefined] array elements become
    [null]. *)
Fixpoint wire (v : value) : value :=
  match v with
  | VArr xs =>
      VArr (map (fun x => match x with VUndef => VNull | _ => wire x end) xs)
  | VObj o =>
      VObj ((fix go (o : obj) : obj :=
               match o with
               | [] => []
               | (k, x) :: o' =>
                   match x with
                   | VUndef => go o'
                   | _ => (k, wire x) :: go o'
                   end
               end) o)
  | _ => v
  end.

Definition wire_obj (o : obj) : obj :=
  match wire (VObj o) with
  | VObj o' => o'
  | _ => []
  end.

(** ** The storage layer (database.js)

    Tables are finite maps from the primary key to the row; the
    [submissions] and [payments] tables are kept in insertion order. *)

Record agent := {
  agent_id : string;
  agent_name : string;
  agent_endpoint : string;
  agent_description : option string;
  agent_api_key : string;
  elo : Z;
  wins : Z;
  losses : Z;
  draws : Z;
  erc8004_identity : option string;
  wallet : option string;
  agent_created_at : string
}.

(** A row of [matches], with the columns the migrations add.  The
    [challenge_data] column is shown parsed, as [getMatch] returns it. *)
Record match_row := {
  id : string;
  agent1_id : string;
  agent2_id : string;
  challenge_type : string;
  challenge_data : obj;
  status : string;
  winner_id : option string;
  started_at : option string;
  completed_at : option string;
  time_limit : Z;
  entry_fee_wei : string;
  creator_id : option string;
  opponent_id : option string;
  pot_wei : string;
  arena_cut_wei : string;
  winner_payout_wei : string;
  challenge_seed : option string;
  is_practice : Z;
  elo_change_agent1 : Z;
  elo_change_agent2 : Z
}.

Record submission := {
  sub_id : string;
  sub_match_id : string;
  sub_agent_id : string;
  sub_solution : string;
  sub_correct : bool;
  sub_score : Z;
  sub_submitted_at : string
}.

Record payment := {
  pay_id : string;
  pay_agent_id : string;
  pay_tx_hash : string;
  pay_amount_wei : string;
  pay_from_wallet : string;
  pay_match_id : option string
}.

Record db := {
  agents : gmap string agent;
  matches : gmap string match_row;
  submissions : list submission;
  payments : list payment;
  payment_status : gmap string string
}.

Definition with_matches (d : db) (m : gmap string match_row) : db :=
  {| agents := agents d; matches := m; submissions := submissions d;
     payments := payments d; payment_status := payment_status d |}.

Definition with_agents (d : db) (a : gmap string agent) : db :=
  {| agents := a; matches := matches d; submissions := submissions d;
     payments := payments d; payment_status := payment_status d |}.

(** [SELECT * FROM agents WHERE id = ?]. *)
Definition getAgent (d : db) (i : string) : option agent := agents d !! i.

(** [getMatch]: the row with [challenge_data] parsed. *)
Definition getMatch (d : db) (i : string) : option match_row := matches d !! i.

(** [SELECT * FROM agents WHERE name = 'PracticeBot']: [name] is UNIQUE. *)
Definition getPracticeBot (d : db) : option agent :=
  snd <$> head (filter (fun p => bool_decide (agent_name p.2 = "PracticeBot"))
                       (map_to_list (agents d))).

(** [createCustomMatch]: the [difficulty] argument is accepted and not
    stored; [challengeType] is [null] for a 'random' request, which the
    NOT NULL column refuses, as does a primary key already in use. *)
Definition createCustomMatch (d : db) (uuid creatorId : string)
    (challengeType : option string) (entryFeeWei : string) (difficulty : Z)
    (challengeSeed : string) : option (db * string) :=
  match challengeType, matches d !! uuid with
  | Some ty, None =>
      let row := {|
        id := uuid; agent1_id := creatorId; agent2_id := EmptyString;
        challenge_type := ty; challenge_data := []; status := "open";
        winner_id := None; started_at := None; completed_at := None;
        time_limit := 300; entry_fee_wei := entryFeeWei;
        creator_id := Some creatorId; opponent_id := None;
        pot_wei := "0"; arena_cut_wei := "0"; winner_payout_wei := "0";
        challenge_seed := Some challengeSeed; is_practice := 0;
        elo_change_agent1 := 0; elo_change_agent2 := 0 |} in
      Some (with_matches d (<[uuid := row]> (matches d)), uuid)
  | _, _ => None
  end.

(** The three amounts both [joinCustomMatch] and [tryMatchmaking]
    compute from the entry fee, each printed back to text. *)
Definition potWei (fee : Z) : string := BigInt_toString (fee * 2).

Definition arenaCutWei (pot : string) : option string :=
  p ← BigInt_parse pot; Some (BigInt_toString (BigInt_div p 10)).

Definition winnerPayoutWei (pot cut : string) : option string :=
  p ← BigInt_parse pot; c ← BigInt_parse cut; Some (BigInt_toString (p - c)).

(** [joinCustomMatch]: reading the fee of a missing row, or a fee that
    is not an integer, throws; the UPDATE touches the row with that id.
    The challenge is written as [JSON.stringify] prints it. *)
Definition joinCustomMatch (d : db) (now : string) (matchId opponentId : string)
    (challengeData : obj) (timeLimit : Z) : option db :=
  row ← matches d !! matchId;
  fee ← BigInt_parse (entry_fee_wei row);
  let pot := potWei fee in
  cut ← arenaCutWei pot;
  payout ← winnerPayoutWei pot cut;
  let row' := {|
    id := id row; agent1_id := agent1_id row; agent2_id := opponentId;
    challenge_type := challenge_type row;
    challenge_data := wire_obj challengeData;
    status := "active"; winner_id := winner_id row;
    started_at := Some now; completed_at := completed_at row;
    time_limit := timeLimit; entry_fee_wei := entry_fee_wei row;
    creator_id := creator_id row; opponent_id := Some opponentId;
    pot_wei := pot; arena_cut_wei := cut; winner_payout_wei := payout;
    challenge_seed := challenge_seed row; is_practice := is_practice row;
    elo_change_agent1 := elo_change_agent1 row;
    elo_change_agent2 := elo_change_agent2 row |} in
  Some (with_matches d (<[matchId := row']> (matches d))).

(** [createPracticeMatch]: throws when PracticeBot is missing; otherwise
    inserts an active row flagged [is_practice] with all amounts '0'. *)
Definition createPracticeMatch (d : db) (uuid now agentId challengeType : string)
    (difficulty : Z) (challengeSeed : string) (challengeData : obj)
    (timeLimit : Z) : option (db * string) :=
  bot ← getPracticeBot d;
  match matches d !! uuid with
  | Some _ => None
  | None =>
      let row := {|
        id := uuid; agent1_id := agentId; agent2_id := agent_id bot;
        challenge_type := challengeType;
        challenge_data := wire_obj challengeData;
        status := "active"; winner_id := None; started_at := Some now;
        completed_at := None; time_limit := timeLimit; entry_fee_wei := "0";
        creator_id := Some agentId; opponent_id := Some (agent_id bot);
        pot_wei := "0"; arena_cut_wei := "0"; winner_payout_wei := "0";
        challenge_seed := Some challengeSeed; is_practice := 1;
        elo_change_agent1 := 0; elo_change_agent2 := 0 |} in
      Some (with_matches d (<[uuid := row]> (matches d)), uuid)
  end.

(** The double-precision part of [updateELO] (expected score with
    [Math.pow], the K-factor product and [Math.round]) is the storage
    class's only floating-point computation; it is taken as given: from
    the two ratings and agent 1's result it yields both new ratings. *)
Inductive result1 := Agent1Wins | Agent2Wins | Draw.

Class EloArithmetic := newRatings : Z → Z → result1 → Z * Z.

(** What the storage class prints on the console. *)
Inductive log_line :=
| SkippingELO (matchId : string)
| SkippingPayout (matchId : string)
| PayoutLine (matchId payout : string) (winner : option string) (cut : string).

Definition set_elo_changes (r : match_row) (c1 c2 : Z) : match_row :=
  {| id := id r; agent1_id := agent1_id r; agent2_id := agent2_id r;
     challenge_type := challenge_type r; challenge_data := challenge_data r;
     status := status r; winner_id := winner_id r; started_at := started_at r;
     completed_at := completed_at r; time_limit := time_limit r;
     entry_fee_wei := entry_fee_wei r; creator_id := creator_id r;
     opponent_id := opponent_id r; pot_wei := pot_wei r;
     arena_cut_wei := arena_cut_wei r; winner_payout_wei := winner_payout_wei r;
     challenge_seed := challenge_seed r; is_practice := is_practice r;
     elo_change_agent1 := c1; elo_change_agent2 := c2 |}.

Definition set_completed (r : match_row) (winnerId : option string)
    (now : string) : match_row :=
  {| id := id r; agent1_id := agent1_id r; agent2_id := agent2_id r;
     challenge_type := challenge_type r; challenge_data := challenge_data r;
     status := "completed"; winner_id := winnerId; started_at := started_at r;
     completed_at := Some now; time_limit := time_limit r;
     entry_fee_wei := entry_fee_wei r; creator_id := creator_id r;
     opponent_id := opponent_id r; pot_wei := pot_wei r;
     arena_cut_wei := arena_cut_wei r; winner_payout_wei := winner_payout_wei r;
     challenge_seed := challenge_seed r; is_practice := is_practice r;
     elo_change_agent1 := elo_change_agent1 r;
     elo_change_agent2 := elo_change_agent2 r |}.

(** [UPDATE agents SET elo = ?, <counter> = <counter> + 1 WHERE id = ?]. *)
Inductive counter := Wins | Losses | Draws.

Definition bump (a : agent) (newElo : Z) (c : counter) : agent :=
  {| agent_id := agent_id a; agent_name := agent_name a;
     agent_endpoint := agent_endpoint a;
     agent_description := agent_description a;
     agent_api_key := agent_api_key a; elo := newElo;
     wins := match c with Wins => wins a + 1 | _ => wins a end;
     losses := match c with Losses => losses a + 1 | _ => losses a end;
     draws := match c with Draws => draws a + 1 | _ => draws a end;
     erc8004_identity := erc8004_identity a; wallet := wallet a;
     agent_created_at := agent_created_at a |}.

Definition update_agent (d : db) (i : string) (newElo : Z) (c : counter) : db :=
  with_agents d (alter (fun a => bump a newElo c) i (agents d)).

(** [updateELO].  [None] is the TypeError of reading [.elo] from a
    missing agent, raised before anything is written. *)
Definition updateELO `{EloArithmetic} (d : db) (matchId : string)
    (winnerId : option string) : option (db * list log_line) :=
  match getMatch d matchId with
  | None => Some (d, [])
  | Some m =>
      if negb (Z.eqb (is_practice m) 0) then Some (d, [SkippingELO matchId])
      else
        agent1 ← getAgent d (agent1_id m);
        agent2 ← getAgent d (agent2_id m);
        let res :=
          match winnerId with
          | None => Draw
          | Some w =>
              if String.eqb w EmptyString then Draw
              else if String.eqb w (agent1_id m) then Agent1Wins else Agent2Wins
          end in
        let '(newElo1, newElo2) := newRatings (elo agent1) (elo agent2) res in
        let d1 := with_matches d
          (alter (fun r => set_elo_changes r (newElo1 - elo agent1)
                                           (newElo2 - elo agent2))
                 matchId (matches d)) in
        let '(c1, c2) :=
          match res with
          | Draw => (Draws, Draws)
          | Agent1Wins => (Wins, Losses)
          | Agent2Wins => (Losses, Wins)
          end in
        let d2 := update_agent d1 (agent1_id m) newElo1 c1 in
        Some (update_agent d2 (agent2_id m) newElo2 c2, [])
  end.

(** [handleMatchPayout] writes nothing; it prints one line at most. *)
Definition handleMatchPayout (d : db) (matchId : string)
    (winnerId : option string) : list log_line :=
  match getMatch d matchId with
  | None => []
  | Some m =>
      if String.eqb (winner_payout_wei m) EmptyString || String.eqb (winner_payout_wei m) "0"
      then []
      else if negb (Z.eqb (is_practice m) 0) then [SkippingPayout matchId]
      else [PayoutLine matchId (winner_payout_wei m) winnerId (arena_cut_wei m)]
  end.

(** [completeMatch]: the UPDATE is applied first and stays applied when
    [updateELO] throws ([resolved = false]). *)
Record completion := {
  after : db;
  printed : list log_line;
  resolved : bool
}.

Definition completeMatch `{EloArithmetic} (d : db) (now matchId : string)
    (winnerId : option string) : completion :=
  let d1 := with_matches d
    (alter (fun r => set_completed r winnerId now) matchId (matches d)) in
  match updateELO d1 matchId winnerId with
  | None => {| after := d1; printed := []; resolved := false |}
  | Some (d2, l) =>
      {| after := d2; printed := l ++ handleMatchPayout d2 matchId winnerId;
         resolved := true |}
  end.

(** Payments. *)
Definition getPaymentByTxHash (d : db) (txHash : string) : option payment :=
  head (filter (fun p => bool_decide (pay_tx_hash p = txHash)) (payments d)).

Definition recordPayment (d : db) (uuid agentId txHash amountWei fromWallet : string)
    (matchId : option string) : option (db * string) :=
  if bool_decide (Exists (fun p => pay_id p = uuid ∨ pay_tx_hash p = txHash) (payments d))
  then None
  else
    let p := {| pay_id := uuid; pay_agent_id := agentId; pay_tx_hash := txHash;
                pay_amount_wei := amountWei; pay_from_wallet := fromWallet;
                pay_match_id := matchId |} in
    Some ({| agents := agents d; matches := matches d;
             submissions := submissions d; payments := payments d ++ [p];
             payment_status := <[agentId := uuid]> (payment_status d) |}, uuid).

(** [SELECT COALESCE (SUM (CAST (amount_wei AS INTEGER)), 0) FROM
    payments WHERE agent_id = ?]; [None] when the sum overflows and the
    query fails. *)
Definition paid_total (d : db) (agentId : string) : option Z :=
  sql_sum (map (fun p => sql_cast_integer (pay_amount_wei p))
               (filter (fun p => bool_decide (pay_agent_id p = agentId))
                       (payments d))).

(** [getAgentPaymentBalance]: the driver hands the 64-bit sum over as a
    number, so as the nearest double, and [toString] prints it. *)
Definition getAgentPaymentBalance (d : db) (agentId : string) : option string :=
  total ← paid_total d agentId;
  Some (Number_toString (Number_of total)).

(** [canAgentAffordMatch]: [BigInt (balance) >= BigInt (entryFeeWei)]. *)
Definition canAgentAffordMatch (d : db) (agentId entryFeeWei : string) : option bool :=
  balance ← getAgentPaymentBalance d agentId;
  b ← BigInt_parse balance;
  f ← BigInt_parse entryFeeWei;
  Some (Z.leb f b).

(** Submissions. *)
Definition getMatchSubmissions (d : db) (matchId : string) : list submission :=
  filter (fun s => bool_decide (sub_match_id s = matchId)) (submissions d).

(** ** Collaborators of the server

    [viem] and the Base chain: [parseEther] throws on a text that is not
    a decimal amount; the two chain reads throw when the transaction is
    unknown. *)

Record chain_tx := {
  tx_to : option string;
  tx_from : string;
  tx_value : Z
}.

Class Viem := {
  parseEther : string → option Z;
  getTransactionReceipt : string → option string;
  getTransaction : string → option chain_tx;
  parseEther_min : parseEther "0.0001" = Some 100000000000000
}.

(** The verdict of [validateSolution]. *)
Record validation := {
  valid : bool;
  score : Z
}.

(** The challenge engine as the server sees it ([require('./challenges')]):
    the catalogue of type names, [generateChallenge (type, difficulty,
    seed)] with [type] and [seed] possibly [null]/[undefined] ([None]
    when the call throws), and [validateSolution (challenge, solution)]. *)
Class ChallengeGenerator := {
  challengeTypes : list string;
  generateChallenge : option string → Z → option string → option obj;
  validateSolution : obj → string → validation
}.

Definition ARENA_WALLET : string := "0x864736f6982Ae6D2e40033d52C0c82c14Da9bc65".
Definition ENTRY_FEE_ETH : string := "0.0001".

Definition ENTRY_FEE_WEI `{Viem} : string :=
  from_option BigInt_toString EmptyString (parseEther ENTRY_FEE_ETH).

(** ** Server state and responses *)

Record queueEntry := {
  q_agent : agent;
  q_challenge_type : option string;
  q_difficulty : Z;
  q_joined_at : string
}.

Record server := {
  store : db;
  matchQueue : list queueEntry
}.

Definition with_store (s : server) (d : db) : server :=
  {| store := d; matchQueue := matchQueue s |}.

(** A handler's answer: [res.json] with a body, [res.status (code).json
    ({error})], or an exception that leaves the async handler without any
    answer. *)
Inductive response :=
| Json (body : value)
| Error (code : Z) (error : string)
| Unhandled.

(** [Math.floor (Math.random () * n)] for the runtime's draw [r]. *)
Definition floor_random (n r : Z) : Z := r mod n.

(** Binding a JavaScript value to a TEXT NOT NULL / INTEGER NOT NULL
    column: [undefined] and [null] bind NULL, which the column refuses.
    The engine hands out strings and numbers at these places; any other
    value is refused here too. *)
Definition bind_text (v : option value) : option string :=
  match v with Some (VStr s) => Some s | _ => None end.

Definition bind_int (v : option value) : option Z :=
  match v with Some (VNum n) => Some n | _ => None end.

Definition opt_str (o : option string) : value :=
  match o with Some s => VStr s | None => VNull end.

Definition opt_truthy (o : option string) : option string :=
  match o with
  | Some s => if String.eqb s EmptyString then None else Some s
  | None => None
  end.

(** The payment checks shared by the create and join handlers.
    [None]: an exception; [Some (Some e)]: answered 400 with [e];
    [Some None]: the payment stands. *)
Definition verify_payment `{Viem} (d : db) (ag : agent) (txHash : string)
    (requiredWei : string) : option (option string) :=
  match getPaymentByTxHash d txHash with
  | Some _ => Some (Some "Transaction already processed")
  | None =>
      st ← getTransactionReceipt txHash;
      if negb (String.eqb st "success")
      then Some (Some "Transaction not found or failed")
      else
        tx ← getTransaction txHash;
        to ← tx_to tx;
        if negb (String.eqb (toLowerCase to) (toLowerCase ARENA_WALLET))
        then Some (Some "Transaction not sent to arena wallet")
        else
          req ← BigInt_parse requiredWei;
          if Z.ltb (tx_value tx) req
          then Some (Some "Insufficient payment amount")
          else
            w ← wallet ag;
            if negb (String.eqb (toLowerCase (tx_from tx)) (toLowerCase w))
            then Some (Some "Transaction sender does not match registered wallet")
            else Some None
  end.

(** ** POST /api/match/create *)

Record create_body := {
  cb_challengeType : option string;
  cb_entryFee : option string;
  cb_difficulty : option Z;
  cb_txHash : option string
}.

(** [difficulty || 3]. *)
Definition difficulty_or_3 (d : option Z) : Z :=
  match d with
  | Some n => if Z.eqb n 0 then 3 else n
  | None => 3
  end.

Definition create_ok (matchId entryFee entryFeeWei challengeType : string)
    (difficulty : Z) (paid : bool) : obj :=
  [("success", VBool true); ("match_id", VStr matchId);
   ("entry_fee", VStr (entryFee +:+ " ETH"));
   ("entry_fee_wei", VStr entryFeeWei);
   ("challenge_type", VStr challengeType);
   ("difficulty", VNum difficulty);
   ("message", VStr (if paid then "Custom match created and payment verified!"
                     else "Custom match created! Pay entry fee to finalize."))].

(** The second [try] block of the handler: seed, insert, optional
    payment record, answer. *)
Definition create_insert `{Viem} (s : server) (ag : agent)
    (challengeType entryFee entryFeeWei : string) (difficulty : option Z)
    (txHash : option string) (seed uuid payUuid : string) : response * server :=
  let ty := if String.eqb challengeType "random" then None else Some challengeType in
  match createCustomMatch (store s) uuid (agent_id ag) ty entryFeeWei
                          (difficulty_or_3 difficulty) seed with
  | None => (Error 500 "Failed to create match", s)
  | Some (d1, matchId) =>
      match txHash with
      | None =>
          (Json (VObj (create_ok matchId entryFee entryFeeWei challengeType
                                 (difficulty_or_3 difficulty) false)),
           with_store s d1)
      | Some tx =>
          match t ← getTransaction tx;
                recordPayment d1 payUuid (agent_id ag) tx
                  (BigInt_toString (tx_value t)) (tx_from t) (Some matchId) with
          | None => (Error 500 "Failed to create match", with_store s d1)
          | Some (d2, _) =>
              (Json (VObj (create_ok matchId entryFee entryFeeWei challengeType
                                     (difficulty_or_3 difficulty) true)),
               with_store s d2)
          end
      end
  end.

Definition post_match_create `{Viem} (s : server) (ag : agent) (b : create_body)
    (seed uuid payUuid : string) : response * server :=
  match opt_truthy (cb_challengeType b), opt_truthy (cb_entryFee b) with
  | Some challengeType, Some entryFee =>
      match BigInt_toString <$> parseEther entryFee,
            BigInt_toString <$> parseEther "0.0001" with
      | Some entryFeeWei, Some minFeeWei =>
          match BigInt_parse entryFeeWei, BigInt_parse minFeeWei with
          | Some f, Some m =>
              if Z.ltb f m then (Error 400 "Entry fee too low", s)
              else
                match opt_truthy (cb_txHash b) with
                | None =>
                    create_insert s ag challengeType entryFee entryFeeWei
                                  (cb_difficulty b) None seed uuid payUuid
                | Some tx =>
                    match verify_payment (store s) ag tx entryFeeWei with
                    | None => (Error 400 "Payment verification failed", s)
                    | Some (Some e) => (Error 400 e, s)
                    | Some None =>
                        create_insert s ag challengeType entryFee entryFeeWei
                                      (cb_difficulty b) (Some tx) seed uuid payUuid
                    end
                end
          | _, _ => (Unhandled, s)
          end
      | _, _ => (Unhandled, s)
      end
  | _, _ => (Error 400 "challengeType and entryFee are required", s)
  end.

(** ** POST /api/match/:id/join *)

Definition join_ok (matchId : string) (challenge : obj) : obj :=
  wire_obj
    [("success", VBool true); ("match_id", VStr matchId);
     ("message", VStr "Successfully joined match!");
     ("challenge",
      VObj [("type", default VUndef (field "type" challenge));
            ("title", default VUndef (field "title" challenge));
            ("description", default VUndef (field "description" challenge));
            ("time_limit", default VUndef (field "timeLimit" challenge))])].

(** The writes of the handler once the payment stands; [None] is an
    exception, after which the state reached so far stays. *)
Definition join_writes `{ChallengeGenerator} (d : db) (ag : agent)
    (matchId : string) (m : match_row)
    (tx : chain_tx) (txHash now payUuid : string) : option obj * db :=
  match generateChallenge (Some (challenge_type m)) 3 (challenge_seed m) with
  | None => (None, d)
  | Some challenge =>
      match timeLimit ← bind_int (field "timeLimit" challenge);
            joinCustomMatch d now matchId (agent_id ag) challenge timeLimit with
      | None => (None, d)
      | Some d1 =>
          match recordPayment d1 payUuid (agent_id ag) txHash
                  (BigInt_toString (tx_value tx)) (tx_from tx) (Some matchId) with
          | None => (None, d1)
          | Some (d2, _) =>
              match creator_id m ≫= getAgent d2 with
              | None => (None, d2)
              | Some _ => (Some (join_ok matchId challenge), d2)
              end
          end
      end
  end.

Definition post_match_join `{Viem} `{ChallengeGenerator} (s : server) (ag : agent)
    (matchId : string) (txHash : option string) (now payUuid : string)
    : response * server :=
  match opt_truthy txHash with
  | None => (Error 400 "txHash is required for payment verification", s)
  | Some tx =>
      match getMatch (store s) matchId with
      | None => (Error 404 "Match not found", s)
      | Some m =>
          if negb (String.eqb (status m) "open")
          then (Error 400 "Match is not open for joining", s)
          else if bool_decide (creator_id m = Some (agent_id ag))
          then (Error 400 "Cannot join your own match", s)
          else
            match verify_payment (store s) ag tx (entry_fee_wei m) with
            | None => (Error 500 "Failed to join match", s)
            | Some (Some e) => (Error 400 e, s)
            | Some None =>
                match getTransaction tx with
                | None => (Error 500 "Failed to join match", s)
                | Some t =>
                    match join_writes (store s) ag matchId m t tx now payUuid with
                    | (None, d') => (Error 500 "Failed to join match", with_store s d')
                    | (Some body, d') => (Json (VObj body), with_store s d')
                    end
                end
            end
      end
  end.

(** ** The matchmaking queue: POST /api/match/queue and [tryMatchmaking] *)

(** The row [tryMatchmaking] inserts for the pair. *)
Definition quick_match_row (uuid now : string) (e1 e2 : queueEntry)
    (ty : string) (challenge : obj) (timeLimit : Z)
    (fee pot cut payout seed : string) : match_row :=
  {| id := uuid; agent1_id := agent_id (q_agent e1);
     agent2_id := agent_id (q_agent e2); challenge_type := ty;
     challenge_data := wire_obj challenge; status := "active";
     winner_id := None; started_at := Some now; completed_at := None;
     time_limit := timeLimit; entry_fee_wei := fee;
     creator_id := Some (agent_id (q_agent e1));
     opponent_id := Some (agent_id (q_agent e2));
     pot_wei := pot; arena_cut_wei := cut; winner_payout_wei := payout;
     challenge_seed := Some seed; is_practice := 0;
     elo_change_agent1 := 0; elo_change_agent2 := 0 |}.

(** The [try] block of [tryMatchmaking]: amounts, then the INSERT, which
    the NOT NULL columns or a primary key in use make fail. *)
Definition quick_match_insert `{Viem} (d : db) (uuid now seed : string)
    (e1 e2 : queueEntry) (challenge : obj) : option db :=
  fee ← BigInt_parse ENTRY_FEE_WEI;
  let pot := potWei fee in
  cut ← arenaCutWei pot;
  payout ← winnerPayoutWei pot cut;
  ty ← bind_text (field "type" challenge);
  timeLimit ← bind_int (field "timeLimit" challenge);
  match matches d !! uuid with
  | Some _ => None
  | None =>
      Some (with_matches d
              (<[uuid := quick_match_row uuid now e1 e2 ty challenge timeLimit
                           ENTRY_FEE_WEI pot cut payout seed]> (matches d)))
  end.

(** [agent1Entry.challenge_type || agent2Entry.challenge_type]. *)
Definition paired_type (e1 e2 : queueEntry) : option string :=
  match opt_truthy (q_challenge_type e1) with
  | Some t => Some t
  | None => q_challenge_type e2
  end.

(** [tryMatchmaking] answers [null] or [{ id, challenge }]; the id it
    reports is the statement's [lastID], the row number of the insert
    (rows are never deleted, so the number of rows).
    [generateChallenge] is called outside the [try]: when it throws, so
    does [tryMatchmaking] (the outer [None]), after both entries have
    left the queue. *)
Definition tryMatchmaking `{Viem} `{ChallengeGenerator} (s : server)
    (seed uuid now : string) : option (option (string * obj)) * server :=
  match matchQueue s with
  | agent1Entry :: agent2Entry :: rest =>
      let challengeType := paired_type agent1Entry agent2Entry in
      let difficulty := Z.max (q_difficulty agent1Entry) (q_difficulty agent2Entry) in
      match generateChallenge challengeType difficulty (Some seed) with
      | None => (None, {| store := store s; matchQueue := rest |})
      | Some challenge =>
          match quick_match_insert (store s) uuid now seed agent1Entry
                                   agent2Entry challenge with
          | None => (Some None, {| store := store s; matchQueue := rest |})
          | Some d' =>
              (Some (Some (BigInt_toString (Z.of_nat (size (matches d'))),
                           challenge)),
               {| store := d'; matchQueue := rest |})
          end
      end
  | _ => (Some None, s)
  end.

Record queue_body := {
  qb_challenge_type : option string;
  qb_difficulty : option Z
}.

(** The agents waiting, front first. *)
Definition queued_ids (q : list queueEntry) : list string :=
  map (fun e => agent_id (q_agent e)) q.

(** The [queueEntry] of a request; [rnd] is the draw behind the default
    difficulty. *)
Definition new_entry (ag : agent) (b : queue_body) (rnd : Z) (now : string)
    : queueEntry :=
  {| q_agent := ag;
     q_challenge_type := opt_truthy (qb_challenge_type b);
     q_difficulty :=
       match qb_difficulty b with
       | Some n => if Z.eqb n 0 then floor_random 3 rnd + 1 else n
       | None => floor_random 3 rnd + 1
       end;
     q_joined_at := now |}.

(** [matchQueue.findIndex (entry => entry.agent.id === req.agent.id) !== -1]. *)
Definition already_queued (q : list queueEntry) (ag : agent) : bool :=
  existsb (fun e => String.eqb (agent_id (q_agent e)) (agent_id ag)) q.

(** The handler. *)
Definition post_match_queue `{Viem} `{ChallengeGenerator} (s : server) (ag : agent)
    (b : queue_body) (rnd : Z) (seed uuid now : string) : response * server :=
  match canAgentAffordMatch (store s) (agent_id ag) ENTRY_FEE_WEI with
  | None => (Unhandled, s)
  | Some false => (Error 402 "Insufficient payment balance", s)
  | Some true =>
      if already_queued (matchQueue s) ag then (Error 400 "Already in queue", s)
      else
        let queueEntry := new_entry ag b rnd now in
        let s1 := {| store := store s; matchQueue := matchQueue s ++ [queueEntry] |} in
        match tryMatchmaking s1 seed uuid now with
        | (None, s2) => (Unhandled, s2)
        | (Some (Some (mid, _)), s2) =>
            (Json (VObj [("success", VBool true); ("match_id", VStr mid);
                         ("message", VStr "Match found!")]), s2)
        | (Some None, s2) =>
            (Json (VObj
               [("success", VBool true);
                ("message", VStr "Added to queue, waiting for opponent...");
                ("queue_position", VNum (Z.of_nat (length (matchQueue s2))))]), s2)
        end
  end.

(** ** POST /api/match/practice

    [rndType] and [rndDifficulty] are the two [Math.random] draws. *)
Definition post_match_practice `{ChallengeGenerator} (s : server) (ag : agent)
    (challenge_type : option string) (rndType rndDifficulty : Z)
    (seed uuid now : string) : response * server :=
  let finalChallengeType :=
    match opt_truthy challenge_type with
    | Some t => Some t
    | None =>
        challengeTypes !!
          Z.to_nat (floor_random (Z.of_nat (length challengeTypes)) rndType)
    end in
  let difficulty := floor_random 2 rndDifficulty + 1 in
  match challenge ← generateChallenge finalChallengeType difficulty (Some seed);
        ty ← bind_text (field "type" challenge);
        r ← createPracticeMatch (store s) uuid now (agent_id ag) ty difficulty
                                seed challenge 120;
        Some (challenge, r) with
  | None => (Error 500 "Failed to create practice match", s)
  | Some (challenge, (d', matchId)) =>
      (Json (wire (VObj
         [("success", VBool true); ("match_id", VStr matchId);
          ("message", VStr "Practice match created! No entry fee required.");
          ("challenge",
           VObj [("type", default VUndef (field "type" challenge));
                 ("title", default VUndef (field "title" challenge));
                 ("description", default VUndef (field "description" challenge));
                 ("time_limit", VNum 120); ("difficulty", VNum difficulty)]);
          ("is_practice", VBool true)])),
       with_store s d')
  end.

(** ** What the server shows of a match *)

(** The four [delete]s of every projection. *)
Definition strip_answers (cd : obj) : obj :=
  del "key" (del "plaintext" (del "solution" (del "answer" cd))).

(** [tc => ({ input: tc.input, description: tc.description || undefined })],
    the test-case shape of the match page. *)
Definition tc_detail (tc : value) : option value :=
  i ← getprop tc "input";
  dsc ← getprop tc "description";
  Some (VObj [("input", i); ("description", js_or dsc VUndef)]).

(** [tc => ({ input: tc.input })], the shape of the other three pages. *)
Definition tc_input (tc : value) : option value :=
  i ← getprop tc "input";
  Some (VObj [("input", i)]).

(** [if (cd.testCases) cd.testCases = cd.testCases.map (f)]: a truthy
    [testCases] that is no array has no [map], which throws. *)
Definition map_testCases (f : value → option value) (cd : obj) : option obj :=
  match field "testCases" cd with
  | None => Some cd
  | Some tcs =>
      if truthy tcs then
        match tcs with
        | VArr xs => xs' ← mapM f xs; Some (put "testCases" (VArr xs') cd)
        | _ => None
        end
      else Some cd
  end.

(** [safeChallenge] of GET /api/match/:id. *)
Definition safeChallenge (cd : obj) : option obj :=
  map_testCases tc_detail (strip_answers cd).

(** [cd] of the profile, battles and active-match pages. *)
Definition safe_cd (cd : obj) : option obj :=
  map_testCases tc_input (strip_answers cd).

(** A row as the object [SELECT *] yields, [challenge_data] parsed. *)
Definition row_obj (m : match_row) : obj :=
  [("id", VStr (id m)); ("agent1_id", VStr (agent1_id m));
   ("agent2_id", VStr (agent2_id m));
   ("challenge_type", VStr (challenge_type m));
   ("challenge_data", VObj (challenge_data m));
   ("status", VStr (status m)); ("winner_id", opt_str (winner_id m));
   ("started_at", opt_str (started_at m));
   ("completed_at", opt_str (completed_at m));
   ("time_limit", VNum (time_limit m));
   ("entry_fee_wei", VStr (entry_fee_wei m));
   ("creator_id", opt_str (creator_id m));
   ("opponent_id", opt_str (opponent_id m));
   ("pot_wei", VStr (pot_wei m)); ("arena_cut_wei", VStr (arena_cut_wei m));
   ("winner_payout_wei", VStr (winner_payout_wei m));
   ("challenge_seed", opt_str (challenge_seed m));
   ("is_practice", VNum (is_practice m));
   ("elo_change_agent1", VNum (elo_change_agent1 m));
   ("elo_change_agent2", VNum (elo_change_agent2 m))].

(** [SELECT * FROM agents WHERE api_key = ?]: [api_key] is UNIQUE. *)
Definition getAgentByApiKey (d : db) (k : string) : option agent :=
  snd <$> head (filter (fun p => bool_decide (agent_api_key p.2 = k))
                       (map_to_list (agents d))).

(** One entry of [safeSubmissions]. *)
Definition safeSubmission (d : db) (isCompleted : bool)
    (requestingAgent : option agent) (sub : submission) : value :=
  VObj [("agent_id", VStr (sub_agent_id sub));
        ("agent_name", opt_str (agent_name <$> getAgent d (sub_agent_id sub)));
        ("correct", VNum (if sub_correct sub then 1 else 0));
        ("score", VNum (sub_score sub));
        ("submitted_at", VStr (sub_submitted_at sub));
        ("solution",
         if isCompleted then VStr (sub_solution sub)
         else match requestingAgent with
              | Some a =>
                  if String.eqb (sub_agent_id sub) (agent_id a)
                  then VStr (sub_solution sub) else VUndef
              | None => VUndef
              end)].

Definition name_or_null (a : option agent) : value :=
  match a with
  | Some x => js_or (VStr (agent_name x)) VNull
  | None => VNull
  end.

Definition elo_or_null (a : option agent) : value :=
  match a with
  | Some x => js_or (VNum (elo x)) VNull
  | None => VNull
  end.

(** GET /api/match/:id.  The answer spreads the whole row and replaces
    [challenge_data] by [safeChallenge]. *)
Definition get_match (d : db) (matchId : string) (apiKey : option string)
    : response :=
  match getMatch d matchId with
  | None => Error 404 "Match not found"
  | Some m =>
      let agent1 := if String.eqb (agent1_id m) EmptyString then None
                    else getAgent d (agent1_id m) in
      let agent2 := if String.eqb (agent2_id m) EmptyString then None
                    else getAgent d (agent2_id m) in
      match safeChallenge (challenge_data m) with
      | None => Error 500 "Failed to get match"
      | Some safe =>
          let requestingAgent := opt_truthy apiKey ≫= getAgentByApiKey d in
          let isCompleted := String.eqb (status m) "completed" in
          Json (wire (VObj
            (put "submissions"
               (VArr (map (safeSubmission d isCompleted requestingAgent)
                          (getMatchSubmissions d (id m))))
            (put "agent2_elo" (elo_or_null agent2)
            (put "agent2_name" (name_or_null agent2)
            (put "agent1_elo" (elo_or_null agent1)
            (put "agent1_name" (name_or_null agent1)
            (put "challenge_data" (VObj safe) (row_obj m)))))))))
      end
  end.

(** A row of [getAgentMatches] / [getActiveMatches]: the match columns
    and the two joined names. *)
Definition joined_obj (m : match_row) (d : db) : obj :=
  row_obj m ++
  [("agent1_name", opt_str (agent_name <$> getAgent d (agent1_id m)));
   ("agent2_name", opt_str (agent_name <$> getAgent d (agent2_id m)))].

(** [m => ({ ...m, challenge_data: cd })] of the profile and battles
    pages, for the rows the query returned. *)
Definition safeMatch (d : db) (m : match_row) : option value :=
  cd ← safe_cd (challenge_data m);
  Some (VObj (put "challenge_data" (VObj cd) (joined_obj m d))).

(** GET /api/agent/:id/battles for the rows [getAgentMatches] returned. *)
Definition get_agent_battles (d : db) (agentId : string) (rows : list match_row)
    : response :=
  match getAgent d agentId with
  | None => Error 404 "Agent not found"
  | Some _ =>
      match mapM (safeMatch d) rows with
      | None => Error 500 "Failed to get battles"
      | Some l => Json (wire (VArr l))
      end
  end.

(** GET /api/agent/:id for the rows [getAgentMatches] returned: the
    agent without [api_key], and [recent_matches]. *)
Definition publicAgent (a : agent) : obj :=
  [("id", VStr (agent_id a)); ("name", VStr (agent_name a));
   ("endpoint", VStr (agent_endpoint a));
   ("description", opt_str (agent_description a));
   ("elo", VNum (elo a)); ("wins", VNum (wins a));
   ("losses", VNum (losses a)); ("draws", VNum (draws a));
   ("wallet", opt_str (wallet a));
   ("created_at", VStr (agent_created_at a))].

Definition get_agent (d : db) (agentId : string) (rows : list match_row)
    : response :=
  match getAgent d agentId with
  | None => Error 404 "Agent not found"
  | Some a =>
      match mapM (safeMatch d) rows with
      | None => Error 500 "Failed to get agent"
      | Some l =>
          Json (wire (VObj
            (publicAgent a ++
             [("erc8004_identity", opt_str (erc8004_identity a));
              ("erc8004_token_id",
               js_or (opt_str (erc8004_identity a)) VNull);
              ("recent_matches", VArr l)])))
      end
  end.

(** GET /api/matches/active for the rows [getActiveMatches] returned;
    any exception is answered with an empty list. *)
Definition activeSubmission (d : db) (sub : submission) : value :=
  VObj [("agent_id", VStr (sub_agent_id sub));
        ("agent_name", opt_str (agent_name <$> getAgent d (sub_agent_id sub)));
        ("correct", VNum (if sub_correct sub then 1 else 0));
        ("score", VNum (sub_score sub));
        ("submitted_at", VStr (sub_submitted_at sub))].

Definition activeMatch (d : db) (m : match_row) : option value :=
  cd ← safe_cd (challenge_data m);
  Some (VObj (put "submissions"
                (VArr (map (activeSubmission d) (getMatchSubmissions d (id m))))
                (put "challenge_data" (VObj cd) (joined_obj m d)))).

Definition get_matches_active (d : db) (rows : list match_row) : response :=
  match mapM (activeMatch d) rows with
  | None => Json (VObj [("matches", VArr [])])
  | Some l => Json (wire (VObj [("matches", VArr l)]))
  end.

(** ** The challenge engine (challenges.js)

    The engine's source is not part of the tree at hand; this part
    follows the engine's specification.  What the specification leaves
    open (the stream algorithm, the message pool, the cipher
    transformations, the problem catalogue, the digest, the isolate) is
    a parameter, gathered in the classes [SeededStream], [Catalogue],
    [Digest] and [Isolate]. *)

(** Value equality: numbers by numeric equality, strings and sequences
    by exact equality. *)
Fixpoint value_eqb (a b : value) : bool :=
  match a, b with
  | VUndef, VUndef => true
  | VNull, VNull => true
  | VBool x, VBool y => Bool.eqb x y
  | VNum x, VNum y => Z.eqb x y
  | VStr x, VStr y => String.eqb x y
  | VArr xs, VArr ys =>
      (fix go (xs ys : list value) : bool :=
         match xs, ys with
         | [], [] => true
         | x :: xs', y :: ys' => value_eqb x y && go xs' ys'
         | _, _ => false
         end) xs ys
  | VObj xs, VObj ys =>
      (fix go (xs ys : obj) : bool :=
         match xs, ys with
         | [], [] => true
         | (k, x) :: xs', (k', y) :: ys' =>
             String.eqb k k' && value_eqb x y && go xs' ys'
         | _, _ => false
         end) xs ys
  | _, _ => false
  end.

Definition dquote : ascii := ascii_of_nat 34.

(** The text of a string literal: quote and backslash escaped. *)
Fixpoint escape (s : string) : string :=
  match s with
  | EmptyString => EmptyString
  | String c s' =>
      if Ascii.eqb c dquote || Ascii.eqb c "\"%char
      then String "\"%char (String c (escape s'))
      else String c (escape s')
  end.

Definition quote (s : string) : string :=
  String dquote (escape s +:+ String dquote EmptyString).

(** The bytes of a payload ([JSON.stringify] of a value without
    [undefined]). *)
Fixpoint stringify (v : value) : string :=
  match v with
  | VUndef | VNull => "null"
  | VBool b => if b then "true" else "false"
  | VNum n => BigInt_toString n
  | VStr s => quote s
  | VArr xs =>
      "[" +:+
      (fix go (xs : list value) : string :=
         match xs with
         | [] => EmptyString
         | x :: xs' =>
             match xs' with
             | [] => stringify x
             | _ => stringify x +:+ "," +:+ go xs'
             end
         end) xs +:+ "]"
  | VObj o =>
      "{" +:+
      (fix go (o : obj) : string :=
         match o with
         | [] => EmptyString
         | (k, x) :: o' =>
             match o' with
             | [] => quote k +:+ ":" +:+ stringify x
             | _ => quote k +:+ ":" +:+ stringify x +:+ "," +:+ go o'
             end
         end) o +:+ "}"
  end.

(** Modelled from the spec: the Seeded Generator of section 4.1, whose
    source (challenges.js) is absent.  The generator's entire state is
    the seed plus a position counter; [draw seed position] is the fixed
    algorithm's value at that position of the seed's stream. *)
Class SeededStream := draw : string → nat → N.

Record seedState := {
  gs_seed : string;
  gs_position : nat
}.

Definition initState (seed : string) : seedState :=
  {| gs_seed := seed; gs_position := 0 |}.

(** [next (seedState) → (value, seedState')]. *)
Definition next `{SeededStream} (st : seedState) : N * seedState :=
  (draw (gs_seed st) (gs_position st),
   {| gs_seed := gs_seed st; gs_position := S (gs_position st) |}).

(** A generation step: it consumes draws and may hit a defect of the
    catalogue ([None]). *)
Definition Gen (A : Type) : Type := seedState → option (A * seedState).

Definition gret {A} (a : A) : Gen A := fun st => Some (a, st).

Definition gbind {A B} (m : Gen A) (k : A → Gen B) : Gen B :=
  fun st => match m st with
            | Some (a, st') => k a st'
            | None => None
            end.

Definition glift {A} (o : option A) : Gen A :=
  fun st => match o with Some a => Some (a, st) | None => None end.

Definition gnext `{SeededStream} : Gen N := fun st => Some (next st).

Notation "x ⇐ m ;; k" := (gbind m (fun x => k))
  (at level 100, m at next level, right associativity).

(** An integer draw in a bounded range. *)
Definition nextBelow `{SeededStream} (n : N) : Gen N :=
  if N.eqb n 0 then glift None else (r ⇐ gnext ;; gret (r mod n)%N).

(** A draw from a list. *)
Definition pick `{SeededStream} {A} (l : list A) : Gen A :=
  i ⇐ nextBelow (N.of_nat (length l)) ;; glift (l !! N.to_nat i).

(** Modelled from the spec: the data model of section 3 (Challenge as a
    tagged union over the three families, with its private answer key);
    challenges.js is absent. *)
Inductive Family := Cipher | CodePuzzle | HashPattern.

Definition families : list Family := [Cipher; CodePuzzle; HashPattern].

Definition family_name (f : Family) : string :=
  match f with
  | Cipher => "cipher_break"
  | CodePuzzle => "code_golf"
  | HashPattern => "hash_hunt"
  end.

Inductive CipherKind :=
| ShiftSubstitution | KeyedSubstitution | AlphabetPermutation
| ByteXor | BaseEncoding | WordToSymbol.

Inductive PatternKind :=
| LeadingZeros | PrefixMatch | SuffixMatch | SubstringMatch
| LexicographicBelow | CollisionPair.

(** A test case: the public input and the private expected output. *)
Record TestCase := {
  tc_in : value;
  tc_expected : value
}.

Inductive Instance :=
| CipherInstance (kinds : list CipherKind) (ciphertext plaintext : string)
| CodeInstance (description : string) (examples testCases : list TestCase)
| HashInstance (kind : PatternKind) (target : string) (zeros : Z).

Record Challenge := {
  ch_type : Family;
  ch_difficulty : Z;
  ch_timeLimitSeconds : Z;
  ch_instance : Instance
}.

(** A parameterized problem of the code-puzzle catalogue: for the drawn
    parameter, its description, its example and hidden inputs, and the
    family's reference implementation (which may itself err). *)
Record Problem := {
  describe : N → string;
  exampleInputs : N → list value;
  hiddenInputs : N → list value;
  reference : N → value → option value
}.

(** Modelled from the spec: the fixed tables of sections 4.2 to 4.5
    (message pool, eligible cipher kinds and hinting per difficulty, one
    transformation per cipher kind keyed by a draw, the problem
    catalogue, pattern kinds and drawn targets, time limits, the
    cipher family's string match and score), which challenges.js would
    define. *)
Class Catalogue := {
  messagePool : list string;
  eligibleKinds : Z → list CipherKind;
  hintsAllowed : Z → bool;
  encipher : CipherKind → N → string → string;
  problems : list Problem;
  eligiblePatterns : Z → list PatternKind;
  targetOf : PatternKind → Z → N → string;
  timeLimitOf : Family → Z → Z;
  cipherMatch : string → string → bool;
  cipherScore : Z
}.

(** Modelled from the spec (section 4.2): one transformation at
    difficulty 1 to 3, two or three chained at 4 and 5. *)
Definition chainLength `{SeededStream} (d : Z) : Gen nat :=
  if Z.leb d 3 then gret 1%nat
  else (r ⇐ nextBelow 2 ;; gret (2 + N.to_nat r)%nat).

Fixpoint drawKinds `{SeededStream} `{Catalogue} (d : Z) (k : nat)
    : Gen (list CipherKind) :=
  match k with
  | O => gret []
  | S k' => c ⇐ pick (eligibleKinds d) ;; cs ⇐ drawKinds d k' ;; gret (c :: cs)
  end.

Fixpoint applyChain `{SeededStream} `{Catalogue} (kinds : list CipherKind)
    (text : string) : Gen string :=
  match kinds with
  | [] => gret text
  | c :: cs => r ⇐ gnext ;; applyChain cs (encipher c r text)
  end.

Definition genCipher `{SeededStream} `{Catalogue} (d : Z) : Gen Instance :=
  msg ⇐ pick messagePool ;;
  k ⇐ chainLength d ;;
  kinds ⇐ drawKinds d k ;;
  ct ⇐ applyChain kinds (toUpperCase msg) ;;
  gret (CipherInstance kinds ct (toUpperCase msg)).

(** Modelled from the spec (section 4.3): the expected outputs are
    computed by the reference implementation; when it errs the
    generation fails as a whole. *)
Definition solveAll (p : Problem) (r : N) (inputs : list value)
    : option (list TestCase) :=
  mapM (fun i => o ← reference p r i;
                 Some {| tc_in := i; tc_expected := o |}) inputs.

Definition genCode `{SeededStream} `{Catalogue} (d : Z) : Gen Instance :=
  p ⇐ pick problems ;;
  r ⇐ gnext ;;
  ex ⇐ glift (solveAll p r (exampleInputs p r)) ;;
  tcs ⇐ glift (solveAll p r (hiddenInputs p r)) ;;
  gret (CodeInstance (describe p r) ex tcs).

(** Modelled from the spec (section 4.5 and the table of SKILL.md): two
    zeros up to difficulty 2, then one more per level, five at the top. *)
Definition zerosFor (d : Z) : Z :=
  if Z.leb d 2 then 2 else if Z.leb d 3 then 3 else if Z.leb d 4 then 4 else 5.

Fixpoint zeroString (n : nat) : string :=
  match n with
  | O => EmptyString
  | S n' => String "0"%char (zeroString n')
  end.

Definition genHash `{SeededStream} `{Catalogue} (d : Z) : Gen Instance :=
  kind ⇐ pick (eligiblePatterns d) ;;
  r ⇐ gnext ;;
  gret (HashInstance kind
          (match kind with
           | LeadingZeros => zeroString (Z.to_nat (zerosFor d))
           | _ => targetOf kind d r
           end)
          (zerosFor d)).

Definition genInstance `{SeededStream} `{Catalogue} (f : Family) (d : Z)
    : Gen Instance :=
  match f with
  | Cipher => genCipher d
  | CodePuzzle => genCode d
  | HashPattern => genHash d
  end.

(** Modelled from the spec (section 6): with no type given, the family
    is drawn from the catalogue with the seed's stream. *)
Definition chooseFamily `{SeededStream} (type : option Family) : Gen Family :=
  match type with
  | Some f => gret f
  | None => pick families
  end.

Definition generateFrom `{SeededStream} `{Catalogue} (type : option Family)
    (difficulty : Z) : Gen Challenge :=
  f ⇐ chooseFamily type ;;
  inst ⇐ genInstance f difficulty ;;
  gret {| ch_type := f; ch_difficulty := difficulty;
          ch_timeLimitSeconds := timeLimitOf f difficulty;
          ch_instance := inst |}.

(** Modelled from the spec: [generate (type, difficulty, seed)]; every
    call starts the seed's stream at position 0. *)
Definition generate `{SeededStream} `{Catalogue} (type : option Family)
    (difficulty : Z) (seed : string) : option Challenge :=
  fst <$> generateFrom type difficulty (initState seed).

(** Modelled from the spec: the public projection and the private
    answer key of a Challenge (section 3). *)
Inductive PublicInstance :=
| PublicCipher (kinds : option (list CipherKind)) (ciphertext : string)
| PublicCode (description : string) (examples : list TestCase)
             (inputs : list value)
| PublicHash (kind : PatternKind) (target : string) (zeros : Z).

Record PublicChallenge := {
  pub_type : Family;
  pub_difficulty : Z;
  pub_timeLimitSeconds : Z;
  pub_instance : PublicInstance
}.

Inductive AnswerKey :=
| PlaintextKey (plaintext : string)
| ExpectedKey (testCases : list TestCase)
| PatternKey (kind : PatternKind) (target : string) (zeros : Z).

Definition publicProjection `{Catalogue} (c : Challenge) : PublicChallenge :=
  {| pub_type := ch_type c; pub_difficulty := ch_difficulty c;
     pub_timeLimitSeconds := ch_timeLimitSeconds c;
     pub_instance :=
       match ch_instance c with
       | CipherInstance kinds ct _ =>
           PublicCipher (if hintsAllowed (ch_difficulty c) then Some kinds else None) ct
       | CodeInstance dsc ex tcs => PublicCode dsc ex (map tc_in tcs)
       | HashInstance k t z => PublicHash k t z
       end |}.

Definition answerKey (c : Challenge) : AnswerKey :=
  match ch_instance c with
  | CipherInstance _ _ plain => PlaintextKey plain
  | CodeInstance _ _ tcs => ExpectedKey tcs
  | HashInstance k t z => PatternKey k t z
  end.

(** The payload on the wire, with the property names of SKILL.md. *)
Definition kind_name (k : CipherKind) : string :=
  match k with
  | ShiftSubstitution => "caesar"
  | KeyedSubstitution => "vigenere"
  | AlphabetPermutation => "substitution"
  | ByteXor => "xor"
  | BaseEncoding => "base64"
  | WordToSymbol => "morse"
  end.

Definition pattern_name (k : PatternKind) : string :=
  match k with
  | LeadingZeros => "leading_zeros"
  | PrefixMatch => "prefix"
  | SuffixMatch => "suffix"
  | SubstringMatch => "contains"
  | LexicographicBelow => "less_than"
  | CollisionPair => "collision"
  end.

Definition example_obj (t : TestCase) : value :=
  VObj [("input", tc_in t); ("output", tc_expected t)].

Definition payload (p : PublicChallenge) : value :=
  VObj ([("type", VStr (family_name (pub_type p)));
         ("difficulty", VNum (pub_difficulty p));
         ("timeLimit", VNum (pub_timeLimitSeconds p))] ++
        match pub_instance p with
        | PublicCipher kinds ct =>
            match kinds with
            | Some ks => [("cipher_type", VArr (map (fun k => VStr (kind_name k)) ks))]
            | None => []
            end ++ [("ciphertext", VStr ct)]
        | PublicCode dsc ex ins =>
            [("description", VStr dsc);
             ("examples", VArr (map example_obj ex));
             ("testCases", VArr (map (fun i => VObj [("input", i)]) ins))]
        | PublicHash k t z =>
            [("hunt_type", VStr (pattern_name k)); ("target", VStr t);
             ("zeros", VNum z)]
        end).

(** The whole challenge object, private fields included, as the server
    stores it in [challenge_data]. *)
Definition challenge_obj (c : Challenge) : obj :=
  [("type", VStr (family_name (ch_type c)));
   ("difficulty", VNum (ch_difficulty c));
   ("timeLimit", VNum (ch_timeLimitSeconds c))] ++
  match ch_instance c with
  | CipherInstance kinds ct plain =>
      [("cipher_type", VArr (map (fun k => VStr (kind_name k)) kinds));
       ("ciphertext", VStr ct); ("plaintext", VStr plain)]
  | CodeInstance dsc ex tcs =>
      [("description", VStr dsc);
       ("examples", VArr (map example_obj ex));
       ("testCases",
        VArr (map (fun t => VObj [("input", tc_in t);
                                  ("expected", tc_expected t)]) tcs))]
  | HashInstance k t z =>
      [("hunt_type", VStr (pattern_name k)); ("target", VStr t);
       ("zeros", VNum z)]
  end.

(** ** Validation *)

Record ValidationResult := {
  vr_valid : bool;
  vr_score : Z;
  vr_perCaseDetail : option (list bool)
}.

(** Modelled from the spec: the cipher family validates by a string
    match between the submission and the stored plaintext, without
    partial credit.  Which submissions count as a match is [cipherMatch]
    of the catalogue: section 4.2 describes it as an exact match after
    trimming and upper-casing the submission, section 6 and SKILL.md as
    an exact match that lower-case or padded variants fail, and
    challenges.js, which would decide between the two, is absent. *)
Definition validateCipher `{Catalogue} (plaintext submission : string)
    : ValidationResult :=
  let ok := cipherMatch plaintext submission in
  {| vr_valid := ok; vr_score := if ok then cipherScore else 0;
     vr_perCaseDetail := None |}.

(** The blocked keywords, as SKILL.md lists them. *)
Definition denylist : list string :=
  ["require"; "import"; "process"; "eval"; "__proto__"; "Proxy"; "Reflect";
   "globalThis"; "child_process"; "XMLHttpRequest"; "WebSocket"].

Definition denylisted (submission : string) : bool :=
  existsb (fun token => includes token submission) denylist.

(** The accepted submission shapes, in the order they are tried. *)
Inductive Shape := FunctionBody | BareExpression | ArrowForm | NamedFunction.

Definition shapes : list Shape :=
  [FunctionBody; BareExpression; ArrowForm; NamedFunction].

Inductive RunOutcome :=
| Returned (v : value)
| Threw
| NoValue
| TimedOut
| MemoryExceeded.

(** Modelled from the spec (section 4.4): the isolate.  [parses] tells
    whether a submission reads as a given shape; [execute] runs it on
    one input under the time and memory ceilings. *)
Class Isolate := {
  parses : Shape → string → bool;
  execute : Shape → string → value → RunOutcome
}.

(** One entry of the isolate's log: what was run, on what. *)
Record Execution := {
  ex_shape : Shape;
  ex_code : string;
  ex_input : value
}.

Definition runCase `{Isolate} (sh : Shape) (submission : string) (tc : TestCase)
    : bool * Execution :=
  (match execute sh submission (tc_in tc) with
   | Returned v => value_eqb v (tc_expected tc)
   | _ => false
   end,
   {| ex_shape := sh; ex_code := submission; ex_input := tc_in tc |}).

(** Modelled from the spec (sections 4.3, 4.4): the static filter, then
    the first shape that parses, then one run per hidden test case in
    order; a case that times out or throws fails and the others still
    run. *)
Definition judge `{Isolate} (tests : list TestCase) (submission : string)
    : option (list bool) * list Execution :=
  if denylisted submission then (None, [])
  else
    match List.find (fun sh => parses sh submission) shapes with
    | None => (None, [])
    | Some sh =>
        let runs := map (runCase sh submission) tests in
        (Some (map fst runs), map snd runs)
    end.

(** Modelled from the spec (section 4.4): the length bonus
    max (10, 200 - characterCount (submission)). *)
Definition lengthBonus (submission : string) : Z :=
  Z.max 10 (200 - Z.of_nat (String.length submission)).

(** Modelled from the spec (section 4.4): base score 100 if and only if
    every test case passes, then the length bonus on top; otherwise
    score 0 and [valid = false].  The second component is the isolate's
    log. *)
Definition validateCode `{Isolate} (tests : list TestCase) (submission : string)
    : ValidationResult * list Execution :=
  let '(flags, log) := judge tests submission in
  (match flags with
   | None => {| vr_valid := false; vr_score := 0; vr_perCaseDetail := None |}
   | Some l =>
       if forallb (fun b => b) l
       then {| vr_valid := true; vr_score := 100 + lengthBonus submission;
               vr_perCaseDetail := Some l |}
       else {| vr_valid := false; vr_score := 0; vr_perCaseDetail := Some l |}
   end, log).

(** Modelled from the spec (section 4.5): a fixed digest and, for the
    collision kind, the way a submission names its two strings. *)
Class Digest := {
  digestHex : string → string;
  splitPair : string → option (string * string)
}.

Fixpoint endsWith (p s : string) : bool :=
  String.eqb p s ||
  match s with
  | EmptyString => false
  | String _ s' => endsWith p s'
  end.

(** Modelled from the spec (section 4.5): the digest of the submission
    against the pattern, by kind. *)
Definition matchesPattern `{Digest} (kind : PatternKind) (target : string)
    (zeros : Z) (submission : string) : bool :=
  let h := digestHex submission in
  match kind with
  | LeadingZeros => startsWith target h
  | PrefixMatch => startsWith target h
  | SuffixMatch => endsWith target h
  | SubstringMatch => includes target h
  | LexicographicBelow =>
      match String.compare h target with Lt => true | _ => false end
  | CollisionPair =>
      match splitPair submission with
      | Some (a, b) =>
          negb (String.eqb a b) &&
          String.eqb (substring 0 (Z.to_nat zeros) (digestHex a))
                     (substring 0 (Z.to_nat zeros) (digestHex b))
      | None => false
      end
  end.

(** Modelled from the spec (section 8): a matching digest validates
    with score 100, any other with score 0. *)
Definition validateHash `{Digest} (kind : PatternKind) (target : string)
    (zeros : Z) (submission : string) : ValidationResult :=
  let ok := matchesPattern kind target zeros submission in
  {| vr_valid := ok; vr_score := if ok then 100 else 0;
     vr_perCaseDetail := None |}.

(** Modelled from the spec: [validate (answerKey, submission)], a closed
    match over the families; only the code family reaches the isolate. *)
Definition validate `{Catalogue} `{Isolate} `{Digest} (key : AnswerKey)
    (submission : string) : ValidationResult * list Execution :=
  match key with
  | PlaintextKey plain => (validateCipher plain submission, [])
  | ExpectedKey tests => validateCode tests submission
  | PatternKey k t z => (validateHash k t z submission, [])
  end.

(** ** The engine behind the server's interface *)

Definition parseFamily (t : string) : option Family :=
  List.find (fun f => String.eqb (family_name f) t) families.

(** Modelled from the spec (sections 6 and 7): a challenge request
    [(type, difficulty, seed)].  An unknown type, a difficulty outside
    1..5 or a missing seed is refused before anything is generated; a
    missing difficulty stands for 3, a missing type for any. *)
Definition request `{SeededStream} `{Catalogue} (type : option string)
    (difficulty : option Z) (seed : option string) : option Challenge :=
  s ← seed;
  let d := default 3 difficulty in
  if Z.leb 1 d && Z.leb d 5 then
    match type with
    | None => generate None d s
    | Some t => f ← parseFamily t; generate (Some f) d s
    end
  else None.

Definition decodeTest (v : value) : option TestCase :=
  match v with
  | VObj o =>
      i ← field "input" o; e ← field "expected" o;
      Some {| tc_in := i; tc_expected := e |}
  | _ => None
  end.

Definition parsePattern (n : string) : option PatternKind :=
  List.find (fun k => String.eqb (pattern_name k) n)
    [LeadingZeros; PrefixMatch; SuffixMatch; SubstringMatch;
     LexicographicBelow; CollisionPair].

(** The answer key read back from a stored challenge object. *)
Definition decodeKey (cd : obj) : option AnswerKey :=
  match field "type" cd with
  | Some (VStr t) =>
      f ← parseFamily t;
      match f with
      | Cipher =>
          match field "plaintext" cd with
          | Some (VStr p) => Some (PlaintextKey p)
          | _ => None
          end
      | CodePuzzle =>
          match field "testCases" cd with
          | Some (VArr xs) => ExpectedKey <$> mapM decodeTest xs
          | _ => None
          end
      | HashPattern =>
          match field "hunt_type" cd, field "target" cd, field "zeros" cd with
          | Some (VStr k), Some (VStr t), Some (VNum z) =>
              k' ← parsePattern k; Some (PatternKey k' t z)
          | _, _, _ => None
          end
      end
  | _ => None
  end.

(** The engine as a [ChallengeGenerator]. *)
Definition engineGenerator `{SeededStream} `{Catalogue} `{Isolate} `{Digest}
    : ChallengeGenerator :=
  {| challengeTypes := map family_name families;
     generateChallenge type difficulty seed :=
       challenge_obj <$> request type (Some difficulty) seed;
     validateSolution cd solution :=
       match decodeKey cd with
       | Some key =>
           let r := fst (validate key solution) in
           {| valid := vr_valid r; score := vr_score r |}
       | None => {| valid := false; score := 0 |}
       end |}.

(** ** A small arena to run the definitions on *)

Definition sampleStream : SeededStream :=
  fun seed position => N.of_nat (String.length seed + 7 * position).

(** A Caesar shift on the capital letters. *)
Definition shift_ascii (k : nat) (c : ascii) : ascii :=
  let n := nat_of_ascii c in
  if (65 <=? n)%nat && (n <=? 90)%nat
  then ascii_of_nat (65 + (n - 65 + k) mod 26)
  else c.

Fixpoint caesar (k : nat) (s : string) : string :=
  match s with
  | EmptyString => EmptyString
  | String c s' => String (shift_ascii k c) (caesar k s')
  end.

Definition doubling : Problem :=
  {| describe := fun _ => "Return twice the input n";
     exampleInputs := fun _ => [VNum 3];
     hiddenInputs := fun _ => [VNum 1; VNum 2; VNum 5];
     reference := fun _ v => match v with
                             | VNum n => Some (VNum (2 * n))
                             | _ => None
                             end |}.

(** The sample catalogue matches cipher submissions as section 4.2 has
    it, after trimming and upper-casing. *)
Definition sampleCatalogue : Catalogue :=
  {| messagePool := ["attack at dawn"; "hello world"];
     eligibleKinds := fun _ => [ShiftSubstitution; AlphabetPermutation];
     hintsAllowed := fun d => Z.leb d 2;
     encipher := fun _ r text => caesar (1 + N.to_nat (r mod 25)%N) text;
     problems := [doubling];
     eligiblePatterns := fun _ => [LeadingZeros];
     targetOf := fun _ _ _ => "beef";
     timeLimitOf := fun _ _ => 300;
     cipherMatch := fun plaintext submission =>
       String.eqb (toUpperCase (trim submission)) plaintext;
     cipherScore := 100 |}.


(** An isolate that understands a handful of doubling programs. *)
Definition sampleIsolate : Isolate :=
  {| parses := fun sh code =>
       match sh with
       | FunctionBody => startsWith "return " code
       | BareExpression => negb (includes "=>" code || startsWith "function" code)
       | ArrowForm => includes "=>" code
       | NamedFunction => startsWith "function" code
       end;
     execute := fun _ code input =>
       match input with
       | VNum n =>
           if includes "n*2" code || includes "n+n" code then Returned (VNum (2 * n))
           else if includes "while(1)" code then TimedOut
           else Threw
       | _ => Threw
       end |}.

Definition sampleDigest : Digest :=
  {| digestHex := fun s => s; splitPair := fun _ => None |}.

Definition sampleEngine : ChallengeGenerator :=
  @engineGenerator sampleStream sampleCatalogue sampleIsolate sampleDigest.

(** A chain on which one payment of 0.0001 ETH to the arena is known. *)
Definition sampleTx : chain_tx :=
  {| tx_to := Some ARENA_WALLET; tx_from := "0xb0b";
     tx_value := 100000000000000 |}.

Definition sampleViem : Viem :=
  {| parseEther := fun s =>
       if String.eqb s "0.0001" then Some 100000000000000
       else if String.eqb s "1" then Some 1000000000000000000
       else if String.eqb s "0.00001" then Some 10000000000000
       else None;
     getTransactionReceipt := fun h =>
       if String.eqb h "0xpaid" then Some "success" else None;
     getTransaction := fun h =>
       if String.eqb h "0xpaid" then Some sampleTx else None;
     parseEther_min := eq_refl |}.

Definition sampleElo : EloArithmetic :=
  fun e1 e2 r =>
    match r with
    | Agent1Wins => (e1 + 16, e2 - 16)
    | Agent2Wins => (e1 - 16, e2 + 16)
    | Draw => (e1, e2)
    end.

Definition mkAgent (i n : string) (w : option string) : agent :=
  {| agent_id := i; agent_name := n; agent_endpoint := "http://" +:+ n;
     agent_description := None; agent_api_key := "dk_" +:+ i; elo := 1000;
     wins := 0; losses := 0; draws := 0; erc8004_identity := None;
     wallet := w; agent_created_at := "2026-01-01 00:00:00" |}.

Definition alice : agent := mkAgent "a" "alice" (Some "0xa11ce").
Definition bob : agent := mkAgent "b" "bob" (Some "0xB0B").
Definition practiceBot : agent :=
  mkAgent "practice-bot-001" "PracticeBot"
          (Some "0x0000000000000000000000000000000000000000").

Definition db0 : db :=
  {| agents := <["a" := alice]> (<["b" := bob]>
                 (<["practice-bot-001" := practiceBot]> ∅));
     matches := ∅; submissions := []; payments := [];
     payment_status := ∅ |}.

Definition server0 : server := {| store := db0; matchQueue := [] |}.

(** A custom match created by alice, then joined by bob. *)
Definition body_cipher : create_body :=
  {| cb_challengeType := Some "cipher_break"; cb_entryFee := Some "0.0001";
     cb_difficulty := None; cb_txHash := None |}.

Definition server_open : server :=
  snd (@post_match_create sampleViem server0 alice body_cipher "ab12" "m1" "p1").

Definition server_joined : server :=
  snd (@post_match_join sampleViem sampleEngine server_open bob "m1"
         (Some "0xpaid") "2026-01-01 10:00:00" "p2").


(** A request to create a match of a type the catalogue does not know,
    at a difficulty outside 1..5. *)
Definition body_bogus : create_body :=
  {| cb_challengeType := Some "bogus"; cb_entryFee := Some "0.0001";
     cb_difficulty := Some 99; cb_txHash := None |}.

(** What a reader of the match page can compute from it: the row's type
    and seed are on the page, joins generate at difficulty 3, and the
    engine is a function of (type, difficulty, seed). *)
Definition regenerate_from_page `{ChallengeGenerator} (page : value)
    : option obj :=
  match page with
  | VObj o =>
      match field "challenge_type" o, field "challenge_seed" o with
      | Some (VStr ty), Some sd =>
          generateChallenge (Some ty) 3
            (match sd with VStr seed => Some seed | _ => None end)
      | _, _ => None
      end
  | _ => None
  end.

(** ** Notions the properties are stated with *)

(** The economics of a match as its row records them: the three amounts
    read as integers, with [/] rounding down. *)
Definition economics_ok (row : match_row) : Prop :=
  ∃ fee pot cut payout : Z,
    BigInt_parse (entry_fee_wei row) = Some fee ∧
    BigInt_parse (pot_wei row) = Some pot ∧
    BigInt_parse (arena_cut_wei row) = Some cut ∧
    BigInt_parse (winner_payout_wei row) = Some payout ∧
    pot = 2 * fee ∧ cut = pot / 10 ∧ payout = pot - cut ∧
    cut + payout = pot.

(** The two ways a match gains an opponent: [joinCustomMatch] on an
    open match, and the INSERT of [tryMatchmaking] for a queued pair. *)
Inductive gains_opponent `{Viem} (d : db) (matchId : string) (d' : db) : Prop :=
| by_join (now opponentId : string) (cd : obj) (timeLimit : Z) :
    joinCustomMatch d now matchId opponentId cd timeLimit = Some d' →
    gains_opponent d matchId d'
| by_pairing (now seed : string) (e1 e2 : queueEntry) (challenge : obj) :
    quick_match_insert d matchId now seed e1 e2 challenge = Some d' →
    gains_opponent d matchId d'.

(** Every column of a match row other than [status], [winner_id] and
    [completed_at]. *)
Definition same_other_columns (r r' : match_row) : Prop :=
  id r' = id r ∧ agent1_id r' = agent1_id r ∧ agent2_id r' = agent2_id r ∧
  challenge_type r' = challenge_type r ∧
  challenge_data r' = challenge_data r ∧ started_at r' = started_at r ∧
  time_limit r' = time_limit r ∧ entry_fee_wei r' = entry_fee_wei r ∧
  creator_id r' = creator_id r ∧ opponent_id r' = opponent_id r ∧
  pot_wei r' = pot_wei r ∧ arena_cut_wei r' = arena_cut_wei r ∧
  winner_payout_wei r' = winner_payout_wei r ∧
  challenge_seed r' = challenge_seed r ∧ is_practice r' = is_practice r ∧
  elo_change_agent1 r' = elo_change_agent1 r ∧
  elo_change_agent2 r' = elo_change_agent2 r.

(** The console line that announces a payout. *)
Definition is_payout_line (l : log_line) : bool :=
  match l with
  | PayoutLine _ _ _ _ => true
  | _ => false
  end.

(** A request is well formed when its type is absent or names a family
    of the catalogue and its difficulty is absent or within 1..5. *)
Definition type_known (t : option string) : bool :=
  match t with
  | None => true
  | Some ty => bool_decide (is_Some (parseFamily ty))
  end.

(** [difficulty] absent or within 1..5. *)
Definition difficulty_in_range (d : option Z) : bool :=
  match d with
  | None => true
  | Some n => Z.leb 1 n && Z.leb n 5
  end.

(** A create request the spec calls well formed. *)
Definition well_formed (b : create_body) : bool :=
  type_known (cb_challengeType b) && difficulty_in_range (cb_difficulty b).

(** An answer with an error status. *)
Definition is_rejection (r : response) : bool :=
  match r with
  | Error _ _ => true
  | _ => false
  end.

(** The private property names every projection deletes. *)
Definition private_names : list string := ["answer"; "solution"; "plaintext"; "key"].

(** A submission reaches the isolate under shape [sh]: it is clean of
    blocked keywords and [sh] is the first shape it parses as. *)
Definition acceptedAs `{Isolate} (submission : string) (sh : Shape) : Prop :=
  denylisted submission = false ∧
  List.find (fun sh => parses sh submission) shapes = Some sh.

(** A hidden test case passes: the run returns a value equal to the
    expected output. *)
Definition passes `{Isolate} (sh : Shape) (submission : string) (tc : TestCase)
    : Prop :=
  ∃ v, execute sh submission (tc_in tc) = Returned v ∧
       value_eqb v (tc_expected tc) = true.

(** The hidden test cases of the doubling problem. *)
Definition doubling_tests : list TestCase :=
  [{| tc_in := VNum 1; tc_expected := VNum 2 |};
   {| tc_in := VNum 2; tc_expected := VNum 4 |};
   {| tc_in := VNum 5; tc_expected := VNum 10 |}].



(** Two generator instances agree on a seed when they deliver the same
    stream for it. *)
Definition agree_on (seed : string) (D1 D2 : SeededStream) : Prop :=
  ∀ n, @draw D1 seed n = @draw D2 seed n.

(** Two generation steps behave alike on every state of a seed, and
    stay with that seed. *)
Definition alike_on {A} (seed : string) (g1 g2 : Gen A) : Prop :=
  ∀ st, gs_seed st = seed →
        g1 st = g2 st ∧ ∀ a st', g1 st = Some (a, st') → gs_seed st' = seed.

(** A second generator instance: the same stream for the seed "ab12",
    a different one for every other seed. *)
Definition otherStream : SeededStream :=
  fun seed position =>
    if String.eqb seed "ab12" then sampleStream seed position else 0%N.

(** Every stored entry fee is the text of a non-negative integer. *)
Definition fees_ok (d : db) : Prop :=
  ∀ i row, matches d !! i = Some row →
           ∃ fee, BigInt_parse (entry_fee_wei row) = Some fee ∧ (0 <= fee)%Z.

(** One request served, or one match completed. *)
Inductive step `{Viem} `{ChallengeGenerator} `{EloArithmetic} (s : server)
    : server → Prop :=
| step_create ag b seed uuid payUuid :
    step s (snd (post_match_create s ag b seed uuid payUuid))
| step_join ag matchId txHash now payUuid :
    step s (snd (post_match_join s ag matchId txHash now payUuid))
| step_queue ag b rnd seed uuid now :
    step s (snd (post_match_queue s ag b rnd seed uuid now))
| step_practice ag ty rndType rndDifficulty seed uuid now :
    step s (snd (post_match_practice s ag ty rndType rndDifficulty seed uuid now))
| step_complete now matchId winnerId :
    step s (with_store s (after (completeMatch (store s) now matchId winnerId))).

(** The states the server reaches from a store without matches and an
    empty queue. *)
Inductive reachable `{Viem} `{ChallengeGenerator} `{EloArithmetic}
    : server → Prop :=
| reachable_init s : matches (store s) = ∅ → matchQueue s = [] → reachable s
| reachable_step s s' : reachable s → step s s' → reachable s'.

(** ** The storage layer, continued (database.js)

    The operations behind registration, submissions and the leaderboard. *)

Definition with_submissions (d : db) (l : list submission) : db :=
  {| agents := agents d; matches := matches d; submissions := l;
     payments := payments d; payment_status := payment_status d |}.

(** [registerAgent]: [uuid] and [hex] are the runtime's random UUID and
    the 32 random bytes in hexadecimal.  The INSERT fails on a primary
    key, a name or an API key already in use; the new row takes the
    column defaults. *)
Definition registerAgent (d : db) (uuid hex now name endpoint : string)
    (description erc8004 wallet_ : option string)
    : option (db * (string * string)) :=
  let api_key := "dk_" +:+ hex in
  if bool_decide (is_Some (agents d !! uuid))
     || bool_decide (Exists (fun p => agent_name p.2 = name
                                       ∨ agent_api_key p.2 = api_key)
                            (map_to_list (agents d)))
  then None
  else
    let a := {| agent_id := uuid; agent_name := name;
                agent_endpoint := endpoint; agent_description := description;
                agent_api_key := api_key; elo := 1000; wins := 0; losses := 0;
                draws := 0; erc8004_identity := erc8004; wallet := wallet_;
                agent_created_at := now |} in
    Some (with_agents d (<[uuid := a]> (agents d)), (uuid, api_key)).

(** [submitSolution]: a new row with [correct] FALSE and [score] 0, the
    column defaults; a primary key in use makes the INSERT fail. *)
Definition submitSolution (d : db) (uuid now matchId agentId solution : string)
    : option (db * string) :=
  if bool_decide (Exists (fun s => sub_id s = uuid) (submissions d)) then None
  else
    let row := {| sub_id := uuid; sub_match_id := matchId;
                  sub_agent_id := agentId; sub_solution := solution;
                  sub_correct := false; sub_score := 0;
                  sub_submitted_at := now |} in
    Some (with_submissions d (submissions d ++ [row]), uuid).

(** [UPDATE submissions SET correct = TRUE, score = ? WHERE id = ?]. *)
Definition mark_correct (submissionId : string) (sc : Z) (s : submission)
    : submission :=
  if String.eqb (sub_id s) submissionId
  then {| sub_id := sub_id s; sub_match_id := sub_match_id s;
          sub_agent_id := sub_agent_id s; sub_solution := sub_solution s;
          sub_correct := true; sub_score := sc;
          sub_submitted_at := sub_submitted_at s |}
  else s.

Definition markSubmissionCorrect (d : db) (submissionId : string) (sc : Z) : db :=
  with_submissions d (map (mark_correct submissionId sc) (submissions d)).

(** [isAgentPaid]: the status row exists once a payment was recorded,
    and is only ever written with [paid] TRUE. *)
Definition isAgentPaid (d : db) (agentId : string) : bool :=
  bool_decide (is_Some (payment_status d !! agentId)).

(** ** POST /api/match/:id/submit

    What a handler starts besides its writes and its answer: a payout
    transaction ([sendPayout], not awaited), a broadcast to the live
    feed, a timer. *)
Inductive effect :=
| SendPayout (matchId winnerWallet payoutWei : string)
| BroadcastSSE (event : string) (data : obj)
| SetTimeout (ms : Z) (matchId : string).

(** The verdict as it is sent back: the two fields every verdict has. *)
Definition validation_obj (v : validation) : value :=
  VObj [("valid", VBool (valid v)); ("score", VNum (score v))].

Definition submit_ok (v : validation) (submissionId : string) : value :=
  VObj [("success", VBool true); ("validation", validation_obj v);
        ("submission_id", VStr submissionId)].

(** [match.challenge_data.type]. *)
Definition solution_type (m : match_row) : value :=
  default VUndef (field "type" (challenge_data m)).

Definition solution_submitted (matchId : string) (ag : agent) (v : validation)
    : effect :=
  BroadcastSSE "solution_submitted"
    [("match_id", VStr matchId); ("agent", VStr (agent_name ag));
     ("correct", VBool (valid v)); ("score", VNum (score v))].

(** [match.is_practice] as a condition. *)
Definition practice (m : match_row) : bool := negb (Z.eqb (is_practice m) 0).

(** [completedMatch && completedMatch.winner_payout_wei && req.agent.wallet]:
    the payout the handler starts, if any. *)
Definition payout_of (d : db) (matchId : string) (ag : agent) : list effect :=
  match getMatch d matchId, opt_truthy (wallet ag) with
  | Some completedMatch, Some w =>
      if String.eqb (winner_payout_wei completedMatch) EmptyString then []
      else [SendPayout matchId w (winner_payout_wei completedMatch)]
  | _, _ => []
  end.

(** The handler from the verdict on, the submission already stored in
    [d1].  The first component is [None] when a write throws, after
    which the writes made so far stay. *)
Definition submit_settle `{EloArithmetic} (d1 : db) (ag : agent) (m : match_row)
    (matchId submissionId now : string) (v : validation)
    : option (list effect) * db :=
  if valid v then
    let d2 := markSubmissionCorrect d1 submissionId (score v) in
    if practice m then
      let c := completeMatch d2 now matchId (Some (agent_id ag)) in
      if resolved c then
        (Some [BroadcastSSE "practice_match_completed"
                 [("match_id", VStr matchId); ("agent", VStr (agent_name ag));
                  ("winner", VStr (agent_name ag));
                  ("solution_type", solution_type m);
                  ("is_practice", VBool true); ("result", VStr "agent_won")]],
         after c)
      else (None, after c)
    else if (length (filter (fun sub => sub_correct sub)
                            (getMatchSubmissions d2 matchId)) =? 1)%nat then
      let c := completeMatch d2 now matchId (Some (agent_id ag)) in
      if resolved c then
        (Some (payout_of (after c) matchId ag ++
               [BroadcastSSE "match_completed"
                  [("match_id", VStr matchId); ("winner", VStr (agent_name ag));
                   ("solution_type", solution_type m)]])%list,
         after c)
      else (None, after c)
    else (Some [], d2)
  else if practice m then (Some [SetTimeout 5000 matchId], d1)
  else (Some [], d1).

(** The handler.  [uuid] is the submission's random UUID, [now] the
    clock of the writes. *)
Definition post_match_submit `{ChallengeGenerator} `{EloArithmetic} (s : server)
    (ag : agent) (matchId : string) (solution : option string)
    (uuid now : string) : response * server * list effect :=
  match opt_truthy solution with
  | None => (Error 400 "Solution is required", s, [])
  | Some sol =>
      match getMatch (store s) matchId with
      | None => (Error 404 "Match not found", s, [])
      | Some m =>
          if negb (String.eqb (status m) "active")
          then (Error 400 "Match is not active", s, [])
          else if negb (String.eqb (agent1_id m) (agent_id ag))
                  && negb (String.eqb (agent2_id m) (agent_id ag))
          then (Error 403 "Not authorized for this match", s, [])
          else if existsb (fun sub => String.eqb (sub_agent_id sub) (agent_id ag))
                          (getMatchSubmissions (store s) matchId)
          then (Error 400 "Already submitted solution", s, [])
          else
            let v := validateSolution (challenge_data m) sol in
            match submitSolution (store s) uuid now matchId (agent_id ag) sol with
            | None => (Error 500 "Failed to submit solution", s, [])
            | Some (d1, submissionId) =>
                match submit_settle d1 ag m matchId submissionId now v with
                | (None, d') =>
                    (Error 500 "Failed to submit solution", with_store s d', [])
                | (Some effs, d') =>
                    (Json (submit_ok v submissionId), with_store s d',
                     (effs ++ [solution_submitted matchId ag v])%list)
                end
            end
      end
  end.

(** ** The timeout sweep

    Every ten seconds the server walks the rows of [getActiveMatches]
    and completes those past their time limit. *)

(** [(best, current) => current.score > best.score ? current : best]. *)
Definition better (best current : submission) : submission :=
  if Z.ltb (sub_score best) (sub_score current) then current else best.

(** [correctSubmissions.reduce (...)] without an initial value: the
    first element starts as [best]; the sweep calls it on a list that
    is not empty. *)
Definition bestSubmission (l : list submission) : option submission :=
  match l with
  | [] => None
  | first :: rest => Some (fold_left better rest first)
  end.

(** [match.started_at] is set and [(now - matchStart) / 1000 >
    match.time_limit].  [elapsedMs] is the clock: from the text of
    [started_at] to the milliseconds since then ([None] for a text
    that is no date, whose difference is NaN). *)
Definition timed_out (elapsedMs : string → option Z) (m : match_row) : bool :=
  match opt_truthy (started_at m) with
  | Some st =>
      match elapsedMs st with
      | Some ms => Z.ltb (time_limit m * 1000) ms
      | None => false
      end
  | None => false
  end.

(** The payout the sweep starts for the best submission's agent. *)
Definition timeout_payout (d : db) (m : match_row) (winner : string)
    : list effect :=
  if String.eqb (winner_payout_wei m) EmptyString then []
  else
    match getAgent d winner with
    | Some winnerAgent =>
        match opt_truthy (wallet winnerAgent) with
        | Some w => [SendPayout (id m) w (winner_payout_wei m)]
        | None => []
        end
    | None => []
    end.

(** The body of the loop for one row.  [None]: an exception, which
    ends the whole sweep. *)
Definition sweep_match `{EloArithmetic} (d : db)
    (elapsedMs : string → option Z) (now : string) (m : match_row)
    : option (list effect) * db :=
  if timed_out elapsedMs m then
    let correctSubmissions :=
      filter (fun sub => sub_correct sub) (getMatchSubmissions d (id m)) in
    if practice m then
      match getPracticeBot d with
      | None => (None, d)
      | Some practiceBot =>
          let c := completeMatch d now (id m) (Some (agent_id practiceBot)) in
          if resolved c then
            (Some [BroadcastSSE "practice_match_timeout"
                     [("match_id", VStr (id m)); ("winner", VStr "PracticeBot");
                      ("is_practice", VBool true); ("result", VStr "timeout")]],
             after c)
          else (None, after c)
      end
    else
      match bestSubmission correctSubmissions with
      | None =>
          let c := completeMatch d now (id m) None in
          if resolved c then
            (Some [BroadcastSSE "match_timeout"
                     [("match_id", VStr (id m)); ("result", VStr "draw");
                      ("message",
                       VStr "Match ended in draw - no correct solutions")]],
             after c)
          else (None, after c)
      | Some best =>
          let c := completeMatch d now (id m) (Some (sub_agent_id best)) in
          if resolved c then
            (Some (timeout_payout (after c) m (sub_agent_id best) ++
                   [BroadcastSSE "match_timeout"
                      [("match_id", VStr (id m));
                       ("winner_id", VStr (sub_agent_id best));
                       ("message", VStr "Match completed on timeout")]])%list,
             after c)
          else (None, after c)
      end
  else (Some [], d).

(** The loop over the rows read at the start of the sweep; [now] gives
    the clock of each completion. *)
Fixpoint timeout_sweep `{EloArithmetic} (d : db)
    (elapsedMs : string → option Z) (now : string → string)
    (activeMatches : list match_row) : db * list effect :=
  match activeMatches with
  | [] => (d, [])
  | m :: rest =>
      match sweep_match d elapsedMs (now (id m)) m with
      | (None, d') => (d', [])
      | (Some effs, d') =>
          let '(d'', effs') := timeout_sweep d' elapsedMs now rest in
          (d'', (effs ++ effs')%list)
      end
  end.

(** The timer a wrong practice answer starts: five seconds later
    PracticeBot is declared the winner; an exception is logged. *)
Definition practice_timer `{EloArithmetic} (d : db) (now matchId : string)
    (solutionType : value) : list effect * db :=
  match getPracticeBot d with
  | None => ([], d)
  | Some practiceBot =>
      let c := completeMatch d now matchId (Some (agent_id practiceBot)) in
      if resolved c then
        ([BroadcastSSE "practice_match_completed"
            [("match_id", VStr matchId); ("winner", VStr "PracticeBot");
             ("solution_type", solutionType);
             ("is_practice", VBool true); ("result", VStr "bot_won")]],
         after c)
      else ([], after c)
  end.

(** ** POST /api/match/pay *)

(** [formatEther] of viem, which prints an amount of wei in ETH. *)
Class EtherText := formatEther : Z → string.

(** The [catch] of the handler, on the message of what was thrown. *)
Definition pay_catch (message : string) : response :=
  if includes "Transaction already processed" message then Error 400 message
  else if includes "TransactionNotFound" message
  then Error 400 "Transaction not found on blockchain"
  else Error 500 "Payment verification failed".

Definition pay_ok `{EtherText} (paymentId txHash : string) (t : chain_tx) : value :=
  VObj [("success", VBool true); ("payment_id", VStr paymentId);
        ("amount_paid", VStr (formatEther (tx_value t) +:+ " ETH"));
        ("message", VStr "Payment verified! You can now join matches.");
        ("tx_hash", VStr txHash)].

(** The handler once the recipient is the arena: amount, sender, then
    the record. *)
Definition pay_checked `{Viem} `{EtherText} (s : server) (ag : agent)
    (tx : string) (matchId : option string) (payUuid : string) (t : chain_tx)
    : response * server :=
  match BigInt_parse ENTRY_FEE_WEI with
  | None => (Error 500 "Payment verification failed", s)
  | Some fee =>
      if Z.ltb (tx_value t) fee
      then (Error 400 "Insufficient payment amount", s)
      else
        match opt_truthy (wallet ag) with
        | None => (Error 400 "Agent has no registered wallet", s)
        | Some w =>
            if negb (String.eqb (toLowerCase (tx_from t)) (toLowerCase w))
            then (Error 400
                    "Transaction sender does not match registered wallet", s)
            else
              match recordPayment (store s) payUuid (agent_id ag) tx
                      (BigInt_toString (tx_value t)) (tx_from t) matchId with
              | None => (Error 500 "Payment verification failed", s)
              | Some (d', paymentId) =>
                  (Json (pay_ok paymentId tx t), with_store s d')
              end
        end
  end.

(** The handler.  [chainError] is the message of the error the chain
    client throws for a transaction it does not know; the TypeError of
    a transaction without recipient and a failed INSERT carry messages
    the [catch] answers with 500. *)
Definition post_match_pay `{Viem} `{EtherText} (s : server) (ag : agent)
    (txHash matchId : option string) (payUuid chainError : string)
    : response * server :=
  match opt_truthy txHash with
  | None => (Error 400 "txHash is required", s)
  | Some tx =>
      match getPaymentByTxHash (store s) tx with
      | Some _ => (Error 400 "Transaction already processed", s)
      | None =>
          match getTransactionReceipt tx with
          | None => (pay_catch chainError, s)
          | Some st =>
              if negb (String.eqb st "success")
              then (Error 400 "Transaction not found or failed", s)
              else
                match getTransaction tx with
                | None => (pay_catch chainError, s)
                | Some t =>
                    match tx_to t with
                    | None => (Error 500 "Payment verification failed", s)
                    | Some to =>
                        if negb (String.eqb (toLowerCase to)
                                            (toLowerCase ARENA_WALLET))
                        then (Error 400 "Transaction not sent to arena wallet", s)
                        else pay_checked s ag tx matchId payUuid t
                    end
                end
          end
      end
  end.

(** ** Registration with an ERC-8004 identity (erc8004.js) *)

(** A token id as a request body carries it: a text, or a number
    written as the whole number [n], which [JSON.parse] reads as the
    nearest double. *)
Inductive token :=
| TokNum (n : Z)
| TokStr (s : string).

(** [`${tokenId}`]: a number is printed by [toString]. *)
Definition token_text (t : token) : string :=
  match t with
  | TokNum n => Number_toString (Number_of n)
  | TokStr s => s
  end.

(** [parseInt (tokenId)], which reads the text of what it is given. *)
Definition token_number (t : token) : number := parseInt (token_text t).

(** An entry of [pendingChallenges]; [p_expires] is in milliseconds. *)
Record pending := {
  p_wallet : string;
  p_tokenId : number;
  p_message : string;
  p_expires : Z
}.

Definition newline : string := String (ascii_of_nat 10) EmptyString.

Definition challenge_message (wallet_ : string) (tokenId : token)
    (nonce : string) : string :=
  "DAEMON ARENA REGISTRATION" +:+ newline +:+ newline +:+
  "Wallet: " +:+ wallet_ +:+ newline +:+
  "ERC-8004 Token ID: " +:+ token_text tokenId +:+ newline +:+
  "Nonce: " +:+ nonce.

(** [generateChallenge (wallet, tokenId)]: [nonce] is the 32 random
    bytes in hexadecimal, [now] is [Date.now ()]. *)
Definition generateAuthChallenge (p : gmap string pending) (now : Z)
    (nonce wallet_ : string) (tokenId : token)
    : gmap string pending * (string * string) :=
  let message := challenge_message wallet_ tokenId nonce in
  (<[nonce := {| p_wallet := toLowerCase wallet_;
                 p_tokenId := token_number tokenId;
                 p_message := message;
                 p_expires := now + 5 * 60 * 1000 |}]> p,
   (nonce, message)).

(** The five-minute interval: [if (now > data.expires) delete]. *)
Definition clean_expired (p : gmap string pending) (now : Z)
    : gmap string pending :=
  filter (fun kv => ¬ (p_expires kv.2 < now)) p.

(** viem's [verifyMessage] and the registry's [ownerOf] on Base; [inl]
    carries the message of what the call throws. *)
Class Registry := {
  verifyMessage : string → string → string → string + bool;
  ownerOf : Z → string + string
}.

(** The [try] around the ownership check: [inl] is the message of the
    error that leaves it, [inr] the token id whose owner is the wallet. *)
Definition check_owner `{Registry} (challenge : pending) : string + Z :=
  let thrown :=
    match BigInt_of_number (p_tokenId challenge) with
    | inl e => inl e
    | inr tokenId =>
        match ownerOf tokenId with
        | inl e => inl e
        | inr owner =>
            if negb (String.eqb (toLowerCase owner) (p_wallet challenge))
            then inl ("Wallet " +:+ p_wallet challenge +:+
                      " does not own ERC-8004 token #" +:+
                      Number_toString (p_tokenId challenge) +:+
                      ". Owner is " +:+ owner)
            else inr tokenId
        end
    end in
  match thrown with
  | inl e =>
      if includes "does not own" e then inl e
      else inl ("Failed to verify ERC-8004 ownership onchain: " +:+ e)
  | inr tokenId => inr tokenId
  end.

(** [verifyRegistration (nonce, signature)] at the clock [now]: the
    error message, or the verified wallet and token id. *)
Definition verifyRegistration `{Registry} (p : gmap string pending) (now : Z)
    (nonce signature : string)
    : (string + string * Z) * gmap string pending :=
  match p !! nonce with
  | None => (inl "Invalid or expired challenge nonce", p)
  | Some challenge =>
      if Z.ltb (p_expires challenge) now
      then (inl "Challenge expired", delete nonce p)
      else
        match verifyMessage (p_wallet challenge) (p_message challenge)
                            signature with
        | inl e => (inl e, p)
        | inr false => (inl "Invalid signature", p)
        | inr true =>
            match check_owner challenge with
            | inl e => (inl e, p)
            | inr tokenId =>
                (inr (p_wallet challenge, tokenId), delete nonce p)
            end
        end
  end.

(** ** Authentication and the two registration requests *)

(** The [authenticateAgent] middleware: the answer that ends the
    request, or the agent the handler runs for. *)
Definition authenticateAgent (d : db) (apiKey : option string)
    : response + agent :=
  match opt_truthy apiKey with
  | None => inl (Error 401 "API key required")
  | Some k =>
      match getAgentByApiKey d k with
      | None => inl (Error 401 "Invalid API key")
      | Some a => inr a
      end
  end.

(** POST /api/register/challenge; [token_id] is [None] when the body
    has none. *)
Definition post_register_challenge (p : gmap string pending) (now : Z)
    (nonce : string) (wallet_ : option string) (token_id : option token)
    : response * gmap string pending :=
  match opt_truthy wallet_, token_id with
  | Some w, Some t =>
      let '(p', (n, message)) := generateAuthChallenge p now nonce w t in
      (Json (VObj
         [("success", VBool true); ("nonce", VStr n); ("message", VStr message);
          ("instructions",
           VStr "Sign this message with your wallet private key, then POST to /api/register with the signature")]),
       p')
  | _, _ => (Error 400 "wallet and token_id (ERC-8004) are required", p)
  end.

Record register_body := {
  rb_nonce : option string;
  rb_signature : option string;
  rb_name : option string;
  rb_endpoint : option string;
  rb_description : option string
}.

(** [wallet.slice (0, 6) + '...' + wallet.slice (-4)]. *)
Definition short_wallet (w : string) : string :=
  substring 0 6 w +:+ "..." +:+ substring (String.length w - 4) 4 w.

Definition register_ok (agentId apiKey w : string) (tokenId : Z) : value :=
  VObj [("success", VBool true); ("agent_id", VStr agentId);
        ("api_key", VStr apiKey); ("wallet", VStr w);
        ("token_id", VNum tokenId);
        ("message", VStr "Agent registered with verified ERC-8004 identity")].

(** POST /api/register.  [dbError] is the message of the error a
    refused INSERT raises. *)
Definition post_register `{Registry} (s : server) (p : gmap string pending)
    (b : register_body) (now : Z) (uuid hex created dbError : string)
    : response * server * gmap string pending * list effect :=
  match opt_truthy (rb_nonce b), opt_truthy (rb_signature b),
        opt_truthy (rb_name b), opt_truthy (rb_endpoint b) with
  | Some nonce, Some signature, Some name, Some endpoint =>
      match verifyRegistration p now nonce signature with
      | (inl e, p') => (Error 400 e, s, p', [])
      | (inr (w, tokenId), p') =>
          match registerAgent (store s) uuid hex created name endpoint
                  (rb_description b)
                  (Some (Number_toString (Finite tokenId))) (Some w) with
          | None => (Error 400 dbError, s, p', [])
          | Some (d', (agentId, apiKey)) =>
              (Json (register_ok agentId apiKey w tokenId), with_store s d', p',
               [BroadcastSSE "agent_registered"
                  [("name", VStr name); ("token_id", VNum tokenId);
                   ("wallet", VStr (short_wallet w))]])
          end
      end
  | _, _, _, _ =>
      (Error 400 "nonce, signature, name, and endpoint are required", s, p, [])
  end.

(** ** The server as a whole

    Requests, timers and the sweep overlap.  A handler runs without
    interruption up to its next [await], and what it awaits is one
    statement on the store (or a call that leaves the store alone).  So
    the store changes one statement at a time, in whatever order the
    statements of the handlers in flight come to run, and the queue
    changes within one uninterrupted stretch of the queue handler. *)

(** The row the UPDATE of [joinCustomMatch] leaves; the three amounts
    come from a SELECT that ran before. *)
Definition set_joined (r : match_row) (opponentId : string)
    (challengeData : obj) (timeLimit : Z) (now pot cut payout : string)
    : match_row :=
  {| id := id r; agent1_id := agent1_id r; agent2_id := opponentId;
     challenge_type := challenge_type r;
     challenge_data := wire_obj challengeData;
     status := "active"; winner_id := winner_id r;
     started_at := Some now; completed_at := completed_at r;
     time_limit := timeLimit; entry_fee_wei := entry_fee_wei r;
     creator_id := creator_id r; opponent_id := Some opponentId;
     pot_wei := pot; arena_cut_wei := cut; winner_payout_wei := payout;
     challenge_seed := challenge_seed r; is_practice := is_practice r;
     elo_change_agent1 := elo_change_agent1 r;
     elo_change_agent2 := elo_change_agent2 r |}.

(** The row the UPDATE of [startMatch] leaves. *)
Definition set_started (r : match_row) (now : string) : match_row :=
  {| id := id r; agent1_id := agent1_id r; agent2_id := agent2_id r;
     challenge_type := challenge_type r; challenge_data := challenge_data r;
     status := "active"; winner_id := winner_id r; started_at := Some now;
     completed_at := completed_at r; time_limit := time_limit r;
     entry_fee_wei := entry_fee_wei r; creator_id := creator_id r;
     opponent_id := opponent_id r; pot_wei := pot_wei r;
     arena_cut_wei := arena_cut_wei r; winner_payout_wei := winner_payout_wei r;
     challenge_seed := challenge_seed r; is_practice := is_practice r;
     elo_change_agent1 := elo_change_agent1 r;
     elo_change_agent2 := elo_change_agent2 r |}.

(** The statements of the storage layer that write to these tables,
    each with any arguments:
    - INSERT INTO agents ([registerAgent], [seedPracticeBot]): a row
      under an id, a name and an API key not in use;
    - UPDATE agents SET elo, a counter ([updateELO]);
    - INSERT INTO matches ([createMatch], [createCustomMatch],
      [createPracticeMatch], [tryMatchmaking]): a row under an id not in
      use;
    - the UPDATEs of [joinCustomMatch], [startMatch], [completeMatch]
      and [updateELO] on the match with the id given;
    - INSERT INTO submissions and the UPDATE of [markSubmissionCorrect];
    - INSERT INTO payments, under an id and a transaction hash not in
      use, and INSERT OR REPLACE INTO agent_payment_status. *)
Inductive writes (d : db) : db → Prop :=
| write_agent a :
    agents d !! agent_id a = None →
    (∀ j x, agents d !! j = Some x →
            agent_name x ≠ agent_name a ∧ agent_api_key x ≠ agent_api_key a) →
    writes d (with_agents d (<[agent_id a := a]> (agents d)))
| write_rating i newElo c :
    writes d (update_agent d i newElo c)
| write_match row :
    matches d !! id row = None →
    writes d (with_matches d (<[id row := row]> (matches d)))
| write_joined matchId opponentId challengeData timeLimit now pot cut payout :
    writes d (with_matches d
                (alter (fun r => set_joined r opponentId challengeData timeLimit
                                            now pot cut payout)
                       matchId (matches d)))
| write_started matchId now :
    writes d (with_matches d
                (alter (fun r => set_started r now) matchId (matches d)))
| write_completed matchId winnerId now :
    writes d (with_matches d
                (alter (fun r => set_completed r winnerId now) matchId (matches d)))
| write_elo_changes matchId c1 c2 :
    writes d (with_matches d
                (alter (fun r => set_elo_changes r c1 c2) matchId (matches d)))
| write_submission uuid now matchId agentId solution d' i :
    submitSolution d uuid now matchId agentId solution = Some (d', i) →
    writes d d'
| write_correct submissionId sc :
    writes d (markSubmissionCorrect d submissionId sc)
| write_payment p :
    ¬ Exists (fun q => pay_id q = pay_id p ∨ pay_tx_hash q = pay_tx_hash p)
             (payments d) →
    writes d {| agents := agents d; matches := matches d;
                submissions := submissions d; payments := payments d ++ [p];
                payment_status := payment_status d |}
| write_paid agentId paymentId :
    writes d {| agents := agents d; matches := matches d;
                submissions := submissions d; payments := payments d;
                payment_status := <[agentId := paymentId]> (payment_status d) |}.

(** The two [shift ()] of [tryMatchmaking], which run when the queue
    holds two entries or more. *)
Definition shift_pair (q : list queueEntry) : list queueEntry :=
  match q with
  | _ :: _ :: rest => rest
  | _ => q
  end.

(** One change of the server: a statement on the store, or the stretch
    of the queue handler from the check for an entry of the same agent
    to the first [await] of [tryMatchmaking] (the entry is pushed, and
    a pair is shifted off the front). *)
Inductive serves (s : server) : server → Prop :=
| serves_statement d' : writes (store s) d' → serves s (with_store s d')
| serves_queue ag b rnd now :
    already_queued (matchQueue s) ag = false →
    serves s {| store := store s;
                matchQueue := shift_pair (matchQueue s ++ [new_entry ag b rnd now]) |}.

(** The states the server reaches from a store that holds agents only
    and an empty queue. *)
Inductive served : server → Prop :=
| served_init s :
    matches (store s) = ∅ → submissions (store s) = [] →
    payments (store s) = [] → matchQueue s = [] → served s
| served_next s s' : served s → serves s s' → served s'.

(** The attempts on record: which agent answered which match. *)
Definition attempts (d : db) : list (string * string) :=
  map (fun sub => (sub_match_id sub, sub_agent_id sub)) (submissions d).

(** The correct submissions of a match, as the handlers count them. *)
Definition correctSubmissions (d : db) (matchId : string) : list submission :=
  filter (fun sub => sub_correct sub) (getMatchSubmissions d matchId).

(** The transaction hashes on record. *)
Definition tx_hashes (d : db) : list string := map pay_tx_hash (payments d).


(** ** The small arena, continued *)

(** bob answers the joined match: correctly, or not. *)
Definition server_won : server :=
  snd (fst (@post_match_submit sampleEngine sampleElo server_joined bob "m1"
              (Some "ATTACK AT DAWN") "s1" "2026-01-01 10:01:00")).

Definition server_missed : server :=
  snd (fst (@post_match_submit sampleEngine sampleElo server_joined bob "m1"
              (Some "HELLO") "s1" "2026-01-01 10:01:00")).

(** Amounts printed in wei with the exponent of ETH, a registry with
    one token, and signatures that name their signer. *)
Definition sampleEther : EtherText :=
  fun wei => BigInt_toString wei +:+ "e-18".

Definition sampleRegistry : Registry :=
  {| verifyMessage := fun address message signature =>
       if String.eqb signature EmptyString then inl "invalid signature length"
       else inr (String.eqb signature ("signed by " +:+ address));
     ownerOf := fun tokenId =>
       if Z.eqb tokenId 7 then inr "0xC0FFEE"
       else inl "ERC721NonexistentToken" |}.

(** Three correct answers to one match, in the order they came in. *)
Definition answer (i agentId : string) (sc : Z) : submission :=
  {| sub_id := i; sub_match_id := "m1"; sub_agent_id := agentId;
     sub_solution := "ATTACK AT DAWN"; sub_correct := true; sub_score := sc;
     sub_submitted_at := "2026-01-01 10:01:00" |}.

Definition three_answers : list submission :=
  [answer "s1" "a" 100; answer "s2" "b" 120; answer "s3" "c" 120].

(** bob pays the entry fee ahead of queueing. *)
Definition server_paid : server :=
  snd (@post_match_pay sampleViem sampleEther server0 bob (Some "0xpaid") None
         "p9" "TransactionNotFoundError").

(** alice waits in the queue, both agents have paid the entry fee, and
    bob asks to be queued. *)
Definition paid_by (i agentId h : string) : payment :=
  {| pay_id := i; pay_agent_id := agentId; pay_tx_hash := h;
     pay_amount_wei := "100000000000000"; pay_from_wallet := "0x" +:+ agentId;
     pay_match_id := None |}.

Definition server_waiting : server :=
  {| store := {| agents := agents db0; matches := ∅; submissions := [];
                 payments := [paid_by "p1" "a" "0xaaa"; paid_by "p2" "b" "0xbbb"];
                 payment_status := ∅ |};
     matchQueue :=
       [new_entry alice {| qb_challenge_type := None; qb_difficulty := Some 2 |}
                  0 "2026-01-01 08:00:00"] |}.

Definition server_paired : server :=
  snd (@post_match_queue sampleViem sampleEngine server_waiting bob
         {| qb_challenge_type := Some "cipher_break"; qb_difficulty := None |}
         2 "5eed" "q1" "2026-01-01 08:00:05").




(** alice practises, and answers wrongly. *)
Definition server_practice : server :=
  snd (@post_match_practice sampleEngine server0 alice (Some "cipher_break") 0 0
         "5eed" "pm1" "2026-01-01 09:00:00").

Definition server_practice_missed : server :=
  snd (fst (@post_match_submit sampleEngine sampleElo server_practice alice "pm1"
              (Some "WRONG") "s1" "2026-01-01 09:00:30")).

(** carol asks for a challenge for token 7 and registers with it;
    someone else tries the same under alice's name. *)
Definition pending_carol : gmap string pending :=
  fst (generateAuthChallenge ∅ 1000 "n0" "0xC0FFEE" (TokStr "7")).

Definition body_carol (name : string) : register_body :=
  {| rb_nonce := Some "n0"; rb_signature := Some "signed by 0xc0ffee";
     rb_name := Some name; rb_endpoint := Some "http://carol";
     rb_description := None |}.

Definition server_carol : server :=
  snd (fst (fst (@post_register sampleRegistry server0 pending_carol
                   (body_carol "carol") 2000 "c" "c0de" "2026-01-01 07:00:00"
                   "UNIQUE constraint failed"))).

(** ** The live feed *)

(** An event as [broadcastSSE] keeps it and as the feed pages get it. *)
Record feed_event := {
  fe_event : string;
  fe_data : obj;
  fe_timestamp : string
}.

Definition MAX_RECENT_EVENTS : nat := 20.

(** [while (recentEvents.length > MAX_RECENT_EVENTS) recentEvents.pop ()];
    every turn shortens the list, so [fuel] turns with [fuel] the
    length of the list let the loop run to its end. *)
Fixpoint pop_while (fuel : nat) (recentEvents : list feed_event)
    : list feed_event :=
  match fuel with
  | O => recentEvents
  | S fuel' =>
      if (MAX_RECENT_EVENTS <? length recentEvents)%nat
      then pop_while fuel' (removelast recentEvents)
      else recentEvents
  end.

(** The in-memory part of [broadcastSSE]: [unshift], then the loop. *)
Definition broadcastSSE_recent (recentEvents : list feed_event)
    (e : feed_event) : list feed_event :=
  pop_while (S (length recentEvents)) (e :: recentEvents).

(** The [feed_events] table: its rows, and the largest id ever given
    (the table's entry in [sqlite_sequence], kept by AUTOINCREMENT). *)
Record feed_row := {
  fr_id : Z;
  fr_event : string;
  fr_data : obj;
  fr_created_at : string
}.

Record feed_table := {
  feed_rows : list feed_row;
  feed_seq : Z
}.

(** [ORDER BY id DESC]. *)
Definition newer (r1 r2 : feed_row) : Prop := fr_id r2 <= fr_id r1.

#[export] Instance newer_dec : RelDecision newer.
Proof. intros r1 r2. unfold newer. apply _. Defined.

Definition newest_first (rows : list feed_row) : list feed_row :=
  merge_sort newer rows.

(** [LIMIT n]: a negative limit is no limit. *)
Definition sql_limit {A} (n : Z) (l : list A) : list A :=
  if Z.ltb n 0 then l else take (Z.to_nat n) l.

(** [saveFeedEvent]: the INSERT gives the row the next id, then every
    row whose id is not among the 100 largest is deleted.  The data is
    stored as [JSON.stringify] prints it. *)
Definition saveFeedEvent (f : feed_table) (event : string) (data : obj)
    (now : string) : feed_table :=
  let i := Z.max (feed_seq f) (foldr Z.max 0 (map fr_id (feed_rows f))) + 1 in
  let rows := (feed_rows f ++
               [{| fr_id := i; fr_event := event; fr_data := wire_obj data;
                   fr_created_at := now |}])%list in
  let kept := map fr_id (sql_limit 100 (newest_first rows)) in
  {| feed_rows := filter (fun r => fr_id r ∈ kept) rows; feed_seq := i |}.

(** [getRecentFeedEvents (limit)]. *)
Definition getRecentFeedEvents (f : feed_table) (limit : Z) : list feed_event :=
  map (fun r => {| fe_event := fr_event r; fe_data := fr_data r;
                   fe_timestamp := fr_created_at r |})
      (sql_limit limit (newest_first (feed_rows f))).

(** The table keeps its ids distinct and no larger than the sequence. *)
Definition feed_ok (f : feed_table) : Prop :=
  NoDup (map fr_id (feed_rows f)) ∧
  ∀ r, r ∈ feed_rows f → fr_id r <= feed_seq f.

(** ** GET /api/leaderboard *)

(** [Math.min (parseInt (req.query.limit) || dflt, cap)]; the query
    parameter is a text, or absent, which [parseInt] reads as NaN. *)
Definition limit_of (q : option string) (dflt cap : Z) : number :=
  Math_min (number_or (from_option parseInt NaN q) dflt) cap.

(** [getLeaderboard (limit)]: [ORDER BY elo DESC LIMIT ?], for a limit
    the statement takes as an integer; the order among agents of equal
    rating is the one the sort leaves. *)
Definition rated_above (a1 a2 : agent) : Prop := elo a2 <= elo a1.

#[export] Instance rated_above_dec : RelDecision rated_above.
Proof. intros a1 a2. unfold rated_above. apply _. Defined.

Definition getLeaderboard (d : db) (limit : Z) : list agent :=
  sql_limit limit (merge_sort rated_above (map snd (map_to_list (agents d)))).

(** A row of the leaderboard: the columns selected, and the
    [erc8004_token_id] the handler adds. *)
Definition leaderboard_row (a : agent) : value :=
  VObj [("id", VStr (agent_id a)); ("name", VStr (agent_name a));
        ("elo", VNum (elo a)); ("wins", VNum (wins a));
        ("losses", VNum (losses a)); ("draws", VNum (draws a));
        ("erc8004_identity", opt_str (erc8004_identity a));
        ("wallet", opt_str (wallet a));
        ("total_matches", VNum (wins a + losses a + draws a));
        ("erc8004_token_id", js_or (opt_str (erc8004_identity a)) VNull)].

(** The handler.  The limit is bound to the statement as a number: a
    whole one within 64 bits is the integer [LIMIT] takes; any other
    is a datatype mismatch, which the [catch] answers. *)
Definition get_leaderboard (d : db) (limit : option string) : response :=
  match limit_of limit 50 100 with
  | Finite n =>
      if Z.ltb INT64_MIN n
      then Json (wire (VArr (map leaderboard_row (getLeaderboard d n))))
      else Error 500 "Failed to get leaderboard"
  | _ => Error 500 "Failed to get leaderboard"
  end.

(** A feed table with two events on it. *)
Definition sample_feed : feed_table :=
  {| feed_rows :=
       [{| fr_id := 7; fr_event := "match_created"; fr_data := [];
           fr_created_at := "2026-01-01 09:59:00" |};
        {| fr_id := 8; fr_event := "match_joined"; fr_data := [];
           fr_created_at := "2026-01-01 10:00:00" |}];
     feed_seq := 8 |}.

(** A decimal digit, as [parseInt] reads it in radix 10. *)
Definition is_digit (c : ascii) : bool :=
  match digit_of 10 c with
  | Some _ => true
  | None => false
  end.

(** A submission's solution is the requesting agent's own. *)
Definition own_solution (requestingAgent : option agent) (sub : submission)
    : bool :=
  match requestingAgent with
  | Some a => String.eqb (sub_agent_id sub) (agent_id a)
  | None => false
  end.

(** ** Handlers, one statement at a time

    Between two [await]s a handler runs alone; at an [await] the
    statements of other handlers may run.  A [task] is a handler cut at
    its [await]s: each step is one statement on the store, or a call
    that leaves the store alone, and hands its result to the rest. *)
Inductive task (A : Type) : Type :=
| Return (a : A)
| Throw
| Await {B : Type} (statement : db → B * db) (next : B → task A).

Arguments Return {A} a.
Arguments Throw {A}.
Arguments Await {A B} statement next.

Fixpoint task_bind {A B} (k : A → task B) (t : task A) : task B :=
  match t with
  | Return a => k a
  | Throw => Throw
  | Await statement next => Await statement (fun b => task_bind k (next b))
  end.

#[global] Instance task_mbind : MBind task := @task_bind.

(** [await] of a query, of an UPDATE, and of an INSERT that may fail. *)
Definition select {B} (q : db → B) : task B :=
  Await (fun d => (q d, d)) Return.

Definition update (w : db → db) : task unit :=
  Await (fun d => (tt, w d)) Return.

Definition inserted {B} (w : db → option (db * B)) : task B :=
  Await (fun d => match w d with
                  | Some (d', b) => (Some b, d')
                  | None => (None, d)
                  end)
        (fun r => match r with Some b => Return b | None => Throw end).

(** A task that runs to its end with nothing in between; [None] when
    it throws. *)
Fixpoint run {A} (t : task A) (d : db) : option A * db :=
  match t with
  | Return a => (Some a, d)
  | Throw => (None, d)
  | Await statement next => let '(b, d') := statement d in run (next b) d'
  end.


(** The next statement of a task. *)
Definition step_task {A} (t : task A) (d : db) : task A * db :=
  match t with
  | Await statement next => let '(b, d') := statement d in (next b, d')
  | _ => (t, d)
  end.

(** Two tasks in flight: [turns] tells whose statement runs next
    ([true]: the first task's); when it is used up the first task runs
    to its end, then the second. *)
Fixpoint overlap {A B} (turns : list bool) (t1 : task A) (t2 : task B) (d : db)
    : option A * option B * db :=
  match turns with
  | [] =>
      let '(a, d1) := run t1 d in
      let '(b, d2) := run t2 d1 in (a, b, d2)
  | true :: rest =>
      let '(t1', d') := step_task t1 d in overlap rest t1' t2 d'
  | false :: rest =>
      let '(t2', d') := step_task t2 d in overlap rest t1 t2' d'
  end.

(** [updateELO], statement by statement. *)
Definition updateELO_task `{EloArithmetic} (matchId : string)
    (winnerId : option string) : task (list log_line) :=
  m ← select (fun d => getMatch d matchId);
  match m with
  | None => Return []
  | Some m =>
      if negb (Z.eqb (is_practice m) 0) then Return [SkippingELO matchId]
      else
        agent1 ← select (fun d => getAgent d (agent1_id m));
        agent2 ← select (fun d => getAgent d (agent2_id m));
        match agent1, agent2 with
        | Some agent1, Some agent2 =>
            let res :=
              match winnerId with
              | None => Draw
              | Some w =>
                  if String.eqb w EmptyString then Draw
                  else if String.eqb w (agent1_id m) then Agent1Wins
                  else Agent2Wins
              end in
            let '(newElo1, newElo2) := newRatings (elo agent1) (elo agent2) res in
            let '(c1, c2) :=
              match res with
              | Draw => (Draws, Draws)
              | Agent1Wins => (Wins, Losses)
              | Agent2Wins => (Losses, Wins)
              end in
            _ ← update (fun d =>
                  with_matches d
                    (alter (fun r => set_elo_changes r (newElo1 - elo agent1)
                                                     (newElo2 - elo agent2))
                           matchId (matches d)));
            _ ← update (fun d => update_agent d (agent1_id m) newElo1 c1);
            _ ← update (fun d => update_agent d (agent2_id m) newElo2 c2);
            Return []
        | _, _ => Throw
        end
  end.

(** [completeMatch], statement by statement. *)
Definition completeMatch_task `{EloArithmetic} (now matchId : string)
    (winnerId : option string) : task (list log_line) :=
  _ ← update (fun d =>
        with_matches d
          (alter (fun r => set_completed r winnerId now) matchId (matches d)));
  l ← updateELO_task matchId winnerId;
  l' ← select (fun d => handleMatchPayout d matchId winnerId);
  Return (l ++ l')%list.

(** The submit handler from the verdict on. *)
Definition settle_task `{EloArithmetic} (ag : agent) (m : match_row)
    (matchId submissionId now : string) (v : validation) : task (list effect) :=
  if valid v then
    _ ← update (fun d => markSubmissionCorrect d submissionId (score v));
    if practice m then
      _ ← completeMatch_task now matchId (Some (agent_id ag));
      Return [BroadcastSSE "practice_match_completed"
                [("match_id", VStr matchId); ("agent", VStr (agent_name ag));
                 ("winner", VStr (agent_name ag));
                 ("solution_type", solution_type m);
                 ("is_practice", VBool true); ("result", VStr "agent_won")]]
    else
      allSubmissions ← select (fun d => getMatchSubmissions d matchId);
      if (length (filter (fun sub => sub_correct sub) allSubmissions) =? 1)%nat
      then
        _ ← completeMatch_task now matchId (Some (agent_id ag));
        payout ← select (fun d => payout_of d matchId ag);
        Return (payout ++
                [BroadcastSSE "match_completed"
                   [("match_id", VStr matchId); ("winner", VStr (agent_name ag));
                    ("solution_type", solution_type m)]])%list
      else Return []
  else if practice m then Return [SetTimeout 5000 matchId]
  else Return [].

(** The submit handler inside its [try], statement by statement. *)
Definition submit_task `{ChallengeGenerator} `{EloArithmetic} (ag : agent)
    (matchId : string) (solution : option string) (uuid now : string)
    : task (response * list effect) :=
  match opt_truthy solution with
  | None => Return (Error 400 "Solution is required", [])
  | Some sol =>
      m ← select (fun d => getMatch d matchId);
      match m with
      | None => Return (Error 404 "Match not found", [])
      | Some m =>
          if negb (String.eqb (status m) "active")
          then Return (Error 400 "Match is not active", [])
          else if negb (String.eqb (agent1_id m) (agent_id ag))
                  && negb (String.eqb (agent2_id m) (agent_id ag))
          then Return (Error 403 "Not authorized for this match", [])
          else
            existingSubmissions ← select (fun d => getMatchSubmissions d matchId);
            if existsb (fun sub => String.eqb (sub_agent_id sub) (agent_id ag))
                       existingSubmissions
            then Return (Error 400 "Already submitted solution", [])
            else
              v ← select (fun _ => validateSolution (challenge_data m) sol);
              submissionId ← inserted (fun d =>
                submitSolution d uuid now matchId (agent_id ag) sol);
              effs ← settle_task ag m matchId submissionId now v;
              Return (Json (submit_ok v submissionId),
                      (effs ++ [solution_submitted matchId ag v])%list)
      end
  end.

(** What the [catch] of the submit handler answers. *)
Definition submit_caught (r : option (response * list effect))
    : response * list effect :=
  default (Error 500 "Failed to submit solution", []) r.


(** A task whose every statement is among [writes] or leaves the store
    as it is. *)
Fixpoint made_of_writes {A} (t : task A) : Prop :=
  match t with
  | Await statement next =>
      (∀ d, (statement d).2 = d ∨ writes d (statement d).2) ∧
      ∀ b, made_of_writes (next b)
  | _ => True
  end.

(** * Properties *)
(** ** BigInt texts *)

Lemma BigInt_parse_toString (z : Z) : BigInt_parse (BigInt_toString z) = Some z.
Proof.
  unfold BigInt_parse, BigInt_toString.
  rewrite NilZero.isi.
  - simpl. by rewrite DecimalZ.of_to.
  - destruct z; simpl; try discriminate.
    intros [= E]. by apply DecimalPos.Unsigned.to_uint_nonnil in E.
  - destruct z; simpl; try discriminate.
    intros [= E]. by apply DecimalPos.Unsigned.to_uint_nonnil in E.
Qed.

Lemma ENTRY_FEE_WEI_value `{Viem} : ENTRY_FEE_WEI = BigInt_toString 100000000000000.
Proof. unfold ENTRY_FEE_WEI, ENTRY_FEE_ETH. by rewrite parseEther_min. Qed.

Lemma amounts_of_fee (fee : Z) :
  arenaCutWei (potWei fee) = Some (BigInt_toString (BigInt_div (fee * 2) 10)) ∧
  winnerPayoutWei (potWei fee) (BigInt_toString (BigInt_div (fee * 2) 10)) =
    Some (BigInt_toString (fee * 2 - BigInt_div (fee * 2) 10)).
Proof.
  unfold arenaCutWei, winnerPayoutWei, potWei.
  rewrite !BigInt_parse_toString. simpl. by rewrite ?BigInt_parse_toString.
Qed.

Lemma economics_of_amounts (row : match_row) (fee : Z) :
  (0 <= fee)%Z →
  BigInt_parse (entry_fee_wei row) = Some fee →
  pot_wei row = potWei fee →
  arena_cut_wei row = BigInt_toString (BigInt_div (fee * 2) 10) →
  winner_payout_wei row = BigInt_toString (fee * 2 - BigInt_div (fee * 2) 10) →
  economics_ok row.
Proof.
  intros Hfee Hparse Hpot Hcut Hpay.
  exists fee, (2 * fee), ((2 * fee) / 10), (2 * fee - (2 * fee) / 10).
  rewrite Hparse, Hpot, Hcut, Hpay. unfold potWei, BigInt_div.
  rewrite !BigInt_parse_toString.
  rewrite Z.quot_div_nonneg by lia.
  replace (fee * 2) with (2 * fee) by lia.
  repeat split; lia.
Qed.

(** ** Economics of a match that gains an opponent *)

Lemma joinCustomMatch_row (d d' : db) (now matchId opponentId : string)
    (cd : obj) (timeLimit : Z) :
  joinCustomMatch d now matchId opponentId cd timeLimit = Some d' →
  ∃ row fee row',
    matches d !! matchId = Some row ∧
    BigInt_parse (entry_fee_wei row) = Some fee ∧
    matches d' !! matchId = Some row' ∧
    agents d' = agents d ∧
    entry_fee_wei row' = entry_fee_wei row ∧
    challenge_type row' = challenge_type row ∧
    challenge_seed row' = challenge_seed row ∧
    challenge_data row' = wire_obj cd ∧
    opponent_id row' = Some opponentId ∧
    status row' = "active" ∧
    pot_wei row' = potWei fee ∧
    arena_cut_wei row' = BigInt_toString (BigInt_div (fee * 2) 10) ∧
    winner_payout_wei row' =
      BigInt_toString (fee * 2 - BigInt_div (fee * 2) 10) ∧
    agent2_id row' = opponentId.
Proof.
  unfold joinCustomMatch. intros Hjoin.
  destruct (matches d !! matchId) as [row|] eqn:Hrow; [|done].
  simpl in Hjoin.
  destruct (BigInt_parse (entry_fee_wei row)) as [fee|] eqn:Hfee; [|done].
  simpl in Hjoin.
  destruct (amounts_of_fee fee) as [Hcut Hpay].
  rewrite Hcut in Hjoin. simpl in Hjoin. rewrite Hpay in Hjoin. simpl in Hjoin.
  injection Hjoin as <-.
  eexists row, fee, _. simpl. rewrite lookup_insert_eq.
  repeat split; first [reflexivity | assumption].
Qed.

(** A join succeeds whenever the row is there and its fee is a number. *)
Lemma joinCustomMatch_succeeds (d : db) (now matchId opponentId : string)
    (cd : obj) (timeLimit : Z) (row : match_row) (fee : Z) :
  matches d !! matchId = Some row →
  BigInt_parse (entry_fee_wei row) = Some fee →
  is_Some (joinCustomMatch d now matchId opponentId cd timeLimit).
Proof.
  intros Hrow Hfee. unfold joinCustomMatch. rewrite Hrow.
  cbn [mbind option_bind]. rewrite Hfee. cbn [mbind option_bind].
  destruct (amounts_of_fee fee) as [Hcut Hpay].
  rewrite Hcut. cbn [mbind option_bind]. rewrite Hpay.
  cbn [mbind option_bind]. by eexists.
Qed.

Lemma quick_match_insert_row `{Viem} (d d' : db) (uuid now seed : string)
    (e1 e2 : queueEntry) (challenge : obj) :
  quick_match_insert d uuid now seed e1 e2 challenge = Some d' →
  ∃ row',
    matches d !! uuid = None ∧
    matches d' = <[uuid := row']> (matches d) ∧
    agents d' = agents d ∧
    agent1_id row' = agent_id (q_agent e1) ∧
    agent2_id row' = agent_id (q_agent e2) ∧
    challenge_data row' = wire_obj challenge ∧
    challenge_seed row' = Some seed ∧
    entry_fee_wei row' = BigInt_toString 100000000000000 ∧
    pot_wei row' = potWei 100000000000000 ∧
    arena_cut_wei row' =
      BigInt_toString (BigInt_div (100000000000000 * 2) 10) ∧
    winner_payout_wei row' =
      BigInt_toString (100000000000000 * 2 -
                       BigInt_div (100000000000000 * 2) 10).
Proof.
  unfold quick_match_insert. rewrite ENTRY_FEE_WEI_value.
  rewrite BigInt_parse_toString. cbn [mbind option_bind].
  destruct (amounts_of_fee 100000000000000) as [Hcut Hpay].
  rewrite Hcut. cbn [mbind option_bind]. rewrite Hpay. cbn [mbind option_bind].
  intros Hins.
  destruct (bind_text (field "type" challenge)) as [ty|]; [|done].
  cbn [mbind option_bind] in Hins.
  destruct (bind_int (field "timeLimit" challenge)) as [tl|]; [|done].
  cbn [mbind option_bind] in Hins.
  destruct (matches d !! uuid) eqn:Hfresh; [done|].
  injection Hins as <-.
  eexists. repeat split; reflexivity.
Qed.

Lemma recordPayment_matches (d d' : db) (uuid agentId txHash amountWei fromWallet r : string)
    (matchId : option string) :
  recordPayment d uuid agentId txHash amountWei fromWallet matchId = Some (d', r) →
  matches d' = matches d ∧ agents d' = agents d.
Proof.
  unfold recordPayment. destruct (bool_decide _); [done|].
  by intros [= <- _].
Qed.

(** *** Stored fees are never negative *)

Lemma fees_ok_insert (d : db) (k : string) (row : match_row) (fee : Z) :
  fees_ok d → BigInt_parse (entry_fee_wei row) = Some fee → (0 <= fee)%Z →
  fees_ok (with_matches d (<[k := row]> (matches d))).
Proof.
  intros Hd Hfee Hpos i r. cbn [matches with_matches].
  destruct (decide (k = i)) as [<-|Hne].
  - rewrite lookup_insert_eq. intros [= <-]. eauto.
  - rewrite lookup_insert_ne by done. apply Hd.
Qed.

Lemma fees_ok_alter (d : db) (k : string) (f : match_row → match_row) :
  (∀ r, entry_fee_wei (f r) = entry_fee_wei r) →
  fees_ok d → fees_ok (with_matches d (alter f k (matches d))).
Proof.
  intros Hf Hd i r. cbn [matches with_matches].
  destruct (decide (k = i)) as [<-|Hne].
  - rewrite lookup_alter_eq. destruct (matches d !! k) as [r0|] eqn:Hr0; [|done].
    intros [= <-]. rewrite Hf. by apply (Hd k).
  - rewrite lookup_alter_ne by done. apply Hd.
Qed.

Lemma fees_ok_same (d d' : db) : matches d' = matches d → fees_ok d → fees_ok d'.
Proof. intros Heq Hd i r. rewrite Heq. apply Hd. Qed.

Lemma create_fees_ok `{Viem} (s : server) (ag : agent) (b : create_body)
    (seed uuid payUuid : string) :
  fees_ok (store s) →
  fees_ok (store (snd (post_match_create s ag b seed uuid payUuid))).
Proof.
  intros Hs. unfold post_match_create.
  destruct (opt_truthy (cb_challengeType b)) as [ty|]; [|done].
  destruct (opt_truthy (cb_entryFee b)) as [fee|]; [|done].
  destruct (BigInt_toString <$> parseEther fee) as [wei|]; [|done].
  rewrite parseEther_min. cbn [fmap option_fmap option_map].
  destruct (BigInt_parse wei) as [f|] eqn:Hf; [|done].
  rewrite BigInt_parse_toString.
  destruct (Z.ltb_spec f 100000000000000) as [|Hge]; [done|].
  assert (Hins : ∀ tx, fees_ok (store (snd
            (create_insert s ag ty fee wei (cb_difficulty b) tx seed uuid payUuid)))).
  { intros tx. unfold create_insert, createCustomMatch.
    destruct (if String.eqb ty "random" then None else Some ty) as [ty'|]; [|done].
    destruct (matches (store s) !! uuid); [done|].
    assert (Hrow : fees_ok (with_matches (store s) (<[uuid :=
              {| id := uuid; agent1_id := agent_id ag; agent2_id := EmptyString;
                 challenge_type := ty'; challenge_data := []; status := "open";
                 winner_id := None; started_at := None; completed_at := None;
                 time_limit := 300; entry_fee_wei := wei;
                 creator_id := Some (agent_id ag); opponent_id := None;
                 pot_wei := "0"; arena_cut_wei := "0"; winner_payout_wei := "0";
                 challenge_seed := Some seed; is_practice := 0;
                 elo_change_agent1 := 0; elo_change_agent2 := 0 |}]>
              (matches (store s))))).
    { apply (fees_ok_insert _ _ _ f); [done|done|lia]. }
    destruct tx as [tx|]; [|done].
    destruct (getTransaction tx) as [t|]; [|done]. cbn [mbind option_bind].
    destruct (recordPayment _ _ _ _ _ _ _) as [[d2 r]|] eqn:Hpay; [|done].
    apply recordPayment_matches in Hpay as [Hm _].
    by apply (fees_ok_same _ d2) in Hrow. }
  destruct (opt_truthy (cb_txHash b)) as [tx|]; [|apply Hins].
  destruct (verify_payment _ _ _ _) as [[e|]|]; [done|apply Hins|done].
Qed.

Lemma join_fees_ok `{Viem} `{ChallengeGenerator} (s : server) (ag : agent)
    (matchId : string) (txHash : option string) (now payUuid : string) :
  fees_ok (store s) →
  fees_ok (store (snd (post_match_join s ag matchId txHash now payUuid))).
Proof.
  intros Hs. unfold post_match_join.
  destruct (opt_truthy txHash) as [tx|]; [|done].
  destruct (getMatch (store s) matchId) as [m|] eqn:Hm; [|done].
  destruct (negb _); [done|]. destruct (bool_decide _); [done|].
  destruct (verify_payment _ _ _ _) as [[e|]|]; try done.
  destruct (getTransaction tx) as [t|]; [|done].
  unfold join_writes.
  destruct (generateChallenge _ _ _) as [ch|]; [|done].
  destruct (bind_int (field "timeLimit" ch)) as [tl|]; [|done].
  cbn [mbind option_bind].
  destruct (joinCustomMatch _ _ _ _ _ _) as [d1|] eqn:Hjoin; [|done].
  assert (Hd1 : fees_ok d1).
  { unfold joinCustomMatch in Hjoin. unfold getMatch in Hm. rewrite Hm in Hjoin.
    cbn [mbind option_bind] in Hjoin.
    destruct (BigInt_parse (entry_fee_wei m)) as [fee|] eqn:Hfee; [|done].
    cbn [mbind option_bind] in Hjoin.
    destruct (arenaCutWei (potWei fee)) as [cut|]; [|done].
    cbn [mbind option_bind] in Hjoin.
    destruct (winnerPayoutWei (potWei fee) cut) as [payout|]; [|done].
    cbn [mbind option_bind] in Hjoin. injection Hjoin as <-.
    destruct (Hs matchId m Hm) as (fee' & Hfee' & Hpos).
    by apply (fees_ok_insert _ _ _ fee'). }
  destruct (recordPayment _ _ _ _ _ _ _) as [[d2 r]|] eqn:Hpay; [|done].
  apply recordPayment_matches in Hpay as [Hmd _].
  assert (Hd2 : fees_ok d2) by by apply (fees_ok_same d1).
  by destruct (creator_id m ≫= getAgent d2).
Qed.

Lemma tryMatchmaking_fees_ok `{Viem} `{ChallengeGenerator} (s : server)
    (seed uuid now : string) :
  fees_ok (store s) →
  fees_ok (store (snd (tryMatchmaking s seed uuid now))).
Proof.
  intros Hs. unfold tryMatchmaking.
  destruct (matchQueue s) as [|e1 [|e2 rest]]; [done|done|].
  destruct (generateChallenge _ _ _) as [ch|]; [|done].
  destruct (quick_match_insert _ _ _ _ _ _ _) as [d'|] eqn:Hins; [|done].
  apply quick_match_insert_row in Hins as (row' & _ & Hm & _ & _ & _ & _ & _ & Hf & _).
  cbn [snd store]. intros i r. rewrite Hm.
  destruct (decide (uuid = i)) as [<-|Hne].
  - rewrite lookup_insert_eq. intros [= <-]. exists 100000000000000%Z.
    rewrite Hf, BigInt_parse_toString. split; [done|lia].
  - rewrite lookup_insert_ne by done. apply Hs.
Qed.

Lemma queue_fees_ok `{Viem} `{ChallengeGenerator} (s : server) (ag : agent)
    (b : queue_body) (rnd : Z) (seed uuid now : string) :
  fees_ok (store s) →
  fees_ok (store (snd (post_match_queue s ag b rnd seed uuid now))).
Proof.
  intros Hs. unfold post_match_queue.
  destruct (canAgentAffordMatch _ _ _) as [[|]|]; try done.
  destruct (already_queued _ _); [done|].
  pose proof (tryMatchmaking_fees_ok
    {| store := store s; matchQueue := matchQueue s ++ [new_entry ag b rnd now] |}
    seed uuid now Hs) as Hq.
  by destruct (tryMatchmaking _ _ _ _) as [[[[mid ch]|]|] s2].
Qed.

Lemma practice_fees_ok `{ChallengeGenerator} (s : server) (ag : agent)
    (ty : option string) (rndType rndDifficulty : Z) (seed uuid now : string) :
  fees_ok (store s) →
  fees_ok (store (snd (post_match_practice s ag ty rndType rndDifficulty
                         seed uuid now))).
Proof.
  intros Hs. unfold post_match_practice.
  destruct (generateChallenge _ _ _) as [ch|]; [|done]. cbn [mbind option_bind].
  destruct (bind_text (field "type" ch)) as [t|]; [|done].
  cbn [mbind option_bind]. unfold createPracticeMatch.
  destruct (getPracticeBot (store s)) as [bot|]; [|done]. cbn [mbind option_bind].
  destruct (matches (store s) !! uuid); [done|]. cbn [mbind option_bind snd store with_store].
  by apply (fees_ok_insert _ _ _ 0%Z).
Qed.

Lemma complete_fees_ok `{EloArithmetic} (d : db) (now matchId : string)
    (winnerId : option string) :
  fees_ok d → fees_ok (after (completeMatch d now matchId winnerId)).
Proof.
  intros Hd. unfold completeMatch.
  set (d1 := with_matches d _).
  assert (Hd1 : fees_ok d1) by by apply fees_ok_alter.
  destruct (updateELO d1 matchId winnerId) as [[d2 l]|] eqn:Hu; [|done].
  cbn [after]. unfold updateELO in Hu.
  destruct (getMatch d1 matchId) as [m|]; [|by injection Hu as <- _].
  destruct (negb _); [by injection Hu as <- _|].
  destruct (getAgent d1 (agent1_id m)) as [a1|]; [|done].
  cbn [mbind option_bind] in Hu.
  destruct (getAgent d1 (agent2_id m)) as [a2|]; [|done].
  cbn [mbind option_bind] in Hu.
  destruct (newRatings _ _ _) as [n1 n2].
  destruct (match _ with Draw => _ | _ => _ end) as [c1 c2].
  injection Hu as <- _.
  apply (fees_ok_same (with_matches d1 (alter
           (fun r => set_elo_changes r (n1 - elo a1) (n2 - elo a2)) matchId
           (matches d1)))); [done|].
  by apply fees_ok_alter.
Qed.

(** On every state the server reaches, the stored fees are non-negative
    integers. *)
Lemma reachable_fees_ok `{Viem} `{ChallengeGenerator} `{EloArithmetic}
    (s : server) : reachable s → fees_ok (store s).
Proof.
  induction 1 as [s Hempty _|s s' _ IH Hstep].
  - intros i row. by rewrite Hempty, lookup_empty.
  - destruct Hstep.
    + by apply create_fees_ok.
    + by apply join_fees_ok.
    + by apply queue_fees_ok.
    + by apply practice_fees_ok.
    + cbn [store with_store]. by apply complete_fees_ok.
Qed.

(** C9.  For every match that gains an opponent, by a join or by the
    pairing of two queued agents, the row records pot_wei = 2 *
    entry_fee_wei, arena_cut_wei = pot_wei / 10 rounded down and
    winner_payout_wei = pot_wei - arena_cut_wei, so that cut and payout
    add up to the pot exactly.  ([fees_ok] holds of every state the
    server reaches, see [reachable_fees_ok].) *)
Theorem match_economics `{Viem} (d d' : db) (matchId : string) :
  fees_ok d →
  gains_opponent d matchId d' →
  ∃ row', matches d' !! matchId = Some row' ∧ economics_ok row'.
Proof.
  intros Hfees [now opp cd tl Hjoin | now seed e1 e2 ch Hins].
  - apply joinCustomMatch_row in Hjoin
      as (row & fee & row' & Hrow & Hfee & Hrow' & _ & Hf & _ & _ & _ & _ & _
          & Hpot & Hcut & Hpay & _).
    exists row'. split; [done|].
    apply (economics_of_amounts row' fee); try done.
    + destruct (Hfees matchId row Hrow) as (fee' & Hfee' & Hpos). congruence.
    + by rewrite Hf.
  - apply quick_match_insert_row in Hins
      as (row' & _ & Hm & _ & _ & _ & _ & _ & Hf & Hpot & Hcut & Hpay).
    exists row'. split; [by rewrite Hm, lookup_insert_eq|].
    apply (economics_of_amounts row' 100000000000000); try done.
    by rewrite Hf, BigInt_parse_toString.
Qed.

Lemma match_economics_witness :
  fees_ok (store server_open) ∧
  ∃ row',
    matches (default db0
               (joinCustomMatch (store server_open) "2026-01-01 10:00:00" "m1"
                                "b" [("type", VStr "cipher_break")] 300))
      !! "m1" = Some row' ∧
    economics_ok row'.
Proof.
  assert (Hfees : fees_ok (store server_open)).
  { apply (@reachable_fees_ok sampleViem sampleEngine sampleElo).
    apply (@reachable_step sampleViem sampleEngine sampleElo server0).
    - by apply reachable_init.
    - apply (@step_create sampleViem sampleEngine sampleElo server0 alice
               body_cipher "ab12" "m1" "p1"). }
  split; [exact Hfees|].
  apply (@match_economics sampleViem (store server_open) _ "m1" Hfees).
  apply (by_join _ _ _ "2026-01-01 10:00:00" "b"
           [("type", VStr "cipher_break")] 300).
  vm_compute. reflexivity.
Defined.

(** ** Completing a practice match *)

Lemma alter_as_insert {A} (f : A → A) (m : gmap string A) (i : string) (x : A) :
  m !! i = Some x → alter f i m = <[i := f x]> m.
Proof.
  intros Hx. apply map_eq. intros j.
  destruct (decide (i = j)) as [<-|Hne].
  - by rewrite lookup_alter_eq, lookup_insert_eq, Hx.
  - by rewrite lookup_alter_ne, lookup_insert_ne.
Qed.

Lemma updateELO_practice `{EloArithmetic} (d : db) (matchId : string)
    (winnerId : option string) (row : match_row) :
  matches d !! matchId = Some row →
  is_practice row ≠ 0%Z →
  updateELO d matchId winnerId = Some (d, [SkippingELO matchId]).
Proof.
  intros Hrow Hp. unfold updateELO, getMatch. rewrite Hrow.
  destruct (Z.eqb_spec (is_practice row) 0); [done|]. reflexivity.
Qed.

Lemma handleMatchPayout_practice (d : db) (matchId : string)
    (winnerId : option string) (row : match_row) :
  matches d !! matchId = Some row →
  is_practice row ≠ 0%Z →
  forallb (fun l => negb (is_payout_line l))
          (handleMatchPayout d matchId winnerId) = true.
Proof.
  intros Hrow Hp. unfold handleMatchPayout, getMatch. rewrite Hrow.
  destruct (_ || _); [done|].
  destruct (Z.eqb_spec (is_practice row) 0); [done|]. reflexivity.
Qed.

(** C10.  Completing a practice match leaves every agents row (elo,
    wins, losses, draws) as it was and triggers no payout: [updateELO]
    and [handleMatchPayout] return without a write, and of the match row
    only status, winner_id and completed_at change. *)
Theorem practice_completion_frame `{EloArithmetic} (d : db) (now matchId : string)
    (winnerId : option string) (row : match_row) :
  matches d !! matchId = Some row →
  is_practice row ≠ 0%Z →
  let c := completeMatch d now matchId winnerId in
  resolved c = true ∧
  agents (after c) = agents d ∧
  submissions (after c) = submissions d ∧
  payments (after c) = payments d ∧
  forallb (fun l => negb (is_payout_line l)) (printed c) = true ∧
  ∃ row',
    matches (after c) = <[matchId := row']> (matches d) ∧
    status row' = "completed" ∧ winner_id row' = winnerId ∧
    completed_at row' = Some now ∧ same_other_columns row row'.
Proof.
  intros Hrow Hp. unfold completeMatch.
  set (d1 := with_matches d _).
  assert (Hrow1 : matches d1 !! matchId = Some (set_completed row winnerId now)).
  { unfold d1. simpl. by rewrite lookup_alter_eq, Hrow. }
  rewrite (updateELO_practice d1 matchId winnerId _ Hrow1 Hp). simpl.
  repeat split.
  - by rewrite (handleMatchPayout_practice d1 matchId winnerId _ Hrow1 Hp).
  - exists (set_completed row winnerId now).
    split.
    { unfold d1. simpl.
      by apply (alter_as_insert (fun r => set_completed r winnerId now)). }
    unfold same_other_columns. simpl. repeat split.
Qed.

Lemma practice_completion_frame_witness :
  let d := store (snd (@post_match_practice sampleEngine server0 alice
                         (Some "cipher_break") 0 1 "5eed" "pm1"
                         "2026-01-01 09:00:00")) in
  let c := @completeMatch sampleElo d "2026-01-01 09:01:00" "pm1" (Some "a") in
  ∃ row,
    matches d !! "pm1" = Some row ∧ is_practice row ≠ 0%Z ∧
    resolved c = true ∧
    agents (after c) = agents d ∧
    submissions (after c) = submissions d ∧
    payments (after c) = payments d ∧
    forallb (fun l => negb (is_payout_line l)) (printed c) = true ∧
    ∃ row',
      matches (after c) = <["pm1" := row']> (matches d) ∧
      status row' = "completed" ∧ winner_id row' = Some "a" ∧
      completed_at row' = Some "2026-01-01 09:01:00" ∧
      same_other_columns row row'.
Proof.
  intros d c.
  assert (Hrow : is_Some (matches d !! "pm1")) by (vm_compute; eauto).
  destruct Hrow as [row Hrow]. exists row.
  assert (Hp : is_practice row ≠ 0%Z).
  { vm_compute in Hrow. injection Hrow as <-. vm_compute. discriminate. }
  split; [exact Hrow|]. split; [exact Hp|].
  exact (@practice_completion_frame sampleElo d "2026-01-01 09:01:00" "pm1"
           (Some "a") row Hrow Hp).
Defined.

(** ** The matchmaking queue *)

Lemma already_queued_spec (q : list queueEntry) (ag : agent) :
  already_queued q ag = true ↔ agent_id ag ∈ queued_ids q.
Proof.
  unfold already_queued, queued_ids. rewrite existsb_exists, list_elem_of_fmap.
  split.
  - intros (e & Hin & Heq). exists e. apply String.eqb_eq in Heq.
    split; [done|]. by apply list_elem_of_In.
  - intros (e & Heq & Hin). exists e. split; [by apply list_elem_of_In|].
    apply String.eqb_eq. done.
Qed.

Lemma tryMatchmaking_short `{Viem} `{ChallengeGenerator} (s : server)
    (seed uuid now : string) :
  (length (matchQueue s) < 2)%nat →
  tryMatchmaking s seed uuid now = (Some None, s).
Proof.
  unfold tryMatchmaking. destruct (matchQueue s) as [|e1 [|e2 rest]]; simpl;
    [done|done|lia].
Qed.

(** Whatever happens next, the first two entries leave the queue. *)
Lemma tryMatchmaking_shifts `{Viem} `{ChallengeGenerator} (s : server)
    (seed uuid now : string) (e1 e2 : queueEntry) (rest : list queueEntry) :
  matchQueue s = e1 :: e2 :: rest →
  matchQueue (snd (tryMatchmaking s seed uuid now)) = rest.
Proof.
  intros Hq. unfold tryMatchmaking. rewrite Hq.
  destruct (generateChallenge _ _ _); [|done].
  by destruct (quick_match_insert _ _ _ _ _ _ _).
Qed.


Lemma tryMatchmaking_matched `{Viem} `{ChallengeGenerator} (s s' : server)
    (seed uuid now : string) (e1 e2 : queueEntry) (rest : list queueEntry)
    (res : string * obj) :
  matchQueue s = e1 :: e2 :: rest →
  tryMatchmaking s seed uuid now = (Some (Some res), s') →
  ∃ row,
    matches (store s') !! uuid = Some row ∧
    agent1_id row = agent_id (q_agent e1) ∧
    agent2_id row = agent_id (q_agent e2).
Proof.
  intros Hq. unfold tryMatchmaking. rewrite Hq.
  destruct (generateChallenge _ _ _) as [ch|]; [|done].
  destruct (quick_match_insert _ _ _ _ _ _ _) as [d'|] eqn:Hins; [|done].
  intros [= _ <-]. simpl.
  apply quick_match_insert_row in Hins
    as (row' & _ & Hm & _ & H1 & H2 & _).
  exists row'. by rewrite Hm, lookup_insert_eq.
Qed.

Lemma tryMatchmaking_NoDup `{Viem} `{ChallengeGenerator} (s : server)
    (seed uuid now : string) :
  NoDup (queued_ids (matchQueue s)) →
  NoDup (queued_ids (matchQueue (snd (tryMatchmaking s seed uuid now)))).
Proof.
  intros Hnd. destruct (matchQueue s) as [|e1 [|e2 rest]] eqn:Hq.
  - rewrite tryMatchmaking_short by (rewrite Hq; simpl; lia). simpl. by rewrite Hq.
  - rewrite tryMatchmaking_short by (rewrite Hq; simpl; lia). simpl. by rewrite Hq.
  - rewrite (tryMatchmaking_shifts s seed uuid now e1 e2 rest Hq).
    unfold queued_ids in Hnd. simpl in Hnd.
    apply NoDup_cons in Hnd as [_ Hnd]. by apply NoDup_cons in Hnd as [_ Hnd].
Qed.

Lemma post_match_queue_NoDup `{Viem} `{ChallengeGenerator} (s : server)
    (ag : agent) (b : queue_body) (rnd : Z) (seed uuid now : string) :
  NoDup (queued_ids (matchQueue s)) →
  NoDup (queued_ids
           (matchQueue (snd (post_match_queue s ag b rnd seed uuid now)))).
Proof.
  intros Hnd. unfold post_match_queue.
  destruct (canAgentAffordMatch _ _ _) as [[|]|]; try done.
  destruct (already_queued (matchQueue s) ag) eqn:Hdup; [done|].
  set (s1 := {| store := store s;
                matchQueue := matchQueue s ++ [new_entry ag b rnd now] |}).
  assert (Hnd1 : NoDup (queued_ids (matchQueue s1))).
  { unfold s1, queued_ids. simpl. rewrite map_app. simpl.
    apply NoDup_app. split; [done|]. split; [|apply NoDup_singleton].
    intros x Hx Hx'. apply list_elem_of_singleton in Hx'. subst x.
    apply already_queued_spec in Hx. congruence. }
  pose proof (tryMatchmaking_NoDup s1 seed uuid now Hnd1) as Hnd2.
  destruct (tryMatchmaking s1 seed uuid now) as [[[[mid ch]|]|] s2]; done.
Qed.





(** *** The queue on the states the server reaches *)

Lemma create_queue `{Viem} (s : server) (ag : agent) (b : create_body)
    (seed uuid payUuid : string) :
  matchQueue (snd (post_match_create s ag b seed uuid payUuid)) = matchQueue s.
Proof.
  assert (Hins : ∀ ty fee wei dif tx,
    matchQueue (snd (create_insert s ag ty fee wei dif tx seed uuid payUuid))
      = matchQueue s).
  { intros ty fee wei dif tx. unfold create_insert.
    destruct (createCustomMatch _ _ _ _ _ _ _) as [[d1 mid]|]; [|done].
    destruct tx as [tx|]; [|done]. by destruct (_ ≫= _) as [[d2 ?]|]. }
  unfold post_match_create.
  destruct (opt_truthy (cb_challengeType b)) as [ty|]; [|done].
  destruct (opt_truthy (cb_entryFee b)) as [fee|]; [|done].
  destruct (BigInt_toString <$> parseEther fee) as [wei|]; [|done].
  destruct (BigInt_toString <$> parseEther "0.0001") as [minWei|]; [|done].
  destruct (BigInt_parse wei) as [f|]; [|done].
  destruct (BigInt_parse minWei) as [m|]; [|done].
  destruct (Z.ltb f m); [done|].
  destruct (opt_truthy (cb_txHash b)) as [tx|]; [|apply Hins].
  destruct (verify_payment _ _ _ _) as [[err|]|]; [done|apply Hins|done].
Qed.

Lemma join_queue `{Viem} `{ChallengeGenerator} (s : server) (ag : agent)
    (matchId : string) (txHash : option string) (now payUuid : string) :
  matchQueue (snd (post_match_join s ag matchId txHash now payUuid)) = matchQueue s.
Proof.
  unfold post_match_join.
  destruct (opt_truthy txHash) as [tx|]; [|done].
  destruct (getMatch (store s) matchId) as [m|]; [|done].
  destruct (negb _); [done|]. destruct (bool_decide _); [done|].
  destruct (verify_payment _ _ _ _) as [[e|]|]; try done.
  destruct (getTransaction tx) as [t|]; [|done].
  by destruct (join_writes _ _ _ _ _ _ _ _) as [[body|] d'].
Qed.

Lemma practice_queue `{ChallengeGenerator} (s : server) (ag : agent)
    (ty : option string) (rndType rndDifficulty : Z) (seed uuid now : string) :
  matchQueue (snd (post_match_practice s ag ty rndType rndDifficulty seed uuid now))
    = matchQueue s.
Proof.
  unfold post_match_practice.
  by destruct (_ ≫= _) as [[ch [d' mid]]|].
Qed.

Lemma tryMatchmaking_length `{Viem} `{ChallengeGenerator} (s : server)
    (seed uuid now : string) :
  (length (matchQueue s) <= 2)%nat →
  (length (matchQueue (snd (tryMatchmaking s seed uuid now))) <= 1)%nat.
Proof.
  intros Hlen. destruct (matchQueue s) as [|e1 [|e2 rest]] eqn:Hq.
  - rewrite tryMatchmaking_short by (rewrite Hq; simpl; lia).
    cbn [snd]. rewrite Hq. simpl. lia.
  - rewrite tryMatchmaking_short by (rewrite Hq; simpl; lia).
    cbn [snd]. rewrite Hq. simpl. lia.
  - rewrite (tryMatchmaking_shifts s seed uuid now e1 e2 rest Hq).
    simpl in Hlen. lia.
Qed.

(** On every state the handlers reach no agent waits twice, and since
    every request that is let in runs [tryMatchmaking] at once, one
    agent waits at most: the moment a second arrives, both are taken
    off the queue. *)
Lemma reachable_queue `{Viem} `{ChallengeGenerator} `{EloArithmetic}
    (s : server) :
  reachable s →
  NoDup (queued_ids (matchQueue s)) ∧ (length (matchQueue s) <= 1)%nat.
Proof.
  induction 1 as [s _ Hq|s s' _ [IHnd IHlen] Hstep].
  - rewrite Hq. split; [constructor|simpl; lia].
  - destruct Hstep.
    + by rewrite create_queue.
    + by rewrite join_queue.
    + split; [by apply post_match_queue_NoDup|].
      unfold post_match_queue.
      destruct (canAgentAffordMatch _ _ _) as [[|]|]; try done.
      destruct (already_queued _ _); [done|].
      pose proof (tryMatchmaking_length
        {| store := store s;
           matchQueue := matchQueue s ++ [new_entry ag b rnd now] |}
        seed uuid now) as Hl.
      cbn [matchQueue] in Hl. rewrite length_app in Hl. cbn [length] in Hl.
      specialize (Hl ltac:(lia)).
      by destruct (tryMatchmaking _ _ _ _) as [[[[mid ch]|]|] s2].
    + by rewrite practice_queue.
    + done.
Qed.

(** ** Request validation of POST /api/match/create *)

(** C5 as the spec words it does not hold of the create handler: the
    request [body_bogus] is malformed on both counts, yet it is answered
    with success and an open match record of type "bogus" is written. *)
Lemma create_accepts_malformed :
  ¬ (∀ (V : Viem) (s : server) (ag : agent) (b : create_body)
       (seed uuid payUuid : string),
        well_formed b = false →
        is_rejection (fst (post_match_create s ag b seed uuid payUuid)) = true ∧
        snd (post_match_create s ag b seed uuid payUuid) = s).
Proof.
  intros Hall_rejected.
  destruct (Hall_rejected sampleViem server0 alice body_bogus "ab12" "m1" "p1" eq_refl)
    as [Hrej _].
  vm_compute in Hrej. discriminate.
Qed.

Lemma create_bogus_row :
  ∃ row,
    matches (store (snd (@post_match_create sampleViem server0 alice body_bogus
                           "ab12" "m1" "p1"))) !! "m1" = Some row ∧
    challenge_type row = "bogus" ∧ status row = "open".
Proof. eexists. split; [vm_compute; reflexivity|]. by split. Qed.

(** Every 400 answer of the create handler leaves the server as it was. *)
Lemma create_400_no_write `{Viem} (s : server) (ag : agent) (b : create_body)
    (seed uuid payUuid : string) (e : string) :
  fst (post_match_create s ag b seed uuid payUuid) = Error 400 e →
  snd (post_match_create s ag b seed uuid payUuid) = s.
Proof.
  assert (Hins : ∀ ty fee wei dif tx,
            fst (create_insert s ag ty fee wei dif tx seed uuid payUuid)
              = Error 400 e → False).
  { intros ty fee wei dif tx. unfold create_insert.
    destruct (createCustomMatch _ _ _ _ _ _ _) as [[d1 mid]|]; [|done].
    destruct tx as [tx|]; [|done].
    by destruct (_ ≫= _) as [[d2 ?]|]. }
  unfold post_match_create.
  destruct (opt_truthy (cb_challengeType b)) as [ty|]; [|done].
  destruct (opt_truthy (cb_entryFee b)) as [fee|]; [|done].
  destruct (BigInt_toString <$> parseEther fee) as [wei|]; [|done].
  destruct (BigInt_toString <$> parseEther "0.0001") as [minWei|]; [|done].
  destruct (BigInt_parse wei) as [f|]; [|done].
  destruct (BigInt_parse minWei) as [m|]; [|done].
  destruct (Z.ltb f m); [done|].
  destruct (opt_truthy (cb_txHash b)) as [tx|].
  - destruct (verify_payment _ _ _ _) as [[err|]|]; try done.
    intros Hr. by destruct (Hins _ _ _ _ _ Hr).
  - intros Hr. by destruct (Hins _ _ _ _ _ Hr).
Qed.

(** C5, as the create handler has it.  The handler refuses with a 400,
    before anything is written, a request without challengeType or
    entryFee and a request whose fee is below 0.0001 ETH, and no 400
    answer ever comes with a write.  It checks neither the type against
    the catalogue nor the difficulty against 1..5, and reads no seed
    from the request: any other type than 'random', at any difficulty,
    with a sufficient fee, no txHash and an unused match id, yields an
    open match record of that type carrying the seed the server drew.
    An omitted difficulty is reported as 3. *)
Theorem create_validation `{Viem} (s : server) (ag : agent) (b : create_body)
    (seed uuid payUuid : string) :
  (opt_truthy (cb_challengeType b) = None ∨ opt_truthy (cb_entryFee b) = None →
   post_match_create s ag b seed uuid payUuid =
     (Error 400 "challengeType and entryFee are required", s)) ∧
  (∀ ty fee w,
     opt_truthy (cb_challengeType b) = Some ty →
     opt_truthy (cb_entryFee b) = Some fee →
     parseEther fee = Some w → (w < 100000000000000)%Z →
     post_match_create s ag b seed uuid payUuid =
       (Error 400 "Entry fee too low", s)) ∧
  (∀ e, fst (post_match_create s ag b seed uuid payUuid) = Error 400 e →
        snd (post_match_create s ag b seed uuid payUuid) = s) ∧
  (∀ ty fee w,
     opt_truthy (cb_challengeType b) = Some ty → ty ≠ "random" →
     opt_truthy (cb_entryFee b) = Some fee →
     parseEther fee = Some w → (100000000000000 <= w)%Z →
     opt_truthy (cb_txHash b) = None →
     matches (store s) !! uuid = None →
     ∃ row,
       post_match_create s ag b seed uuid payUuid =
         (Json (VObj (create_ok uuid fee (BigInt_toString w) ty
                                (difficulty_or_3 (cb_difficulty b)) false)),
          with_store s (with_matches (store s)
                          (<[uuid := row]> (matches (store s))))) ∧
       challenge_type row = ty ∧ status row = "open" ∧
       challenge_data row = [] ∧ challenge_seed row = Some seed ∧
       entry_fee_wei row = BigInt_toString w) ∧
  difficulty_or_3 None = 3%Z.
Proof.
  split; [|split; [|split; [|split]]].
  - unfold post_match_create. intros [-> | Hfee]; [done|].
    rewrite Hfee. by destruct (opt_truthy (cb_challengeType b)).
  - intros ty fee w Hty Hfee Hw Hlt. unfold post_match_create.
    rewrite Hty, Hfee, Hw, parseEther_min. cbn [fmap option_fmap option_map].
    rewrite !BigInt_parse_toString.
    destruct (Z.ltb_spec w 100000000000000); [done|lia].
  - intros e. apply create_400_no_write.
  - intros ty fee w Hty Hne Hfee Hw Hge Htx Hfresh. unfold post_match_create.
    rewrite Hty, Hfee, Hw, parseEther_min. cbn [fmap option_fmap option_map].
    rewrite !BigInt_parse_toString.
    destruct (Z.ltb_spec w 100000000000000); [lia|].
    rewrite Htx. unfold create_insert, createCustomMatch.
    destruct (String.eqb_spec ty "random"); [done|].
    rewrite Hfresh. eexists. split; [reflexivity|]. by repeat split.
  - reflexivity.
Qed.

Lemma create_validation_witness :
  @post_match_create sampleViem server0 alice
     {| cb_challengeType := None; cb_entryFee := Some "1";
        cb_difficulty := Some 2; cb_txHash := None |} "ab12" "m1" "p1" =
    (Error 400 "challengeType and entryFee are required", server0) ∧
  @post_match_create sampleViem server0 alice
     {| cb_challengeType := Some "code_golf"; cb_entryFee := Some "0.00001";
        cb_difficulty := Some 2; cb_txHash := None |} "ab12" "m1" "p1" =
    (Error 400 "Entry fee too low", server0) ∧
  ∃ row,
    @post_match_create sampleViem server0 alice body_bogus "ab12" "m1" "p1" =
      (Json (VObj (create_ok "m1" "0.0001" (BigInt_toString 100000000000000)
                             "bogus" 99 false)),
       with_store server0 (with_matches db0 (<["m1" := row]> (matches db0)))) ∧
    challenge_type row = "bogus" ∧ status row = "open" ∧
    challenge_data row = [] ∧ challenge_seed row = Some "ab12" ∧
    entry_fee_wei row = BigInt_toString 100000000000000.
Proof.
  split; [|split].
  - apply (proj1 (@create_validation sampleViem server0 alice _ "ab12" "m1" "p1")).
    left. reflexivity.
  - apply (proj1 (proj2 (@create_validation sampleViem server0 alice _
                           "ab12" "m1" "p1")) "code_golf" "0.00001"
                        10000000000000); [reflexivity..|lia].
  - apply (proj1 (proj2 (proj2 (proj2
             (@create_validation sampleViem server0 alice body_bogus
                "ab12" "m1" "p1")))) "bogus" "0.0001" 100000000000000);
      [reflexivity|discriminate|reflexivity|reflexivity|lia|reflexivity|
       reflexivity].
Defined.

(** ** Objects *)

Lemma field_del_eq (k : string) (o : obj) : field k (del k o) = None.
Proof.
  induction o as [|[k' v] o IH]; [done|]. simpl.
  destruct (String.eqb_spec k' k) as [->|Hne]; [done|]. simpl.
  by destruct (String.eqb_spec k' k).
Qed.

Lemma field_del_ne (k k' : string) (o : obj) :
  k ≠ k' → field k' (del k o) = field k' o.
Proof.
  intros Hne. induction o as [|[k0 v] o IH]; [done|]. simpl.
  destruct (String.eqb_spec k0 k) as [->|Hne0].
  - rewrite IH. by destruct (String.eqb_spec k k').
  - simpl. by rewrite IH.
Qed.

Lemma field_del_None (k k' : string) (o : obj) :
  field k' o = None → field k' (del k o) = None.
Proof.
  intros Hnone. destruct (decide (k = k')) as [->|Hne].
  - apply field_del_eq.
  - by rewrite field_del_ne.
Qed.

Lemma field_put_eq (k : string) (v : value) (o : obj) :
  field k (put k v o) = Some v.
Proof.
  induction o as [|[k' v'] o IH]; simpl.
  - by rewrite String.eqb_refl.
  - destruct (String.eqb_spec k' k) as [->|Hne]; simpl.
    + by rewrite String.eqb_refl.
    + by destruct (String.eqb_spec k' k).
Qed.

Lemma field_put_ne (k k' : string) (v : value) (o : obj) :
  k ≠ k' → field k' (put k v o) = field k' o.
Proof.
  intros Hne. induction o as [|[k0 v0] o IH]; simpl.
  - by destruct (String.eqb_spec k k').
  - destruct (String.eqb_spec k0 k) as [->|Hne0]; simpl.
    + by destruct (String.eqb_spec k k').
    + by rewrite IH.
Qed.

Lemma wire_obj_cons (k : string) (x : value) (o : obj) :
  wire_obj ((k, x) :: o) =
    match x with
    | VUndef => wire_obj o
    | _ => (k, wire x) :: wire_obj o
    end.
Proof. by destruct x. Qed.

(** On the wire a property is there exactly when it was there with a
    value other than [undefined]. *)
Lemma field_wire_None (k : string) (o : obj) :
  field k o = None → field k (wire_obj o) = None.
Proof.
  induction o as [|[k' v] o IH]; [done|].
  rewrite wire_obj_cons. cbn [field].
  destruct (String.eqb_spec k' k) as [->|Hne]; [done|]. intros Hnone.
  destruct v; cbn [field]; try (destruct (String.eqb_spec k' k); [done|]);
    by apply IH.
Qed.

Lemma field_wire_Some (k : string) (o : obj) (v : value) :
  field k o = Some v → v ≠ VUndef → field k (wire_obj o) = Some (wire v).
Proof.
  induction o as [|[k' x] o IH]; [done|].
  rewrite wire_obj_cons. cbn [field].
  destruct (String.eqb_spec k' k) as [->|Hne].
  - intros [= ->] Hv. destruct v; try done; cbn [field];
      by rewrite String.eqb_refl.
  - intros Hf Hv.
    destruct x; cbn [field]; try (destruct (String.eqb_spec k' k); [done|]);
      by apply IH.
Qed.

Lemma strip_answers_private (cd : obj) (k : string) :
  k ∈ private_names → field k (strip_answers cd) = None.
Proof.
  unfold private_names, strip_answers. intros Hk.
  rewrite !elem_of_cons in Hk.
  destruct Hk as [->|[->|[->|[->|Hk]]]]; [..|by apply elem_of_nil in Hk].
  - do 3 apply field_del_None. apply field_del_eq.
  - do 2 apply field_del_None. apply field_del_eq.
  - apply field_del_None. apply field_del_eq.
  - apply field_del_eq.
Qed.

Lemma strip_answers_other (cd : obj) (k : string) :
  k ∉ private_names → field k (strip_answers cd) = field k cd.
Proof.
  unfold private_names, strip_answers. intros Hk.
  rewrite !field_del_ne; [done|..]; intros <-; apply Hk; set_solver.
Qed.

(** ** The projections of a challenge *)

Lemma tc_detail_shape (tc v : value) :
  tc_detail tc = Some v →
  ∃ i dsc, v = VObj [("input", i); ("description", dsc)].
Proof.
  unfold tc_detail. intros Hv.
  destruct (getprop tc "input") as [i|]; [|done]. cbn [mbind option_bind] in Hv.
  destruct (getprop tc "description") as [dsc|]; [|done].
  cbn [mbind option_bind] in Hv. injection Hv as <-. eauto.
Qed.

Lemma tc_input_shape (tc v : value) :
  tc_input tc = Some v → ∃ i, v = VObj [("input", i)].
Proof.
  unfold tc_input. intros Hv.
  destruct (getprop tc "input") as [i|]; [|done]. cbn [mbind option_bind] in Hv.
  injection Hv as <-. eauto.
Qed.

Lemma map_testCases_spec (f : value → option value) (cd cd' : obj) :
  map_testCases f cd = Some cd' →
  (∀ k, k ≠ "testCases" → field k cd' = field k cd) ∧
  (∀ xs', field "testCases" cd' = Some (VArr xs') →
          ∃ xs, field "testCases" cd = Some (VArr xs) ∧
                Forall2 (fun x y => f x = Some y) xs xs').
Proof.
  unfold map_testCases. intros Hm.
  destruct (field "testCases" cd) as [tcs|] eqn:Htcs.
  - destruct (truthy tcs) eqn:Htruthy.
    + destruct tcs as [| | | | |xs|]; try done.
      destruct (mapM f xs) as [ys|] eqn:Hys; [|done].
      cbn [mbind option_bind] in Hm. injection Hm as <-. split.
      * intros k Hk. by rewrite field_put_ne.
      * intros xs'. rewrite field_put_eq. intros [= <-].
        exists xs. split; [done|]. by apply mapM_Some.
    + injection Hm as <-. split; [done|].
      intros xs'. rewrite Htcs. intros [= ->]. done.
  - injection Hm as <-. split; [done|]. intros xs'. by rewrite Htcs.
Qed.

Lemma testCases_not_private : "testCases" ∉ private_names.
Proof.
  unfold private_names. rewrite !elem_of_cons, elem_of_nil.
  intros [?|[?|[?|[?|[]]]]]; discriminate.
Qed.

(** What GET /api/match/:id shows of a challenge: none of the four
    private properties, and test cases reduced to input and description. *)
Lemma safeChallenge_spec (cd safe : obj) :
  safeChallenge cd = Some safe →
  (∀ k, k ∈ private_names → field k safe = None) ∧
  (∀ tcs, field "testCases" safe = Some (VArr tcs) →
          Forall (fun tc => ∃ i dsc,
                    tc = VObj [("input", i); ("description", dsc)]) tcs).
Proof.
  unfold safeChallenge. intros Hs.
  apply map_testCases_spec in Hs as [Hother Htcs]. split.
  - intros k Hk. rewrite Hother.
    + by apply strip_answers_private.
    + intros ->. by apply testCases_not_private in Hk.
  - intros tcs Hf. destruct (Htcs tcs Hf) as (xs & _ & Hall).
    clear -Hall. induction Hall as [|x y xs ys Hxy _ IH]; constructor; [|done].
    by apply tc_detail_shape with x.
Qed.

(** What the profile, battles and active-match pages show of a
    challenge: none of the four private properties, and test cases
    reduced to their input. *)
Lemma safe_cd_spec (cd safe : obj) :
  safe_cd cd = Some safe →
  (∀ k, k ∈ private_names → field k safe = None) ∧
  (∀ tcs, field "testCases" safe = Some (VArr tcs) →
          Forall (fun tc => ∃ i, tc = VObj [("input", i)]) tcs).
Proof.
  unfold safe_cd. intros Hs.
  apply map_testCases_spec in Hs as [Hother Htcs]. split.
  - intros k Hk. rewrite Hother.
    + by apply strip_answers_private.
    + intros ->. by apply testCases_not_private in Hk.
  - intros tcs Hf. destruct (Htcs tcs Hf) as (xs & _ & Hall).
    clear -Hall. induction Hall as [|x y xs ys Hxy _ IH]; constructor; [|done].
    by apply tc_input_shape with x.
Qed.

(** The match page spreads the whole row: besides the projected
    challenge it carries the row's type and seed. *)
Lemma get_match_fields (d : db) (matchId : string) (apiKey : option string)
    (m : match_row) (body : value) :
  getMatch d matchId = Some m →
  get_match d matchId apiKey = Json body →
  ∃ o safe,
    body = VObj o ∧
    safeChallenge (challenge_data m) = Some safe ∧
    field "challenge_data" o = Some (VObj (wire_obj safe)) ∧
    field "challenge_type" o = Some (VStr (challenge_type m)) ∧
    field "challenge_seed" o = Some (opt_str (challenge_seed m)).
Proof.
  intros Hm. unfold get_match. rewrite Hm.
  destruct (safeChallenge (challenge_data m)) as [safe|]; [|done].
  intros Hb.
  apply (f_equal (fun r => match r with Json b => b | _ => VNull end)) in Hb.
  cbv beta iota in Hb. subst body.
  eexists _, safe. split; [unfold wire_obj; reflexivity|].
  split; [reflexivity|]. split; [|split].
  - rewrite (field_wire_Some _ _ (VObj safe)); [reflexivity| |discriminate].
    rewrite !field_put_ne by discriminate. apply field_put_eq.
  - rewrite (field_wire_Some _ _ (VStr (challenge_type m)));
      [reflexivity| |discriminate].
    rewrite !field_put_ne by discriminate. reflexivity.
  - rewrite (field_wire_Some _ _ (opt_str (challenge_seed m)));
      [by destruct (challenge_seed m)| |by destruct (challenge_seed m)].
    rewrite !field_put_ne by discriminate. reflexivity.
Qed.

(** ** Joining regenerates from the stored seed *)

(** A successful join has generated the challenge at difficulty 3 from
    the type and seed of the row, stored it as the row's challenge data
    and left type and seed in place: the stored challenge is a function
    of two columns of its own row. *)
Lemma join_stores_generated `{Viem} `{ChallengeGenerator} (s s' : server)
    (ag : agent) (matchId : string) (txHash : option string)
    (now payUuid : string) (body : value) :
  post_match_join s ag matchId txHash now payUuid = (Json body, s') →
  ∃ m row' ch,
    getMatch (store s) matchId = Some m ∧ status m = "open" ∧
    getMatch (store s') matchId = Some row' ∧
    generateChallenge (Some (challenge_type row')) 3 (challenge_seed row')
      = Some ch ∧
    challenge_data row' = wire_obj ch ∧
    challenge_type row' = challenge_type m ∧
    challenge_seed row' = challenge_seed m ∧
    status row' = "active" ∧
    agent2_id row' = agent_id ag.
Proof.
  unfold post_match_join.
  destruct (opt_truthy txHash) as [tx|]; [|done].
  destruct (getMatch (store s) matchId) as [m|] eqn:Hm; [|done].
  destruct (String.eqb_spec (status m) "open") as [Hopen|]; [|done].
  cbn [negb]. destruct (bool_decide _); [done|].
  destruct (verify_payment _ _ _ _) as [[e|]|]; try done.
  destruct (getTransaction tx) as [t|]; [|done].
  unfold join_writes.
  destruct (generateChallenge _ _ _) as [ch|] eqn:Hgen; [|done].
  destruct (bind_int (field "timeLimit" ch)) as [tl|]; [|done].
  cbn [mbind option_bind].
  destruct (joinCustomMatch _ _ _ _ _ _) as [d1|] eqn:Hjoin; [|done].
  destruct (recordPayment _ _ _ _ _ _ _) as [[d2 r]|] eqn:Hpay; [|done].
  destruct (creator_id m ≫= getAgent d2); [|done].
  intros [= _ <-].
  apply joinCustomMatch_row in Hjoin
    as (row & fee & row' & Hrow & _ & Hrow' & _ & _ & Hty & Hseed & Hcd & _
        & Hst & _ & _ & _ & Ha2).
  apply recordPayment_matches in Hpay as [Hmd _].
  unfold getMatch in Hm. rewrite Hm in Hrow. injection Hrow as <-.
  exists m, row', ch. unfold getMatch. simpl. rewrite Hmd.
  rewrite Hty, Hseed.
  repeat split; try done.
Qed.


(** ** Secrecy of the answer key *)

(** C1 (the code departs from it).  The match page of a joined match
    shows the challenge without answer, solution, plaintext and key and
    with test cases cut down to their input; but it also shows the row's
    challenge_type and challenge_seed, and these two regenerate the
    stored challenge whole, private properties included: every property
    of the stored challenge is a property of what the page's reader
    regenerates. *)
Theorem match_page_regenerates_challenge `{Viem} `{ChallengeGenerator}
    (s s' : server) (ag : agent) (matchId : string) (txHash apiKey : option string)
    (now payUuid : string) (body page : value) :
  post_match_join s ag matchId txHash now payUuid = (Json body, s') →
  get_match (store s') matchId apiKey = Json page →
  ∃ row shown ch,
    getMatch (store s') matchId = Some row ∧
    safeChallenge (challenge_data row) = Some shown ∧
    getprop page "challenge_data" = Some (VObj (wire_obj shown)) ∧
    (∀ k, k ∈ private_names → field k (wire_obj shown) = None) ∧
    regenerate_from_page page = Some ch ∧
    challenge_data row = wire_obj ch.
Proof.
  intros Hjoin Hpage.
  apply join_stores_generated in Hjoin
    as (m & row & ch & _ & _ & Hrow & Hgen & Hcd & _).
  destruct (get_match_fields _ _ _ _ _ Hrow Hpage)
    as (o & shown & -> & Hshown & Hfcd & Hfty & Hfseed).
  exists row, shown, ch. split; [done|]. split; [done|].
  split; [by cbn [getprop]; rewrite Hfcd|]. split.
  - intros k Hk. apply field_wire_None.
    by apply (proj1 (safeChallenge_spec _ _ Hshown)).
  - split; [|done]. unfold regenerate_from_page. rewrite Hfty, Hfseed.
    by destruct (challenge_seed row).
Qed.

Lemma plaintext_private : "plaintext" ∈ private_names.
Proof. unfold private_names. rewrite !elem_of_cons. auto. Qed.

Lemma match_page_regenerates_challenge_witness :
  ∃ body page row shown ch,
    @post_match_join sampleViem sampleEngine server_open bob "m1"
       (Some "0xpaid") "2026-01-01 10:00:00" "p2" = (Json body, server_joined) ∧
    get_match (store server_joined) "m1" None = Json page ∧
    getMatch (store server_joined) "m1" = Some row ∧
    safeChallenge (challenge_data row) = Some shown ∧
    getprop page "challenge_data" = Some (VObj (wire_obj shown)) ∧
    field "plaintext" (wire_obj shown) = None ∧
    @regenerate_from_page sampleEngine page = Some ch ∧
    challenge_data row = wire_obj ch ∧
    field "plaintext" ch = Some (VStr "ATTACK AT DAWN").
Proof.
  assert (Hjoin : ∃ body,
     @post_match_join sampleViem sampleEngine server_open bob "m1"
       (Some "0xpaid") "2026-01-01 10:00:00" "p2" = (Json body, server_joined))
    by (eexists; vm_compute; reflexivity).
  destruct Hjoin as [body Hjoin].
  assert (Hpage : ∃ page, get_match (store server_joined) "m1" None = Json page)
    by (eexists; vm_compute; reflexivity).
  destruct Hpage as [page Hpage].
  destruct (@match_page_regenerates_challenge sampleViem sampleEngine _ _ _ _ _
              None _ _ _ _ Hjoin Hpage)
    as (row & shown & ch & Hrow & Hshown & Hcd & Hpriv & Hregen & Hstored).
  exists body, page, row, shown, ch.
  repeat (split; [assumption|]).
  split; [apply Hpriv; apply plaintext_private|].
  split; [assumption|]. split; [assumption|].
  vm_compute in Hpage. injection Hpage as <-.
  vm_compute in Hregen. injection Hregen as <-. reflexivity.
Defined.

(** ** The code-puzzle judge *)

Lemma runCase_passes `{Isolate} (sh : Shape) (submission : string) (tc : TestCase) :
  fst (runCase sh submission tc) = true ↔ passes sh submission tc.
Proof.
  unfold runCase, passes. cbn [fst]. split.
  - destruct (execute sh submission (tc_in tc)) as [v| | | |]; try done.
    intros Hv. by exists v.
  - intros (v & -> & Hv). done.
Qed.

Lemma flags_all_pass `{Isolate} (sh : Shape) (submission : string)
    (tests : list TestCase) :
  forallb (fun b => b) (map fst (map (runCase sh submission) tests)) = true ↔
  Forall (passes sh submission) tests.
Proof.
  induction tests as [|tc tests IH]; cbn [map forallb].
  - split; [constructor|done].
  - rewrite andb_true_iff, IH, runCase_passes. split.
    + intros [? ?]. by constructor.
    + intros Hall. by apply Forall_cons in Hall.
Qed.

Lemma validateCode_accepted `{Isolate} (tests : list TestCase)
    (submission : string) (sh : Shape) :
  acceptedAs submission sh →
  fst (validateCode tests submission) =
    let flags := map fst (map (runCase sh submission) tests) in
    if forallb (fun b => b) flags
    then {| vr_valid := true; vr_score := 100 + lengthBonus submission;
            vr_perCaseDetail := Some flags |}
    else {| vr_valid := false; vr_score := 0; vr_perCaseDetail := Some flags |}.
Proof.
  intros [Hclean Hshape]. unfold validateCode, judge.
  rewrite Hclean, Hshape. cbn [fst]. by destruct (forallb _ _).
Qed.

Lemma validateCode_refused `{Isolate} (tests : list TestCase) (submission : string) :
  (∀ sh, ¬ acceptedAs submission sh) →
  validateCode tests submission =
    ({| vr_valid := false; vr_score := 0; vr_perCaseDetail := None |}, []).
Proof.
  intros Hno. unfold validateCode, judge.
  destruct (denylisted submission) eqn:Hd; [done|].
  destruct (List.find _ shapes) as [sh|] eqn:Hf; [|done].
  by destruct (Hno sh).
Qed.

(** C3.  For every code-puzzle submission: when every hidden test case
    passes, the submission is valid and scores 100 plus the length bonus
    max (10, 200 - characterCount (submission)); when a test case fails
    (or the submission never reaches the isolate) it is invalid and
    scores exactly 0; and of two submissions that pass every case the
    shorter one scores at least as much as the longer. *)
Theorem code_puzzle_scoring `{Isolate} (tests : list TestCase) :
  (∀ submission sh,
     acceptedAs submission sh → Forall (passes sh submission) tests →
     vr_valid (fst (validateCode tests submission)) = true ∧
     vr_score (fst (validateCode tests submission)) =
       (100 + Z.max 10 (200 - Z.of_nat (String.length submission)))%Z) ∧
  (∀ submission,
     (∀ sh, acceptedAs submission sh →
            Exists (fun tc => ¬ passes sh submission tc) tests) →
     vr_valid (fst (validateCode tests submission)) = false ∧
     vr_score (fst (validateCode tests submission)) = 0%Z) ∧
  (∀ A B shA shB,
     acceptedAs A shA → Forall (passes shA A) tests →
     acceptedAs B shB → Forall (passes shB B) tests →
     (String.length A < String.length B)%nat →
     (vr_score (fst (validateCode tests A)) >=
      vr_score (fst (validateCode tests B)))%Z).
Proof.
  assert (Hpass : ∀ submission sh,
     acceptedAs submission sh → Forall (passes sh submission) tests →
     vr_valid (fst (validateCode tests submission)) = true ∧
     vr_score (fst (validateCode tests submission)) =
       (100 + Z.max 10 (200 - Z.of_nat (String.length submission)))%Z).
  { intros submission sh Hacc Hall.
    rewrite (validateCode_accepted tests submission sh Hacc). cbv zeta.
    apply flags_all_pass in Hall. by rewrite Hall. }
  split; [exact Hpass|]. split.
  - intros submission Hfail.
    destruct (denylisted submission) eqn:Hd.
    { rewrite validateCode_refused; [done|]. intros sh [Hc _]. congruence. }
    destruct (List.find (fun sh => parses sh submission) shapes) as [sh|] eqn:Hf.
    + assert (Hacc : acceptedAs submission sh) by done.
      rewrite (validateCode_accepted tests submission sh Hacc). cbv zeta.
      destruct (forallb _ _) eqn:Hall; [|done].
      apply flags_all_pass in Hall. specialize (Hfail sh Hacc).
      apply Exists_exists in Hfail as (tc & Hin & Hnot).
      rewrite Forall_forall in Hall. by destruct (Hnot (Hall tc Hin)).
    + rewrite validateCode_refused; [done|]. intros sh [_ Hs]. congruence.
  - intros A B shA shB HaccA HallA HaccB HallB Hlen.
    destruct (Hpass A shA HaccA HallA) as [_ ->].
    destruct (Hpass B shB HaccB HallB) as [_ ->]. lia.
Qed.

Lemma code_puzzle_scoring_witness :
  vr_score (fst (@validateCode sampleIsolate doubling_tests "n*2")) = 297%Z ∧
  vr_valid (fst (@validateCode sampleIsolate doubling_tests "n*3")) = false ∧
  vr_score (fst (@validateCode sampleIsolate doubling_tests "n*3")) = 0%Z ∧
  (vr_score (fst (@validateCode sampleIsolate doubling_tests "n*2")) >=
   vr_score (fst (@validateCode sampleIsolate doubling_tests "n+n+0")))%Z.
Proof.
  destruct (@code_puzzle_scoring sampleIsolate doubling_tests)
    as (Hpass & Hfail & Hmono).
  assert (HaccA : @acceptedAs sampleIsolate "n*2" BareExpression) by done.
  assert (HaccB : @acceptedAs sampleIsolate "n+n+0" BareExpression) by done.
  assert (HallA : Forall (@passes sampleIsolate BareExpression "n*2") doubling_tests).
  { repeat constructor; eexists; split; reflexivity. }
  assert (HallB : Forall (@passes sampleIsolate BareExpression "n+n+0") doubling_tests).
  { repeat constructor; eexists; split; reflexivity. }
  split; [exact (proj2 (Hpass _ _ HaccA HallA))|].
  assert (HfailC : ∀ sh, @acceptedAs sampleIsolate "n*3" sh →
            Exists (fun tc => ¬ @passes sampleIsolate sh "n*3" tc) doubling_tests).
  { intros sh _. apply Exists_cons_hd. intros (v & Hrun & _). discriminate. }
  split; [exact (proj1 (Hfail _ HfailC))|].
  split; [exact (proj2 (Hfail _ HfailC))|].
  apply (Hmono _ _ _ _ HaccA HallA HaccB HallB). simpl. lia.
Defined.

(** ** The static filter *)

Lemma startsWith_app (p s : string) : startsWith p (p +:+ s) = true.
Proof.
  induction p as [|c p IH]; [done|].
  change ((String c p) +:+ s) with (String c (p +:+ s)).
  cbn [startsWith]. by rewrite Ascii.eqb_refl.
Qed.

Lemma includes_app (p pre post : string) :
  includes p (pre +:+ p +:+ post) = true.
Proof.
  induction pre as [|c pre IH].
  - change (EmptyString +:+ p +:+ post) with (p +:+ post).
    destruct (p +:+ post) eqn:E; cbn [includes]; rewrite <- E;
      by rewrite startsWith_app.
  - change ((String c pre) +:+ p +:+ post) with (String c (pre +:+ p +:+ post)).
    cbn [includes]. rewrite IH. apply orb_true_r.
Qed.

Lemma existsb_elem {A} (f : A → bool) (l : list A) (x : A) :
  x ∈ l → f x = true → existsb f l = true.
Proof.
  intros Hin Hf. apply existsb_exists. exists x. split; [|done].
  by apply list_elem_of_In.
Qed.

(** Every run the judge logs is a run of the submission as submitted. *)
Lemma judge_runs_verbatim `{Isolate} (tests : list TestCase) (submission : string)
    (e : Execution) :
  e ∈ snd (judge tests submission) → ex_code e = submission.
Proof.
  unfold judge. destruct (denylisted submission).
  { cbn [snd]. by intros ?%elem_of_nil. }
  destruct (List.find _ shapes) as [sh|].
  - cbn [snd]. rewrite <- !list_fmap_compose.
    intros (tc & -> & _)%list_elem_of_fmap. done.
  - cbn [snd]. by intros ?%elem_of_nil.
Qed.

(** C4.  A code-puzzle submission that contains a blocked keyword
    anywhere is answered valid = false, score = 0 with the isolate's log
    empty: it is refused before any execution.  Nothing is ever run in
    place of a submission: whatever the judge runs, for any submission,
    is the submitted text itself. *)
Theorem denylist_short_circuit `{Catalogue} `{Isolate} `{Digest}
    (tests : list TestCase) :
  (∀ token pre post,
     token ∈ denylist → denylisted (pre +:+ token +:+ post) = true) ∧
  (∀ submission,
     denylisted submission = true →
     validate (ExpectedKey tests) submission =
       ({| vr_valid := false; vr_score := 0; vr_perCaseDetail := None |}, [])) ∧
  (∀ submission e,
     e ∈ snd (validate (ExpectedKey tests) submission) →
     ex_code e = submission).
Proof.
  split; [|split].
  - intros token pre post Hin. unfold denylisted.
    apply (existsb_elem _ _ token Hin). apply includes_app.
  - intros submission Hd. cbn [validate]. unfold validateCode, judge.
    by rewrite Hd.
  - intros submission e. cbn [validate]. unfold validateCode.
    pose proof (judge_runs_verbatim tests submission e) as Hj.
    destruct (judge tests submission) as [flags log]. exact Hj.
Qed.

Lemma denylist_short_circuit_witness :
  denylisted ("return " +:+ "require" +:+ "('fs')") = true ∧
  @validate sampleCatalogue sampleIsolate sampleDigest
     (ExpectedKey doubling_tests) "process.exit();n*2" =
    ({| vr_valid := false; vr_score := 0; vr_perCaseDetail := None |}, []) ∧
  Forall (fun e => ex_code e = "n*2")
         (snd (@validate sampleCatalogue sampleIsolate sampleDigest
                 (ExpectedKey doubling_tests) "n*2")) ∧
  length (snd (@validate sampleCatalogue sampleIsolate sampleDigest
                 (ExpectedKey doubling_tests) "n*2")) = 3%nat.
Proof.
  destruct (@denylist_short_circuit sampleCatalogue sampleIsolate sampleDigest
              doubling_tests) as (Htok & Hshort & Hverb).
  split.
  { apply Htok. unfold denylist. apply list_elem_of_here. }
  split; [apply Hshort; reflexivity|]. split; [|reflexivity].
  apply Forall_forall. intros e He. by apply Hverb.
Defined.

(** ** Totality of generation *)
























(** ** Determinism of generation *)

Section Alike.
Context (D1 D2 : SeededStream) (seed : string).
Hypothesis Hagree : agree_on seed D1 D2.

Lemma alike_gret {A} (a : A) : alike_on seed (gret a) (gret a).
Proof. intros st Hst. split; [done|]. by intros ? ? [= _ <-]. Qed.

Lemma alike_glift {A} (o : option A) : alike_on seed (glift o) (glift o).
Proof.
  intros st Hst. split; [done|]. unfold glift.
  destruct o; [|done]. by intros ? ? [= _ <-].
Qed.

Lemma alike_gnext : alike_on seed (@gnext D1) (@gnext D2).
Proof.
  intros st Hst. unfold gnext, next. rewrite Hst, Hagree.
  split; [done|]. by intros ? ? [= _ <-].
Qed.

Lemma alike_gbind {A B} (m1 m2 : Gen A) (k1 k2 : A → Gen B) :
  alike_on seed m1 m2 → (∀ a, alike_on seed (k1 a) (k2 a)) →
  alike_on seed (gbind m1 k1) (gbind m2 k2).
Proof.
  intros Hm Hk st Hst. unfold gbind.
  destruct (Hm st Hst) as [<- Hstay].
  destruct (m1 st) as [[a st1]|]; [|done].
  apply Hk. by apply (Hstay a).
Qed.

Lemma alike_nextBelow (n : N) :
  alike_on seed (@nextBelow D1 n) (@nextBelow D2 n).
Proof.
  unfold nextBelow. destruct (N.eqb n 0); [apply alike_glift|].
  apply alike_gbind; [apply alike_gnext|]. intros r. apply alike_gret.
Qed.

Lemma alike_pick {A} (l : list A) : alike_on seed (@pick D1 A l) (@pick D2 A l).
Proof.
  unfold pick. apply alike_gbind; [apply alike_nextBelow|].
  intros i. apply alike_glift.
Qed.

Lemma alike_chainLength (d : Z) :
  alike_on seed (@chainLength D1 d) (@chainLength D2 d).
Proof.
  unfold chainLength. destruct (Z.leb d 3); [apply alike_gret|].
  apply alike_gbind; [apply alike_nextBelow|]. intros r. apply alike_gret.
Qed.

Context `{Catalogue}.

Lemma alike_drawKinds (d : Z) (k : nat) :
  alike_on seed (@drawKinds D1 _ d k) (@drawKinds D2 _ d k).
Proof.
  induction k as [|k IH]; cbn [drawKinds]; [apply alike_gret|].
  apply alike_gbind; [apply alike_pick|]. intros c.
  apply alike_gbind; [apply IH|]. intros cs. apply alike_gret.
Qed.

Lemma alike_applyChain (kinds : list CipherKind) (text : string) :
  alike_on seed (@applyChain D1 _ kinds text) (@applyChain D2 _ kinds text).
Proof.
  revert text. induction kinds as [|c cs IH]; intros text; cbn [applyChain].
  - apply alike_gret.
  - apply alike_gbind; [apply alike_gnext|]. intros r. apply IH.
Qed.

Lemma alike_genInstance (f : Family) (d : Z) :
  alike_on seed (@genInstance D1 _ f d) (@genInstance D2 _ f d).
Proof.
  destruct f; cbn [genInstance].
  - unfold genCipher.
    apply alike_gbind; [apply alike_pick|]. intros msg.
    apply alike_gbind; [apply alike_chainLength|]. intros k.
    apply alike_gbind; [apply alike_drawKinds|]. intros kinds.
    apply alike_gbind; [apply alike_applyChain|]. intros ct.
    apply alike_gret.
  - unfold genCode.
    apply alike_gbind; [apply alike_pick|]. intros p.
    apply alike_gbind; [apply alike_gnext|]. intros r.
    apply alike_gbind; [apply alike_glift|]. intros ex.
    apply alike_gbind; [apply alike_glift|]. intros tcs.
    apply alike_gret.
  - unfold genHash.
    apply alike_gbind; [apply alike_pick|]. intros kind.
    apply alike_gbind; [apply alike_gnext|]. intros r.
    apply alike_gret.
Qed.

Lemma alike_generateFrom (type : option Family) (d : Z) :
  alike_on seed (@generateFrom D1 _ type d) (@generateFrom D2 _ type d).
Proof.
  unfold generateFrom. apply alike_gbind.
  - destruct type; cbn [chooseFamily]; [apply alike_gret|apply alike_pick].
  - intros f. apply alike_gbind; [apply alike_genInstance|].
    intros inst. apply alike_gret.
Qed.

(** The challenge of a seed is decided by that seed's stream alone. *)
Lemma generate_alike (type : option Family) (d : Z) :
  @generate D1 _ type d seed = @generate D2 _ type d seed.
Proof.
  unfold generate.
  by destruct (alike_generateFrom type d (initState seed) eq_refl) as [-> _].
Qed.
End Alike.

Lemma request_alike (D1 D2 : SeededStream) `{Catalogue} (type : option string)
    (difficulty : option Z) (seed : option string) :
  (∀ sd, seed = Some sd → agree_on sd D1 D2) →
  @request D1 _ type difficulty seed = @request D2 _ type difficulty seed.
Proof.
  intros Hagree. unfold request. destruct seed as [sd|]; [|done].
  cbn [mbind option_bind]. specialize (Hagree sd eq_refl).
  destruct (_ && _); [|done].
  destruct type as [t|]; [|by apply generate_alike].
  destruct (parseFamily t) as [f|]; [|done].
  cbn [mbind option_bind]. by apply generate_alike.
Qed.

(** C2.  Generation is deterministic.  (1) For every (type, difficulty,
    seed), two independent generator instances that run the same stream
    for that seed produce the same result: byte-identical public
    payloads and identical private answer keys.  (2) A match joined on
    one instance can be regenerated later, on an independent instance,
    from the type and seed stored in its row: the result is the
    challenge the row holds. *)
Theorem challenges_reproducible `{Viem} `{Catalogue} `{Isolate} `{Digest}
    (D1 D2 : SeededStream) :
  (∀ type difficulty seed,
     agree_on seed D1 D2 →
     @generate D1 _ type difficulty seed = @generate D2 _ type difficulty seed ∧
     ∀ c1 c2,
       @generate D1 _ type difficulty seed = Some c1 →
       @generate D2 _ type difficulty seed = Some c2 →
       stringify (payload (publicProjection c1)) =
         stringify (payload (publicProjection c2)) ∧
       answerKey c1 = answerKey c2) ∧
  (∀ s s' ag matchId txHash now payUuid body row,
     @post_match_join _ (@engineGenerator D1 _ _ _) s ag matchId txHash now
        payUuid = (Json body, s') →
     getMatch (store s') matchId = Some row →
     (∀ sd, challenge_seed row = Some sd → agree_on sd D1 D2) →
     ∃ ch,
       @generateChallenge (@engineGenerator D2 _ _ _)
          (Some (challenge_type row)) 3 (challenge_seed row) = Some ch ∧
       challenge_data row = wire_obj ch).
Proof.
  split.
  - intros type difficulty seed Hagree.
    pose proof (generate_alike D1 D2 seed Hagree type difficulty) as Heq.
    split; [exact Heq|]. intros c1 c2 Hc1 Hc2.
    rewrite Heq, Hc2 in Hc1. by injection Hc1 as <-.
  - intros s s' ag matchId txHash now payUuid body row Hjoin Hrow Hagree.
    apply (@join_stores_generated _ (@engineGenerator D1 _ _ _)) in Hjoin
      as (m & row' & ch & _ & _ & Hrow' & Hgen & Hcd & _).
    rewrite Hrow in Hrow'. injection Hrow' as <-.
    exists ch. split; [|done]. rewrite <- Hgen. cbn [generateChallenge engineGenerator].
    f_equal. symmetry. by apply request_alike.
Qed.

Lemma challenges_reproducible_witness :
  agree_on "ab12" sampleStream otherStream ∧
  @generate sampleStream sampleCatalogue (Some CodePuzzle) 3 "ab12" =
    @generate otherStream sampleCatalogue (Some CodePuzzle) 3 "ab12" ∧
  ∃ row ch,
    getMatch (store server_joined) "m1" = Some row ∧
    @generateChallenge
       (@engineGenerator otherStream sampleCatalogue sampleIsolate sampleDigest)
       (Some (challenge_type row)) 3 (challenge_seed row) = Some ch ∧
    challenge_data row = wire_obj ch.
Proof.
  assert (Hagree : agree_on "ab12" sampleStream otherStream) by (intros n; reflexivity).
  destruct (@challenges_reproducible sampleViem sampleCatalogue sampleIsolate
              sampleDigest sampleStream otherStream) as [Hgen Hjoin].
  split; [exact Hagree|].
  split; [exact (proj1 (Hgen (Some CodePuzzle) 3%Z "ab12" Hagree))|].
  assert (Hrow : is_Some (getMatch (store server_joined) "m1"))
    by (vm_compute; eauto).
  destruct Hrow as [row Hrow]. exists row.
  assert (Hj : ∃ body,
     @post_match_join sampleViem sampleEngine server_open bob "m1"
       (Some "0xpaid") "2026-01-01 10:00:00" "p2" = (Json body, server_joined))
    by (eexists; vm_compute; reflexivity).
  destruct Hj as [body Hj].
  destruct (Hjoin _ _ _ _ _ _ _ _ row Hj Hrow) as (ch & Hch & Hcd).
  - intros sd Hsd. vm_compute in Hrow. injection Hrow as <-.
    injection Hsd as <-. exact Hagree.
  - exists ch. split; [exact Hrow|]. by split.
Defined.

(** The profile and battles pages spread the row in the same way: next
    to the projected challenge they carry the row's type and seed. *)
Lemma safeMatch_fields (d : db) (m : match_row) (v : value) :
  safeMatch d m = Some v →
  ∃ cd,
    safe_cd (challenge_data m) = Some cd ∧
    getprop (wire v) "challenge_data" = Some (VObj (wire_obj cd)) ∧
    getprop (wire v) "challenge_type" = Some (VStr (challenge_type m)) ∧
    getprop (wire v) "challenge_seed" = Some (opt_str (challenge_seed m)).
Proof.
  unfold safeMatch. destruct (safe_cd (challenge_data m)) as [cd|]; [|done].
  cbn [mbind option_bind]. intros Hv.
  apply (f_equal (from_option (fun x => x) VNull)) in Hv.
  cbv beta iota delta [from_option] in Hv. subst v. exists cd. split; [done|].
  change (wire (VObj ?o)) with (VObj (wire_obj o)). cbn [getprop].
  split; [|split].
  - rewrite (field_wire_Some _ _ (VObj cd)); [done| |done].
    apply field_put_eq.
  - rewrite (field_wire_Some _ _ (VStr (challenge_type m))); [done| |done].
    rewrite field_put_ne by discriminate. reflexivity.
  - rewrite (field_wire_Some _ _ (opt_str (challenge_seed m)));
      [by destruct (challenge_seed m)| |by destruct (challenge_seed m)].
    rewrite field_put_ne by discriminate. reflexivity.
Qed.

(** So does the active-match page. *)
Lemma activeMatch_fields (d : db) (m : match_row) (v : value) :
  activeMatch d m = Some v →
  ∃ cd,
    safe_cd (challenge_data m) = Some cd ∧
    getprop (wire v) "challenge_data" = Some (VObj (wire_obj cd)) ∧
    getprop (wire v) "challenge_type" = Some (VStr (challenge_type m)) ∧
    getprop (wire v) "challenge_seed" = Some (opt_str (challenge_seed m)).
Proof.
  unfold activeMatch. destruct (safe_cd (challenge_data m)) as [cd|]; [|done].
  cbn [mbind option_bind]. intros Hv.
  apply (f_equal (from_option (fun x => x) VNull)) in Hv.
  cbv beta iota delta [from_option] in Hv. subst v. exists cd. split; [done|].
  change (wire (VObj ?o)) with (VObj (wire_obj o)). cbn [getprop].
  split; [|split].
  - rewrite (field_wire_Some _ _ (VObj cd)); [done| |done].
    rewrite field_put_ne by discriminate. apply field_put_eq.
  - rewrite (field_wire_Some _ _ (VStr (challenge_type m))); [done| |done].
    rewrite !field_put_ne by discriminate. reflexivity.
  - rewrite (field_wire_Some _ _ (opt_str (challenge_seed m)));
      [by destruct (challenge_seed m)| |by destruct (challenge_seed m)].
    rewrite !field_put_ne by discriminate. reflexivity.
Qed.

(** * More of the server: submissions, payments, registration *)
(** ** Completing a match, row by row *)

(** [completeMatch] never touches submissions or payments. *)
Lemma completeMatch_tables `{EloArithmetic} (d : db) (now matchId : string)
    (winnerId : option string) :
  submissions (after (completeMatch d now matchId winnerId)) = submissions d ∧
  payments (after (completeMatch d now matchId winnerId)) = payments d.
Proof.
  unfold completeMatch, updateELO.
  set (d1 := with_matches d _).
  destruct (getMatch d1 matchId) as [m|]; [|done].
  destruct (negb _); [done|].
  destruct (getAgent d1 (agent1_id m)) as [a1|]; [|done].
  destruct (getAgent d1 (agent2_id m)) as [a2|]; [|done].
  cbn [mbind option_bind].
  destruct (newRatings _ _ _) as [n1 n2].
  by destruct (match _ with Draw => _ | _ => _ end) as [c1 c2].
Qed.

(** What [completeMatch] does to the rows of [matches]: the row of the
    match is completed with the winner given, its ELO columns may be
    rewritten, and every other row stays as it is. *)
Lemma completeMatch_rows `{EloArithmetic} (d : db) (now matchId : string)
    (winnerId : option string) (i : string) :
  match matches d !! i with
  | None => matches (after (completeMatch d now matchId winnerId)) !! i = None
  | Some m =>
      ∃ m', matches (after (completeMatch d now matchId winnerId)) !! i = Some m' ∧
            agent1_id m' = agent1_id m ∧ agent2_id m' = agent2_id m ∧
            is_practice m' = is_practice m ∧
            winner_payout_wei m' = winner_payout_wei m ∧
            (i ≠ matchId → m' = m) ∧
            (i = matchId → status m' = "completed" ∧ winner_id m' = winnerId)
  end.
Proof.
  assert (Hd1 : ∀ f g : match_row → match_row,
    (∀ r, agent1_id (g r) = agent1_id r ∧ agent2_id (g r) = agent2_id r ∧
          is_practice (g r) = is_practice r ∧
          winner_payout_wei (g r) = winner_payout_wei r ∧
          status (g r) = status r ∧ winner_id (g r) = winner_id r) →
    match matches d !! i with
    | None => alter g matchId (alter (fun r => set_completed r winnerId now)
                                     matchId (matches d)) !! i = None
    | Some m =>
        ∃ m', alter g matchId (alter (fun r => set_completed r winnerId now)
                                     matchId (matches d)) !! i = Some m' ∧
              agent1_id m' = agent1_id m ∧ agent2_id m' = agent2_id m ∧
              is_practice m' = is_practice m ∧
              winner_payout_wei m' = winner_payout_wei m ∧
              (i ≠ matchId → m' = m) ∧
              (i = matchId → status m' = "completed" ∧ winner_id m' = winnerId)
    end).
  { intros _ g Hg. destruct (decide (i = matchId)) as [->|Hne].
    - rewrite !lookup_alter_eq. destruct (matches d !! matchId) as [m|]; [|done].
      exists (g (set_completed m winnerId now)). split; [done|].
      destruct (Hg (set_completed m winnerId now)) as (E1 & E2 & E3 & E4 & E5 & E6).
      rewrite E1, E2, E3, E4, E5, E6. by repeat split.
    - rewrite !lookup_alter_ne by done.
      destruct (matches d !! i) as [m|]; [|done]. exists m. by repeat split. }
  unfold completeMatch, updateELO. set (d1 := with_matches d _).
  assert (Hid : ∀ r : match_row,
    agent1_id r = agent1_id r ∧ agent2_id r = agent2_id r ∧
    is_practice r = is_practice r ∧ winner_payout_wei r = winner_payout_wei r ∧
    status r = status r ∧ winner_id r = winner_id r) by done.
  pose proof (Hd1 (fun r => r) (fun r => r) Hid) as Hplain.
  assert (Halt : alter (fun r : match_row => r) matchId
                   (alter (fun r => set_completed r winnerId now) matchId (matches d))
                 = alter (fun r => set_completed r winnerId now) matchId (matches d)).
  { apply map_eq. intros j. destruct (decide (j = matchId)) as [->|Hne].
    - rewrite lookup_alter_eq. by destruct (alter _ _ _ !! matchId).
    - by rewrite lookup_alter_ne. }
  rewrite Halt in Hplain.
  destruct (getMatch d1 matchId) as [m|]; [|exact Hplain].
  destruct (negb _); [exact Hplain|].
  destruct (getAgent d1 (agent1_id m)) as [a1|]; [|exact Hplain].
  destruct (getAgent d1 (agent2_id m)) as [a2|]; [|exact Hplain].
  cbn [mbind option_bind].
  destruct (newRatings _ _ _) as [n1 n2].
  destruct (match _ with Draw => _ | _ => _ end) as [c1 c2].
  cbn [after matches update_agent with_agents with_matches d1].
  by apply (Hd1 (fun r => r)).
Qed.

(** ** Submitting a solution *)

Lemma submitSolution_spec (d : db) (uuid now matchId agentId solution : string)
    (d1 : db) (i : string) :
  submitSolution d uuid now matchId agentId solution = Some (d1, i) →
  i = uuid ∧ (uuid ∉ map sub_id (submissions d)) ∧
  submissions d1 =
    (submissions d ++
     [{| sub_id := uuid; sub_match_id := matchId; sub_agent_id := agentId;
         sub_solution := solution; sub_correct := false; sub_score := 0;
         sub_submitted_at := now |}])%list ∧
  matches d1 = matches d ∧ agents d1 = agents d ∧ payments d1 = payments d.
Proof.
  unfold submitSolution. case_bool_decide as Hex; [done|].
  intros [= <- <-]. split; [done|]. split; [|done].
  intros Hin. apply Hex. apply list_elem_of_fmap in Hin as (sub & Hid & Hsub).
  apply Exists_exists. by exists sub.
Qed.

(** The submissions after the verdict was settled: those before, the
    new one marked or not; and the matches: as they were, or the match
    completed. *)
Lemma submit_settle_tables `{EloArithmetic} (d1 : db) (ag : agent)
    (m : match_row) (matchId submissionId now : string) (v : validation) :
  let d' := snd (submit_settle d1 ag m matchId submissionId now v) in
  submissions d' =
    (if valid v then map (mark_correct submissionId (score v)) (submissions d1)
     else submissions d1) ∧
  payments d' = payments d1 ∧
  (matches d' = matches d1 ∧ agents d' = agents d1 ∨
   valid v = true ∧
   d' = after (completeMatch (markSubmissionCorrect d1 submissionId (score v))
                             now matchId (Some (agent_id ag)))).
Proof.
  unfold submit_settle. destruct (valid v).
  - set (d2 := markSubmissionCorrect d1 submissionId (score v)).
    pose proof (completeMatch_tables d2 now matchId (Some (agent_id ag)))
      as [Hsub Hpay].
    destruct (practice m).
    + destruct (resolved _); cbn [snd]; rewrite Hsub, Hpay; eauto.
    + destruct (_ =? _)%nat; [|cbn [snd]; eauto].
      destruct (resolved _); cbn [snd]; rewrite Hsub, Hpay; eauto.
  - destruct (practice m); cbn [snd]; eauto.
Qed.

(** An accepted submission, step by step. *)
Lemma submit_anatomy `{ChallengeGenerator} `{EloArithmetic} (s : server)
    (ag : agent) (matchId : string) (solution : option string)
    (uuid now : string) (body : value) (s' : server) (effs : list effect) :
  post_match_submit s ag matchId solution uuid now = (Json body, s', effs) →
  ∃ m text d1 l d',
    solution = Some text ∧ text ≠ EmptyString ∧
    getMatch (store s) matchId = Some m ∧ status m = "active" ∧
    (agent1_id m = agent_id ag ∨ agent2_id m = agent_id ag) ∧
    ((matchId, agent_id ag) ∉ attempts (store s)) ∧
    submitSolution (store s) uuid now matchId (agent_id ag) text = Some (d1, uuid) ∧
    submit_settle d1 ag m matchId uuid now
      (validateSolution (challenge_data m) text) = (Some l, d') ∧
    s' = with_store s d' ∧
    body = submit_ok (validateSolution (challenge_data m) text) uuid ∧
    effs = (l ++ [solution_submitted matchId ag
                    (validateSolution (challenge_data m) text)])%list.
Proof.
  unfold post_match_submit.
  destruct solution as [text|]; [|done]. cbn [opt_truthy].
  destruct (String.eqb_spec text EmptyString) as [|Hne]; [done|].
  destruct (getMatch (store s) matchId) as [m|]; [|done].
  destruct (String.eqb_spec (status m) "active") as [Hst|]; [|done].
  cbn [negb].
  destruct (negb (String.eqb (agent1_id m) (agent_id ag))
            && negb (String.eqb (agent2_id m) (agent_id ag))) eqn:Hpart; [done|].
  destruct (existsb _ _) eqn:Hex; [done|].
  destruct (submitSolution _ _ _ _ _ _) as [[d1 i]|] eqn:Hsub; [|done].
  destruct (submitSolution_spec _ _ _ _ _ _ _ _ Hsub) as (-> & _).
  destruct (submit_settle _ _ _ _ _ _ _) as [[l|] d'] eqn:Hset; [|done].
  intros [= <- <- <-]. exists m, text, d1, l, d'.
  repeat split; try done.
  - apply andb_false_iff in Hpart as [Hp|Hp]; apply negb_false_iff in Hp;
      apply String.eqb_eq in Hp; eauto.
  - intros Hin. apply list_elem_of_fmap in Hin as (sub & [= Hm Ha] & Hin).
    assert (Hx : existsb (fun sub => String.eqb (sub_agent_id sub) (agent_id ag))
                   (getMatchSubmissions (store s) matchId) = true); [|congruence].
    apply existsb_exists. exists sub. split; [|by apply String.eqb_eq].
    apply list_elem_of_In, list_elem_of_filter. split; [|done].
    by apply bool_decide_pack.
Qed.

(** X1.  A submission is accepted only when it is not empty and comes from
    a participant of an active match who has not answered that match
    yet; the answer carries the engine's verdict on it. *)
Lemma submit_accepted_only_if `{ChallengeGenerator} `{EloArithmetic} (s : server)
    (ag : agent) (matchId : string) (solution : option string)
    (uuid now : string) (body : value) (s' : server) (effs : list effect) :
  post_match_submit s ag matchId solution uuid now = (Json body, s', effs) →
  ∃ m text,
    solution = Some text ∧ text ≠ EmptyString ∧
    getMatch (store s) matchId = Some m ∧ status m = "active" ∧
    (agent1_id m = agent_id ag ∨ agent2_id m = agent_id ag) ∧
    ((matchId, agent_id ag) ∉ attempts (store s)) ∧
    body = submit_ok (validateSolution (challenge_data m) text) uuid.
Proof.
  intros Hrun.
  destruct (submit_anatomy _ _ _ _ _ _ _ _ _ Hrun)
    as (m & text & d1 & l & d' & ? & ? & ? & ? & ? & ? & _ & _ & _ & ? & _).
  by exists m, text.
Qed.

(** X2.  A submission refused with a 4xx status writes nothing and starts
    nothing: no row, no broadcast, no timer, no payout. *)
Lemma submit_refusal_writes_nothing `{ChallengeGenerator} `{EloArithmetic}
    (s : server) (ag : agent) (matchId : string) (solution : option string)
    (uuid now : string) (code : Z) (e : string) (s' : server)
    (effs : list effect) :
  post_match_submit s ag matchId solution uuid now = (Error code e, s', effs) →
  code ≠ 500 → s' = s ∧ effs = [].
Proof.
  unfold post_match_submit.
  destruct (opt_truthy solution) as [text|]; [|by intros [= <- <- <- <-]].
  destruct (getMatch (store s) matchId) as [m|]; [|by intros [= <- <- <- <-]].
  destruct (negb (String.eqb (status m) "active")); [by intros [= <- <- <- <-]|].
  destruct (_ && _); [by intros [= <- <- <- <-]|].
  destruct (existsb _ _); [by intros [= <- <- <- <-]|].
  destruct (submitSolution _ _ _ _ _ _) as [[d1 i]|].
  - destruct (submit_settle _ _ _ _ _ _ _) as [[l|] d']; [done|].
    by intros [= <- <- <- <-].
  - by intros [= <- <- <- <-].
Qed.

Lemma submit_refusal_writes_nothing_witness :
  snd (fst (@post_match_submit sampleEngine sampleElo server_joined alice
              "no-such-match" (Some "ATTACK AT DAWN") "s1" "2026-01-01 10:01:00"))
    = server_joined ∧
  snd (@post_match_submit sampleEngine sampleElo server_joined alice
         "no-such-match" (Some "ATTACK AT DAWN") "s1" "2026-01-01 10:01:00") = [].
Proof.
  assert (Hrun : ∃ s' effs,
    @post_match_submit sampleEngine sampleElo server_joined alice
      "no-such-match" (Some "ATTACK AT DAWN") "s1" "2026-01-01 10:01:00"
    = (Error 404 "Match not found", s', effs))
    by (eexists _, _; vm_compute; reflexivity).
  destruct Hrun as (s' & effs & Hrun).
  destruct (@submit_refusal_writes_nothing sampleEngine sampleElo _ _ _ _ _ _ _ _
              _ _ Hrun ltac:(lia)) as [-> ->].
  rewrite Hrun. cbn [fst snd]. split; reflexivity.
Defined.

Lemma mark_correct_keeps (i : string) (sc : Z) (sub : submission) :
  sub_id (mark_correct i sc sub) = sub_id sub ∧
  sub_match_id (mark_correct i sc sub) = sub_match_id sub ∧
  sub_agent_id (mark_correct i sc sub) = sub_agent_id sub.
Proof. unfold mark_correct. by destruct (String.eqb _ _). Qed.

Lemma mark_correct_fresh (i : string) (sc : Z) (l : list submission) :
  i ∉ map sub_id l → map (mark_correct i sc) l = l.
Proof.
  induction l as [|sub l IH]; [done|]. cbn [map]. intros Hin.
  apply not_elem_of_cons in Hin as [Hne Hin]. rewrite IH by done.
  unfold mark_correct at 1.
  destruct (String.eqb_spec (sub_id sub) i) as [Heq|]; [by subst|done].
Qed.

Lemma attempts_marked (d : db) (i : string) (sc : Z) :
  attempts (markSubmissionCorrect d i sc) = attempts d.
Proof.
  unfold attempts, markSubmissionCorrect. cbn [submissions with_submissions].
  rewrite map_map. apply map_ext. intros sub.
  by destruct (mark_correct_keeps i sc sub) as (_ & -> & ->).
Qed.

(** The attempts after a submission was settled. *)
Lemma submit_settle_attempts `{EloArithmetic} (d1 : db) (ag : agent)
    (m : match_row) (matchId submissionId now : string) (v : validation) :
  attempts (snd (submit_settle d1 ag m matchId submissionId now v)) = attempts d1.
Proof.
  destruct (submit_settle_tables d1 ag m matchId submissionId now v) as (Hs & _).
  unfold attempts at 1. rewrite Hs. destruct (valid v); [|done].
  apply (attempts_marked d1).
Qed.

(** The row of a match after a submission was settled keeps its two
    agents. *)
Lemma submit_settle_row `{EloArithmetic} (d1 : db) (ag : agent)
    (m0 : match_row) (matchId submissionId now : string) (v : validation)
    (m : match_row) :
  matches d1 !! matchId = Some m →
  ∃ m', matches (snd (submit_settle d1 ag m0 matchId submissionId now v))
          !! matchId = Some m' ∧
        agent1_id m' = agent1_id m ∧ agent2_id m' = agent2_id m.
Proof.
  intros Hm.
  destruct (submit_settle_tables d1 ag m0 matchId submissionId now v)
    as (_ & _ & [[-> _]|[_ ->]]); [by exists m|].
  pose proof (completeMatch_rows (markSubmissionCorrect d1 submissionId (score v))
                now matchId (Some (agent_id ag)) matchId) as Hrow.
  cbn [markSubmissionCorrect matches with_submissions] in Hrow.
  rewrite Hm in Hrow. destruct Hrow as (m' & Hm' & H1 & H2 & _).
  by exists m'.
Qed.

(** X3.  One attempt: once an agent's submission to a match was accepted,
    right or wrong, every further submission of that agent to that
    match is refused with status 400 and changes nothing. *)
Lemma submit_one_attempt `{ChallengeGenerator} `{EloArithmetic} (s : server)
    (ag : agent) (matchId : string) (solution : option string)
    (uuid now : string) (body : value) (s' : server) (effs : list effect) :
  post_match_submit s ag matchId solution uuid now = (Json body, s', effs) →
  ∀ solution' uuid' now',
    ∃ e, post_match_submit s' ag matchId solution' uuid' now'
         = (Error 400 e, s', []).
Proof.
  intros Hrun.
  destruct (submit_anatomy _ _ _ _ _ _ _ _ _ Hrun)
    as (m & text & d1 & l & d' & _ & _ & Hm & _ & Hpart & _ & Hsub & Hset
        & -> & _ & _).
  apply submitSolution_spec in Hsub as (_ & _ & Hsubs & Hmatches & _).
  pose proof (submit_settle_attempts d1 ag m matchId uuid now
                (validateSolution (challenge_data m) text)) as Hatt.
  assert (Hm1 : matches d1 !! matchId = Some m) by (by rewrite Hmatches).
  pose proof (submit_settle_row d1 ag m matchId uuid now
                (validateSolution (challenge_data m) text) m Hm1)
    as (m' & Hm' & Ha1 & Ha2).
  rewrite Hset in Hatt, Hm'. cbn [snd] in Hatt, Hm'.
  intros solution' uuid' now'.
  unfold post_match_submit. cbn [store with_store].
  destruct (opt_truthy solution') as [text'|]; [|by eexists].
  unfold getMatch. rewrite Hm'.
  destruct (negb (String.eqb (status m') "active")); [by eexists|].
  rewrite Ha1, Ha2.
  assert (Hp : negb (String.eqb (agent1_id m) (agent_id ag))
               && negb (String.eqb (agent2_id m) (agent_id ag)) = false).
  { destruct Hpart as [->| ->]; rewrite String.eqb_refl;
      [done|by rewrite andb_false_r]. }
  rewrite Hp.
  assert (Hex : existsb (fun sub => String.eqb (sub_agent_id sub) (agent_id ag))
                  (getMatchSubmissions d' matchId) = true).
  { assert (Hin : (matchId, agent_id ag) ∈ attempts d').
    { rewrite Hatt. unfold attempts. rewrite Hsubs, map_app.
      apply elem_of_app. right. apply list_elem_of_here. }
    apply list_elem_of_fmap in Hin as (sub & [= Hsm Hsa] & Hsub).
    apply existsb_exists. exists sub. split; [|by apply String.eqb_eq].
    apply list_elem_of_In, list_elem_of_filter. split; [|done].
    by apply bool_decide_pack. }
  rewrite Hex. by eexists.
Qed.

Lemma submit_accepted_only_if_witness :
  ∃ m, getMatch (store server_joined) "m1" = Some m ∧ status m = "active" ∧
       (agent1_id m = "b" ∨ agent2_id m = "b") ∧
       (("m1", "b") ∉ attempts (store server_joined)).
Proof.
  assert (Hrun : ∃ body effs,
    @post_match_submit sampleEngine sampleElo server_joined bob "m1"
      (Some "ATTACK AT DAWN") "s1" "2026-01-01 10:01:00"
    = (Json body, server_won, effs))
    by (eexists _, _; vm_compute; reflexivity).
  destruct Hrun as (body & effs & Hrun).
  destruct (@submit_accepted_only_if sampleEngine sampleElo _ _ _ _ _ _ _ _ _ Hrun)
    as (m & text & _ & _ & Hm & Hst & Hpart & Hatt & _).
  exists m. split; [exact Hm|]. split; [exact Hst|]. split; [exact Hpart|].
  exact Hatt.
Defined.

Lemma submit_one_attempt_witness :
  ∃ e, @post_match_submit sampleEngine sampleElo server_won bob "m1"
         (Some "ATTACK AT DAWN") "s2" "2026-01-01 10:02:00"
       = (Error 400 e, server_won, []).
Proof.
  assert (Hrun : ∃ body effs,
    @post_match_submit sampleEngine sampleElo server_joined bob "m1"
      (Some "ATTACK AT DAWN") "s1" "2026-01-01 10:01:00"
    = (Json body, server_won, effs))
    by (eexists _, _; vm_compute; reflexivity).
  destruct Hrun as (body & effs & Hrun).
  exact (@submit_one_attempt sampleEngine sampleElo _ _ _ _ _ _ _ _ _ Hrun
           (Some "ATTACK AT DAWN") "s2" "2026-01-01 10:02:00").
Defined.


Lemma submitSolution_fresh (d : db) (uuid now matchId agentId solution : string) :
  (uuid ∉ map sub_id (submissions d)) →
  submitSolution d uuid now matchId agentId solution =
    Some (with_submissions d
            (submissions d ++
             [{| sub_id := uuid; sub_match_id := matchId; sub_agent_id := agentId;
                 sub_solution := solution; sub_correct := false; sub_score := 0;
                 sub_submitted_at := now |}]), uuid).
Proof.
  intros Hfresh. unfold submitSolution. case_bool_decide as Hex; [|done].
  exfalso. apply Hfresh. apply Exists_exists in Hex as (sub & Hin & <-).
  apply list_elem_of_fmap. by exists sub.
Qed.

(** The correct submissions of a match once a fresh submission to it
    was stored and marked: those before, then the new one. *)
Lemma correctSubmissions_marked (d : db) (uuid now matchId agentId solution : string)
    (sc : Z) :
  (uuid ∉ map sub_id (submissions d)) →
  correctSubmissions
    (markSubmissionCorrect
       (with_submissions d
          (submissions d ++
           [{| sub_id := uuid; sub_match_id := matchId; sub_agent_id := agentId;
               sub_solution := solution; sub_correct := false; sub_score := 0;
               sub_submitted_at := now |}])) uuid sc) matchId
  = (correctSubmissions d matchId ++
     [{| sub_id := uuid; sub_match_id := matchId; sub_agent_id := agentId;
         sub_solution := solution; sub_correct := true; sub_score := sc;
         sub_submitted_at := now |}])%list.
Proof.
  intros Hfresh. unfold correctSubmissions, getMatchSubmissions, markSubmissionCorrect.
  cbn [submissions with_submissions]. rewrite map_app.
  rewrite mark_correct_fresh by done. cbn [map]. unfold mark_correct.
  cbn [sub_id sub_match_id sub_agent_id sub_solution sub_submitted_at].
  rewrite String.eqb_refl. rewrite !filter_app. f_equal.
  rewrite filter_cons_True by (by apply bool_decide_pack).
  rewrite filter_nil. by rewrite filter_cons_True.
Qed.

(** [completeMatch] runs to its end when the match is a practice match
    or both its agents are on record. *)
Lemma completeMatch_resolved `{EloArithmetic} (d : db) (now matchId : string)
    (winnerId : option string) (m : match_row) :
  matches d !! matchId = Some m →
  practice m = true ∨
    (is_Some (agents d !! agent1_id m) ∧ is_Some (agents d !! agent2_id m)) →
  resolved (completeMatch d now matchId winnerId) = true.
Proof.
  intros Hm Hok. unfold completeMatch, updateELO.
  set (d1 := with_matches d _).
  assert (Hm1 : getMatch d1 matchId = Some (set_completed m winnerId now)).
  { unfold getMatch, d1. cbn [matches with_matches].
    by rewrite lookup_alter_eq, Hm. }
  rewrite Hm1. cbn [is_practice set_completed agent1_id agent2_id].
  unfold practice in Hok. destruct (negb (Z.eqb (is_practice m) 0)); [done|].
  destruct Hok as [|[[a1 Ha1] [a2 Ha2]]]; [done|].
  unfold getAgent, d1. cbn [agents with_matches]. rewrite Ha1, Ha2.
  cbn [mbind option_bind]. destruct (newRatings _ _ _) as [n1 n2].
  by destruct (match _ with Draw => _ | _ => _ end) as [c1 c2].
Qed.

(** X5.  A wrong answer ends nothing: it is stored as incorrect with score
    0, every match row, agent and payment stays as it was, and no
    payout is started. *)
Lemma wrong_answer_keeps_match `{ChallengeGenerator} `{EloArithmetic}
    (s : server) (ag : agent) (matchId text uuid now : string) (m : match_row)
    (body : value) (s' : server) (effs : list effect) :
  post_match_submit s ag matchId (Some text) uuid now = (Json body, s', effs) →
  getMatch (store s) matchId = Some m →
  valid (validateSolution (challenge_data m) text) = false →
  matches (store s') = matches (store s) ∧
  agents (store s') = agents (store s) ∧
  payments (store s') = payments (store s) ∧
  submissions (store s') =
    (submissions (store s) ++
     [{| sub_id := uuid; sub_match_id := matchId; sub_agent_id := agent_id ag;
         sub_solution := text; sub_correct := false; sub_score := 0;
         sub_submitted_at := now |}])%list ∧
  ∀ w p, SendPayout matchId w p ∉ effs.
Proof.
  intros Hrun Hm Hbad.
  destruct (submit_anatomy _ _ _ _ _ _ _ _ _ Hrun)
    as (m0 & text0 & d1 & l & d' & [= <-] & _ & Hm0 & _ & _ & _ & Hsub & Hset
        & -> & _ & ->).
  rewrite Hm in Hm0. injection Hm0 as <-.
  apply submitSolution_spec in Hsub as (_ & _ & Hsubs & Hmatches & Hagents & Hpay).
  unfold submit_settle in Hset. rewrite Hbad in Hset. cbn [store with_store].
  assert (Hl : d' = d1 ∧ (l = [] ∨ l = [SetTimeout 5000 matchId])).
  { destruct (practice m); injection Hset as <- <-; eauto. }
  destruct Hl as [-> Hl]. repeat split; try done.
  intros w p Hin. apply elem_of_app in Hin as [Hin|Hin].
  - destruct Hl as [-> | ->]; [inversion Hin|].
    apply list_elem_of_singleton in Hin. discriminate.
  - apply list_elem_of_singleton in Hin. discriminate.
Qed.

Lemma wrong_answer_keeps_match_witness :
  matches (store server_missed) = matches (store server_joined) ∧
  agents (store server_missed) = agents (store server_joined).
Proof.
  assert (Hrun : ∃ body effs,
    @post_match_submit sampleEngine sampleElo server_joined bob "m1"
      (Some "HELLO") "s1" "2026-01-01 10:01:00"
    = (Json body, server_missed, effs))
    by (eexists _, _; vm_compute; reflexivity).
  destruct Hrun as (body & effs & Hrun).
  assert (Hm : ∃ m, getMatch (store server_joined) "m1" = Some m ∧
    valid (@validateSolution sampleEngine (challenge_data m) "HELLO") = false)
    by (eexists; split; vm_compute; reflexivity).
  destruct Hm as (m & Hm & Hbad).
  destruct (@wrong_answer_keeps_match sampleEngine sampleElo _ _ _ _ _ _ _ _ _ _
              Hrun Hm Hbad) as (Hmatches & Hagents & _).
  split; [exact Hmatches|exact Hagents].
Defined.


(** ** The submit handler, statement by statement *)

Lemma run_bind {A B} (t : task A) (k : A → task B) (d : db) :
  run (t ≫= k) d =
    match run t d with
    | (Some a, d') => run (k a) d'
    | (None, d') => (None, d')
    end.
Proof.
  revert d. induction t as [a| |C statement next IH]; intros d; try done.
  change (run (Await statement (fun b => next b ≫= k)) d =
          match run (Await statement next) d with
          | (Some a, d') => run (k a) d'
          | (None, d') => (None, d')
          end).
  cbn [run]. destruct (statement d) as [b d']. apply IH.
Qed.

(** Run with nothing in between, the statements of [updateELO] and of
    [completeMatch] give what the storage layer's operation gives. *)
Lemma updateELO_task_run `{EloArithmetic} (matchId : string)
    (winnerId : option string) (d : db) :
  run (updateELO_task matchId winnerId) d =
    match updateELO d matchId winnerId with
    | Some (d', l) => (Some l, d')
    | None => (None, d)
    end.
Proof.
  unfold updateELO_task, updateELO. rewrite run_bind. cbn [run select].
  destruct (getMatch d matchId) as [m|]; [|done].
  destruct (negb (Z.eqb (is_practice m) 0)); [done|].
  rewrite run_bind. cbn [run select].
  rewrite run_bind. cbn [run select].
  destruct (getAgent d (agent1_id m)) as [a1|]; [|done].
  destruct (getAgent d (agent2_id m)) as [a2|]; [|done].
  cbn [mbind option_bind].
  destruct (newRatings _ _ _) as [n1 n2].
  destruct (match _ with Draw => _ | _ => _ end) as [c1 c2].
  rewrite run_bind. cbn [run update].
  rewrite run_bind. cbn [run update].
  rewrite run_bind. cbn [run update]. done.
Qed.

Lemma completeMatch_task_run `{EloArithmetic} (now matchId : string)
    (winnerId : option string) (d : db) :
  run (completeMatch_task now matchId winnerId) d =
    let c := completeMatch d now matchId winnerId in
    (if resolved c then Some (printed c) else None, after c).
Proof.
  unfold completeMatch_task, completeMatch. rewrite run_bind. cbn [run update].
  rewrite run_bind, updateELO_task_run.
  destruct (updateELO _ matchId winnerId) as [[d2 l]|]; [|done].
  rewrite run_bind. cbn [run select]. done.
Qed.

Lemma settle_task_run `{EloArithmetic} (ag : agent) (m : match_row)
    (matchId submissionId now : string) (v : validation) (d1 : db) :
  run (settle_task ag m matchId submissionId now v) d1 =
    submit_settle d1 ag m matchId submissionId now v.
Proof.
  unfold settle_task, submit_settle.
  destruct (valid v); [|by destruct (practice m)].
  rewrite run_bind. cbn [run update].
  destruct (practice m).
  - rewrite run_bind, completeMatch_task_run. cbn zeta.
    by destruct (resolved _).
  - rewrite run_bind. cbn [run select].
    destruct (_ =? _)%nat; [|done].
    rewrite run_bind, completeMatch_task_run. cbn zeta.
    destruct (resolved _); [|done].
    rewrite run_bind. cbn [run select]. done.
Qed.

(** The handler as a whole is its statements run one after the other. *)
Lemma submit_task_run `{ChallengeGenerator} `{EloArithmetic} (s : server)
    (ag : agent) (matchId : string) (solution : option string)
    (uuid now : string) :
  post_match_submit s ag matchId solution uuid now =
    let '(r, d') := run (submit_task ag matchId solution uuid now) (store s) in
    ((submit_caught r).1, with_store s d', (submit_caught r).2).
Proof.
  assert (Hs : with_store s (store s) = s) by (by destruct s).
  unfold post_match_submit, submit_task.
  destruct (opt_truthy solution) as [sol|]; [|cbn -[with_store]; rewrite ?Hs; reflexivity].
  rewrite run_bind. cbn [run select].
  destruct (getMatch (store s) matchId) as [m|]; [|cbn -[with_store]; rewrite ?Hs; reflexivity].
  destruct (negb (String.eqb (status m) "active")); [cbn -[with_store]; rewrite ?Hs; reflexivity|].
  destruct (_ && _); [cbn -[with_store]; rewrite ?Hs; reflexivity|].
  rewrite run_bind. cbn [run select].
  destruct (existsb _ _); [cbn -[with_store]; rewrite ?Hs; reflexivity|].
  rewrite run_bind. cbn [run select].
  rewrite run_bind. cbn [run inserted].
  destruct (submitSolution _ _ _ _ _ _) as [[d1 i]|]; [|cbn -[with_store]; rewrite ?Hs; reflexivity].
  cbn [run]. rewrite run_bind, settle_task_run.
  by destruct (submit_settle _ _ _ _ _ _ _) as [[l|] d'].
Qed.

(** ** A submission among the statements of others *)

Lemma update_agent_stays (d : db) (i j : string) (newElo : Z) (c : counter) :
  is_Some (agents d !! j) → is_Some (agents (update_agent d i newElo c) !! j).
Proof.
  intros [a Ha]. unfold update_agent. cbn [agents with_agents].
  destruct (decide (i = j)) as [->|Hne].
  - rewrite lookup_alter_eq, Ha. by eexists.
  - rewrite lookup_alter_ne by done. by eexists.
Qed.









(** ** Submissions that overlap *)



(** A fresh submission stored and then marked. *)
Lemma stored_and_marked (d : db) (uuid now matchId agentId solution : string)
    (sc : Z) :
  (uuid ∉ map sub_id (submissions d)) →
  markSubmissionCorrect
    (with_submissions d
       (submissions d ++
        [{| sub_id := uuid; sub_match_id := matchId; sub_agent_id := agentId;
            sub_solution := solution; sub_correct := false; sub_score := 0;
            sub_submitted_at := now |}])) uuid sc =
  with_submissions d
    (submissions d ++
     [{| sub_id := uuid; sub_match_id := matchId; sub_agent_id := agentId;
         sub_solution := solution; sub_correct := true; sub_score := sc;
         sub_submitted_at := now |}]).
Proof.
  intros Hfresh. unfold markSubmissionCorrect, with_submissions.
  cbn [agents matches submissions payments payment_status]. f_equal.
  rewrite map_app, mark_correct_fresh by done. cbn [map]. unfold mark_correct.
  cbn [sub_id sub_match_id sub_agent_id sub_solution sub_submitted_at].
  by rewrite String.eqb_refl.
Qed.

(** X9.  The count of correct submissions that decides whether a regular
    match is completed is read after the handler has stored and marked
    its own: when the two agents of a match answer correctly and each
    stores and marks its answer before either counts, both count two,
    neither completes the match, and both are answered with success.
    The match stays active with two correct submissions, nobody is
    paid, and no rating moves.  A sweep that later finds the match
    timed out, and runs with nothing in between, names the agent with
    the higher score the winner, the first to have stored on equal
    scores. *)
Lemma overlapping_correct_answers_leave_match_active `{ChallengeGenerator}
    `{EloArithmetic} (d : db) (ag1 ag2 : agent)
    (matchId text1 text2 uuid1 uuid2 now1 now2 : string) (m : match_row) :
  getMatch d matchId = Some m → status m = "active" → practice m = false →
  agent1_id m = agent_id ag1 → agent2_id m = agent_id ag2 →
  agent_id ag1 ≠ agent_id ag2 →
  getMatchSubmissions d matchId = [] →
  (uuid1 ∉ map sub_id (submissions d)) →
  (uuid2 ∉ map sub_id (submissions d)) → uuid1 ≠ uuid2 →
  text1 ≠ EmptyString → text2 ≠ EmptyString →
  valid (validateSolution (challenge_data m) text1) = true →
  valid (validateSolution (challenge_data m) text2) = true →
  let v1 := validateSolution (challenge_data m) text1 in
  let v2 := validateSolution (challenge_data m) text2 in
  ∃ d',
    overlap [true; true; true; true; true; false; false; false; false; false]
      (submit_task ag1 matchId (Some text1) uuid1 now1)
      (submit_task ag2 matchId (Some text2) uuid2 now2) d =
      (Some (Json (submit_ok v1 uuid1), [solution_submitted matchId ag1 v1]),
       Some (Json (submit_ok v2 uuid2), [solution_submitted matchId ag2 v2]),
       d') ∧
    getMatch d' matchId = Some m ∧ agents d' = agents d ∧
    correctSubmissions d' matchId =
      [{| sub_id := uuid1; sub_match_id := matchId; sub_agent_id := agent_id ag1;
          sub_solution := text1; sub_correct := true; sub_score := score v1;
          sub_submitted_at := now1 |};
       {| sub_id := uuid2; sub_match_id := matchId; sub_agent_id := agent_id ag2;
          sub_solution := text2; sub_correct := true; sub_score := score v2;
          sub_submitted_at := now2 |}] ∧
    ∀ elapsedMs now',
      id m = matchId → timed_out elapsedMs m = true →
      is_Some (getAgent d (agent1_id m)) → is_Some (getAgent d (agent2_id m)) →
      ∃ effs d3 m',
        sweep_match d' elapsedMs now' m = (Some effs, d3) ∧
        getMatch d3 matchId = Some m' ∧ status m' = "completed" ∧
        winner_id m' =
          Some (if Z.ltb (score v1) (score v2) then agent_id ag2
                else agent_id ag1).
Proof.
  intros Hm Hst Hprac Hag1 Hag2 Hne12 Hnone Hf1 Hf2 Hne Ht1 Ht2 Hv1 Hv2. cbn zeta.
  unfold submit_task. cbn [opt_truthy].
  destruct (String.eqb_spec text1 EmptyString) as [|_]; [done|].
  destruct (String.eqb_spec text2 EmptyString) as [|_]; [done|].
  assert (Hp1 : negb (String.eqb (agent1_id m) (agent_id ag1))
                && negb (String.eqb (agent2_id m) (agent_id ag1)) = false).
  { by rewrite Hag1, String.eqb_refl. }
  assert (Hp2 : negb (String.eqb (agent1_id m) (agent_id ag2))
                && negb (String.eqb (agent2_id m) (agent_id ag2)) = false).
  { by rewrite Hag2, String.eqb_refl, andb_false_r. }
  assert (Hact : negb (String.eqb "active" "active") = false) by done.
  do 3 (cbn [overlap step_task run mbind task_mbind task_bind select inserted
             fst snd];
        rewrite ?Hm, ?Hst, ?Hact, ?Hp1, ?Hnone).
  cbn [existsb].
  cbn [overlap step_task run mbind task_mbind task_bind select inserted
       fst snd].
  rewrite (submitSolution_fresh d uuid1 now1 matchId (agent_id ag1) text1 Hf1).
  unfold settle_task at 1. rewrite Hv1, Hprac.
  cbn [overlap step_task run mbind task_mbind task_bind select inserted update
       fst snd].
  rewrite (stored_and_marked d uuid1 now1 matchId (agent_id ag1) text1 _ Hf1).
  set (row1 := {| sub_id := uuid1; sub_match_id := matchId;
                  sub_agent_id := agent_id ag1; sub_solution := text1;
                  sub_correct := true;
                  sub_score := score (validateSolution (challenge_data m) text1);
                  sub_submitted_at := now1 |}).
  set (d2 := with_submissions d (submissions d ++ [row1])).
  assert (Hm2 : getMatch d2 matchId = Some m) by exact Hm.
  assert (Hsubs2 : getMatchSubmissions d2 matchId = [row1]).
  { unfold getMatchSubmissions, d2. cbn [submissions with_submissions].
    rewrite filter_app. fold (getMatchSubmissions d matchId). rewrite Hnone.
    by rewrite filter_cons_True by (by apply bool_decide_pack). }
  assert (Hf2' : uuid2 ∉ map sub_id (submissions d2)).
  { unfold d2. cbn [submissions with_submissions]. rewrite map_app.
    intros Hin. apply elem_of_app in Hin as [Hin|Hin]; [done|].
    apply list_elem_of_singleton in Hin. cbn in Hin. congruence. }
  assert (Hother : String.eqb (agent_id ag1) (agent_id ag2) = false)
    by (by apply String.eqb_neq).
  rewrite Hm2, Hst, Hact, Hp2.
  cbn [step_task fst snd]. rewrite Hsubs2.
  cbn [existsb sub_agent_id row1]. rewrite Hother. cbn [orb].
  cbn [step_task fst snd].
  rewrite (submitSolution_fresh d2 uuid2 now2 matchId (agent_id ag2) text2 Hf2').
  cbn [run mbind task_mbind task_bind].
  unfold settle_task. rewrite Hv2, Hprac.
  cbn [step_task run mbind task_mbind task_bind select inserted update fst snd].
  rewrite (stored_and_marked d2 uuid2 now2 matchId (agent_id ag2) text2 _ Hf2').
  set (row2 := {| sub_id := uuid2; sub_match_id := matchId;
                  sub_agent_id := agent_id ag2; sub_solution := text2;
                  sub_correct := true;
                  sub_score := score (validateSolution (challenge_data m) text2);
                  sub_submitted_at := now2 |}).
  set (d4 := with_submissions d2 (submissions d2 ++ [row2])).
  assert (Hsubs4 : getMatchSubmissions d4 matchId = [row1; row2]).
  { unfold getMatchSubmissions, d4. cbn [submissions with_submissions].
    rewrite filter_app. fold (getMatchSubmissions d2 matchId). rewrite Hsubs2.
    by rewrite filter_cons_True by (by apply bool_decide_pack). }
  assert (Hc : filter (fun sub => sub_correct sub) [row1; row2] = [row1; row2])
    by reflexivity.
  rewrite Hsubs4, Hc. cbn [length Nat.eqb run mbind task_mbind task_bind].
  rewrite Hsubs4, Hc. cbn [length Nat.eqb run mbind task_mbind task_bind app].
  exists d4. split; [reflexivity|]. split; [exact Hm|]. split; [reflexivity|].
  split; [unfold correctSubmissions; by rewrite Hsubs4, Hc|].
  intros elapsedMs now' Hid Hout Ha1 Ha2.
  unfold sweep_match. rewrite Hout, Hprac, Hid, Hsubs4, Hc.
  cbn [bestSubmission fold_left]. unfold better.
  cbn [sub_score row1 row2].
  set (winner := if Z.ltb _ _ then row2 else row1).
  assert (Hw : sub_agent_id winner =
               if Z.ltb (score (validateSolution (challenge_data m) text1))
                        (score (validateSolution (challenge_data m) text2))
               then agent_id ag2 else agent_id ag1).
  { unfold winner. by destruct (Z.ltb _ _). }
  rewrite (completeMatch_resolved d4 now' matchId _ m Hm) by (right; done).
  pose proof (completeMatch_rows d4 now' matchId (Some (sub_agent_id winner))
                matchId) as Hrow.
  change (matches d4 !! matchId) with (getMatch d matchId) in Hrow.
  rewrite Hm in Hrow.
  destruct Hrow as (m' & Hm' & _ & _ & _ & _ & _ & Hdone).
  destruct (Hdone eq_refl) as [Hst' Hwin].
  eexists _, _, m'. split; [reflexivity|]. split; [exact Hm'|].
  split; [exact Hst'|]. by rewrite Hwin, Hw.
Qed.

Lemma overlapping_correct_answers_leave_match_active_witness :
  ∃ r1 r2 d',
    overlap [true; true; true; true; true; false; false; false; false; false]
      (@submit_task sampleEngine sampleElo alice "m1" (Some "ATTACK AT DAWN")
         "s1" "2026-01-01 10:01:00")
      (@submit_task sampleEngine sampleElo bob "m1" (Some "ATTACK AT DAWN")
         "s2" "2026-01-01 10:01:01") (store server_joined) =
      (Some r1, Some r2, d') ∧
    (status <$> getMatch d' "m1") = Some "active" ∧
    map sub_agent_id (correctSubmissions d' "m1") = ["a"; "b"].
Proof.
  assert (Hm : ∃ m, getMatch (store server_joined) "m1" = Some m ∧
    status m = "active" ∧ practice m = false ∧
    agent1_id m = "a" ∧ agent2_id m = "b" ∧
    valid (@validateSolution sampleEngine (challenge_data m) "ATTACK AT DAWN")
      = true ∧
    valid (@validateSolution sampleEngine (challenge_data m) "ATTACK AT DAWN")
      = true).
  { eexists. split; [vm_compute; reflexivity|].
    split; [vm_compute; reflexivity|]. split; [vm_compute; reflexivity|].
    split; [vm_compute; reflexivity|]. split; [vm_compute; reflexivity|].
    split; vm_compute; reflexivity. }
  destruct Hm as (m & Hm & Hst & Hprac & Ha & Hb & Hv1 & Hv2).
  destruct (@overlapping_correct_answers_leave_match_active sampleEngine
              sampleElo (store server_joined) alice bob "m1" "ATTACK AT DAWN"
              "ATTACK AT DAWN" "s1" "s2" "2026-01-01 10:01:00"
              "2026-01-01 10:01:01" m Hm Hst Hprac Ha Hb)
    as (d' & Hrun & Hm' & _ & Hcorrect & _); try assumption.
  - discriminate.
  - vm_compute. reflexivity.
  - vm_compute. intros Hin. inversion Hin.
  - vm_compute. intros Hin. inversion Hin.
  - discriminate.
  - discriminate.
  - discriminate.
  - eexists _, _, d'. split; [exact Hrun|]. rewrite Hm', Hcorrect.
    split; [by rewrite <- Hst|reflexivity].
Defined.

(** ** Invariants of the server *)

Lemma recordPayment_spec (d : db) (uuid agentId txHash amountWei fromWallet : string)
    (matchId : option string) (d' : db) (i : string) :
  recordPayment d uuid agentId txHash amountWei fromWallet matchId = Some (d', i) →
  i = uuid ∧ (txHash ∉ tx_hashes d) ∧
  payments d' =
    (payments d ++
     [{| pay_id := uuid; pay_agent_id := agentId; pay_tx_hash := txHash;
         pay_amount_wei := amountWei; pay_from_wallet := fromWallet;
         pay_match_id := matchId |}])%list ∧
  matches d' = matches d ∧ submissions d' = submissions d ∧
  agents d' = agents d.
Proof.
  unfold recordPayment. case_bool_decide as Hex; [done|].
  intros [= <- <-]. split; [done|]. split; [|done].
  intros Hin. apply Hex. apply list_elem_of_fmap in Hin as (p & Hp & Hin).
  apply Exists_exists. exists p. split; [done|]. by right.
Qed.


(** [recordPayment] is two of the statements: the INSERT of the payment
    and the INSERT OR REPLACE of the status. *)
Lemma recordPayment_writes (d : db) (uuid agentId txHash amountWei fromWallet : string)
    (matchId : option string) (d' : db) (r : string) :
  recordPayment d uuid agentId txHash amountWei fromWallet matchId = Some (d', r) →
  ∃ d1, writes d d1 ∧ writes d1 d'.
Proof.
  unfold recordPayment. case_bool_decide as Hex; [done|]. intros [= <- _].
  set (p := {| pay_id := uuid; pay_agent_id := agentId; pay_tx_hash := txHash;
               pay_amount_wei := amountWei; pay_from_wallet := fromWallet;
               pay_match_id := matchId |}).
  set (d1 := {| agents := agents d; matches := matches d;
                submissions := submissions d; payments := payments d ++ [p];
                payment_status := payment_status d |}).
  exists d1. split; [exact (write_payment d p Hex)|].
  exact (write_paid d1 agentId uuid).
Qed.

(** What a statement does to the payments: nothing, or one payment
    more, under a transaction hash not on record. *)
Lemma writes_payments (d d' : db) :
  writes d d' →
  payments d' = payments d ∨
  ∃ p, payments d' = (payments d ++ [p])%list ∧ pay_tx_hash p ∉ tx_hashes d.
Proof.
  intros Hw. destruct Hw; try (by left).
  - left. unfold submitSolution in *. case_bool_decide; [done|].
    by simplify_eq.
  - right. exists p. split; [done|]. intros Hin.
    apply list_elem_of_fmap in Hin as (q & Hq & Hin).
    match goal with Hn : ¬ Exists _ _ |- _ => apply Hn end.
    apply Exists_exists. exists q. split; [done|]. by right.
Qed.

Lemma served_server_paid : served server_paid.
Proof.
  set (p := {| pay_id := "p9"; pay_agent_id := "b"; pay_tx_hash := "0xpaid";
               pay_amount_wei := "100000000000000";
               pay_from_wallet := "0xb0b"; pay_match_id := None |}).
  set (s1 := {| store := {| agents := agents db0; matches := matches db0;
                            submissions := submissions db0;
                            payments := payments db0 ++ [p];
                            payment_status := payment_status db0 |};
                matchQueue := [] |}).
  apply (served_next s1).
  - apply (served_next server0); [by apply served_init|].
    apply (serves_statement server0), (write_payment db0 p).
    intros Hex. by apply Exists_nil in Hex.
  - apply (serves_statement s1), (write_paid (store s1) "b" "p9").
Qed.

(** X7.  On every state the server reaches, no chain transaction is on
    record twice in the payments: whichever handler records it, and
    however the statements of the handlers in flight fall together, a
    transaction is credited once. *)
Lemma served_no_double_credit (s : server) :
  served s → NoDup (tx_hashes (store s)).
Proof.
  induction 1 as [s _ _ Hp _|s s' _ IH Hstep].
  - unfold tx_hashes. rewrite Hp. constructor.
  - destruct Hstep as [d' Hw|]; [|done]. cbn [store with_store].
    destruct (writes_payments _ _ Hw) as [Hsame|(p & Hp & Hnew)].
    + unfold tx_hashes. by rewrite Hsame.
    + unfold tx_hashes. rewrite Hp, map_app. apply NoDup_app.
      split; [done|]. split; [|apply NoDup_singleton].
      intros h Hh Hin. apply list_elem_of_singleton in Hin. by subst h.
Qed.

Lemma served_no_double_credit_witness :
  NoDup (tx_hashes (store server_paid)).
Proof. exact (served_no_double_credit server_paid served_server_paid). Defined.

Lemma served_server_waiting : served server_waiting.
Proof.
  set (s1 := {| store := {| agents := agents db0; matches := matches db0;
                            submissions := submissions db0;
                            payments := payments db0 ++ [paid_by "p1" "a" "0xaaa"];
                            payment_status := payment_status db0 |};
                matchQueue := [] |}).
  set (s2 := {| store := store server_waiting; matchQueue := [] |}).
  apply (served_next s2).
  - apply (served_next s1).
    + apply (served_next server0); [by apply served_init|].
      apply (serves_statement server0),
        (write_payment db0 (paid_by "p1" "a" "0xaaa")).
      intros Hex. by apply Exists_nil in Hex.
    + apply (serves_statement s1),
        (write_payment (store s1) (paid_by "p2" "b" "0xbbb")).
      intros Hex. apply Exists_cons in Hex as [[?|?]|Hex]; [done|done|].
      by apply Exists_nil in Hex.
  - apply (serves_queue s2 alice
             {| qb_challenge_type := None; qb_difficulty := Some 2 |}
             0 "2026-01-01 08:00:00").
    reflexivity.
Qed.

(** X8.  On every state the server reaches, the matchmaking queue holds
    one agent at most, and so no agent twice: the moment a second agent
    is let in, the two are taken off the queue, before the engine is
    asked for their challenge and before their match is stored. *)
Lemma served_queue (s : server) :
  served s →
  NoDup (queued_ids (matchQueue s)) ∧ (length (matchQueue s) <= 1)%nat.
Proof.
  induction 1 as [s _ _ _ Hq|s s' _ [IHnd IHlen] Hstep].
  - rewrite Hq. split; [constructor|simpl; lia].
  - destruct Hstep as [d' _|ag b rnd now _]; [done|]. cbn [matchQueue].
    destruct (matchQueue s) as [|e1 [|e2 rest]]; cbn [app shift_pair].
    + split; [apply NoDup_singleton|simpl; lia].
    + split; [constructor|simpl; lia].
    + simpl in IHlen. lia.
Qed.

Lemma served_queue_witness :
  NoDup (queued_ids (matchQueue server_waiting)) ∧
  (length (matchQueue server_waiting) <= 1)%nat.
Proof. exact (served_queue server_waiting served_server_waiting). Defined.

(** ** Rows are kept *)







(** ** The timeout sweep *)

(** X10.  The submission the sweep calls best has the highest score, and is
    the earliest of those that have it. *)
Lemma bestSubmission_spec (l : list submission) (best : submission) :
  bestSubmission l = Some best →
  ∃ earlier later,
    l = (earlier ++ best :: later)%list ∧
    (∀ sub, sub ∈ earlier → sub_score sub < sub_score best) ∧
    (∀ sub, sub ∈ later → sub_score sub <= sub_score best).
Proof.
  destruct l as [|first rest]; [done|]. cbn [bestSubmission]. intros [= <-].
  revert first. induction rest as [|current rest IH]; intros first.
  - cbn [fold_left]. exists [], []. split; [done|].
    split; intros sub Hin; inversion Hin.
  - cbn [fold_left].
    destruct (Z.ltb (sub_score first) (sub_score current)) eqn:Hcmp.
    + assert (E : better first current = current)
        by (unfold better; by rewrite Hcmp).
      rewrite E. apply Z.ltb_lt in Hcmp.
      destruct (IH current) as (earlier & later & Heq & Hearlier & Hlater).
      remember (fold_left better rest current) as b eqn:Hb0. clear Hb0.
      exists (first :: earlier), later. split; [by rewrite Heq|].
      split; [|done]. intros sub Hin.
      apply elem_of_cons in Hin as [->|Hin]; [|by apply Hearlier].
      destruct earlier as [|e earlier].
      * cbn [app] in Heq. by injection Heq as <- _.
      * cbn [app] in Heq. injection Heq as <- _.
        pose proof (Hearlier current ltac:(apply list_elem_of_here)). lia.
    + assert (E : better first current = first)
        by (unfold better; by rewrite Hcmp).
      rewrite E. apply Z.ltb_ge in Hcmp.
      destruct (IH first) as (earlier & later & Heq & Hearlier & Hlater).
      remember (fold_left better rest first) as b eqn:Hb0. clear Hb0.
      destruct earlier as [|e earlier].
      * cbn [app] in Heq. injection Heq as <- <-.
        exists [], (current :: rest). split; [done|].
        split; [intros sub Hin; inversion Hin|].
        intros sub Hin. apply elem_of_cons in Hin as [->|Hin]; [done|].
        by apply Hlater.
      * cbn [app] in Heq. injection Heq as <- ->.
        pose proof (Hearlier first ltac:(apply list_elem_of_here)) as Hfirst.
        exists (first :: current :: earlier), later.
        split; [done|]. split; [|done].
        intros sub Hin. apply elem_of_cons in Hin as [->|Hin]; [done|].
        apply elem_of_cons in Hin as [->|Hin]; [lia|].
        apply Hearlier. by apply list_elem_of_further.
Qed.

Lemma bestSubmission_spec_witness :
  ∃ earlier later,
    three_answers = (earlier ++ answer "s2" "b" 120 :: later)%list ∧
    (∀ sub, sub ∈ earlier → sub_score sub < 120) ∧
    (∀ sub, sub ∈ later → sub_score sub <= 120).
Proof.
  exact (bestSubmission_spec three_answers (answer "s2" "b" 120) eq_refl).
Defined.


(** ** Numbers and their texts *)

(** Whole numbers up to 2^53 are doubles. *)
Lemma nearest_double_safe (n : Z) :
  - 2 ^ 53 <= n <= 2 ^ 53 → nearest_double n = n.
Proof.
  intros Hn. unfold nearest_double.
  destruct (Z.leb_spec (Z.abs n) (2 ^ 53)) as [|Hgt]; [done|]. lia.
Qed.

(** Beyond 2^53 the nearest double is no smaller than 2^53. *)
Lemma nearest_double_large (n : Z) : 2 ^ 53 < n → 2 ^ 53 <= nearest_double n.
Proof.
  intros Hn. unfold nearest_double.
  destruct (Z.leb_spec (Z.abs n) (2 ^ 53)) as [|_]; [lia|].
  rewrite Z.abs_eq by lia. rewrite Z.sgn_pos by lia. rewrite Z.mul_1_l.
  set (e := Z.log2 n - 52).
  assert (He : 1 <= e).
  { unfold e. assert (53 <= Z.log2 n); [|lia].
    change 53 with (Z.log2 (2 ^ 53)). apply Z.log2_le_mono. lia. }
  assert (Hq : 2 ^ 52 <= n / 2 ^ e).
  { apply Z.div_le_lower_bound; [apply Z.pow_pos_nonneg; lia|].
    rewrite Z.mul_comm, <- Z.pow_add_r by lia.
    replace (52 + e) with (Z.log2 n) by (unfold e; lia).
    apply Z.log2_spec. lia. }
  assert (Hp : 2 ^ 1 <= 2 ^ e) by (apply Z.pow_le_mono_r; lia).
  change (2 ^ 1) with 2 in Hp. change (2 ^ 53) with (2 ^ 52 * 2).
  assert (Hq' : 2 ^ 52 <=
    (if Z.ltb (n mod 2 ^ e) (2 ^ (e - 1)) then n / 2 ^ e
     else if Z.ltb (2 ^ (e - 1)) (n mod 2 ^ e) then n / 2 ^ e + 1
          else if Z.even (n / 2 ^ e) then n / 2 ^ e else n / 2 ^ e + 1)).
  { repeat destruct (_ : bool); lia. }
  apply Z.mul_le_mono_nonneg; lia.
Qed.

(** A whole number below 2^53 prints as itself: no shorter decimal, and
    no other, reads back as this double. *)
Lemma shortest_from_safe (fuel : nat) (k d x : Z) :
  0 < x < 2 ^ 53 → shortest_from fuel k d x = x.
Proof.
  intros Hx. revert k. induction fuel as [|fuel IH]; intros k; [done|].
  cbn [shortest_from].
  set (p := 10 ^ Z.max 0 (d - k)).
  assert (Hp : 0 < p) by (apply Z.pow_pos_nonneg; lia).
  pose proof (Z.mul_div_le x p Hp) as Hlo.
  pose proof (Z.mul_succ_div_gt x p Hp) as Hhi.
  assert (Hlo0 : 0 <= x / p * p).
  { apply Z.mul_nonneg_nonneg; [apply Z.div_pos|]; lia. }
  rewrite (nearest_double_safe (x / p * p)) by lia.
  assert (Hne : Z.eqb (nearest_double (x / p * p + p)) x = false).
  { apply Z.eqb_neq.
    destruct (Z_le_gt_dec (x / p * p + p) (2 ^ 53)) as [Hle|Hgt].
    - rewrite nearest_double_safe by lia. lia.
    - pose proof (nearest_double_large (x / p * p + p)). lia. }
  rewrite Hne, andb_false_r.
  destruct (Z.eqb_spec (x / p * p) x) as [Heq|_]; [exact Heq|apply IH].
Qed.

Lemma Number_of_safe (n : Z) : - 2 ^ 53 <= n <= 2 ^ 53 → Number_of n = Finite n.
Proof.
  intros Hn. unfold Number_of. rewrite nearest_double_safe by done.
  destruct (Z.leb_spec (2 ^ 1024) (Z.abs n)) as [Hbig|]; [|done].
  assert (2 ^ 53 < 2 ^ 1024) by (apply Z.pow_lt_mono_r; lia). lia.
Qed.

Lemma Number_toString_safe (n : Z) :
  0 <= n < 2 ^ 53 → Number_toString (Number_of n) = BigInt_toString n.
Proof.
  intros Hn. rewrite Number_of_safe by lia. unfold Number_toString.
  destruct (Z.eqb_spec n 0) as [->|Hne]; [done|].
  destruct (Z.ltb_spec n 0) as [|_]; [lia|].
  unfold shortest. rewrite Z.abs_eq by lia.
  rewrite shortest_from_safe by lia.
  destruct (Z.ltb_spec n (10 ^ 21)) as [_|Hbig]; [done|].
  assert (2 ^ 53 < 10 ^ 21) by done. lia.
Qed.

(** *** Decimal texts read back *)

Lemma digits_acc (u : Decimal.uint) (p : positive) :
  digits 10 (Some (Z.pos p)) (NilEmpty.string_of_uint u)
  = Some (Z.pos (Pos.of_uint_acc u p)).
Proof.
  revert p. induction u as [|u IH|u IH|u IH|u IH|u IH|u IH|u IH|u IH|u IH|u IH];
    intros p; cbn [NilEmpty.string_of_uint Pos.of_uint_acc]; [done|..].
  all: cbn [digits]; match goal with |- context [digit_of 10 ?c] =>
         let k := eval vm_compute in (digit_of 10 c) in
         change (digit_of 10 c) with k end;
       cbv beta iota; cbn [from_option]; unfold Datatypes.id;
       rewrite <- IH; f_equal; f_equal; lia.
Qed.

Lemma digits_zero (u : Decimal.uint) :
  digits 10 (Some 0) (NilEmpty.string_of_uint u) = Some (Z.of_N (Pos.of_uint u)).
Proof.
  induction u as [|u IH|u IH|u IH|u IH|u IH|u IH|u IH|u IH|u IH|u IH];
    cbn [NilEmpty.string_of_uint Pos.of_uint]; [done|..].
  all: cbn [digits]; match goal with |- context [digit_of 10 ?c] =>
         let k := eval vm_compute in (digit_of 10 c) in
         change (digit_of 10 c) with k end;
       cbv beta iota; cbn [from_option]; unfold Datatypes.id; cbn [Z.mul Z.add].
  1: exact IH.
  all: apply digits_acc.
Qed.

Lemma is_digit_plain (c : ascii) :
  is_digit c = true →
  is_space c = false ∧ Ascii.eqb c "-" = false ∧ Ascii.eqb c "+" = false ∧
  Ascii.eqb c "x" = false ∧ Ascii.eqb c "X" = false.
Proof.
  destruct c as [[] [] [] [] [] [] [] []]; vm_compute; intros Hc;
    first [discriminate Hc | by repeat split].
Qed.

Lemma string_of_uint_digits (u : Decimal.uint) :
  u ≠ Decimal.Nil →
  ∃ c s, NilEmpty.string_of_uint u = String c s ∧ is_digit c = true ∧
         (∀ c1 r, s = String c1 r → is_digit c1 = true) ∧
         digits 10 None (String c s) = Some (Z.of_N (Pos.of_uint u)).
Proof.
  intros Hu.
  assert (Hhead : ∀ v c1 r, NilEmpty.string_of_uint v = String c1 r →
                            is_digit c1 = true).
  { intros v c1 r. destruct v; cbn [NilEmpty.string_of_uint]; [done|..];
      by intros [= <- _]. }
  pose proof (digits_zero u) as Hz.
  destruct u as [|u|u|u|u|u|u|u|u|u|u]; [done|..];
    cbn [NilEmpty.string_of_uint] in *; eexists _, _;
    (split; [reflexivity|]); (split; [reflexivity|]);
    (split; [apply Hhead|exact Hz]).
Qed.

(** The text of a whole number that is not negative: digits only, which
    read back as the number. *)
Lemma decimal_text (z : Z) :
  0 <= z →
  ∃ c s, BigInt_toString z = String c s ∧ is_digit c = true ∧
         (∀ c1 r, s = String c1 r → is_digit c1 = true) ∧
         digits 10 None (String c s) = Some z.
Proof.
  intros Hz. unfold BigInt_toString. destruct z as [|p|p]; [|clear Hz|lia].
  - exists "0"%char, EmptyString. by repeat split.
  - cbn [Z.to_int NilZero.string_of_int].
    pose proof (Unsigned.to_uint_nonnil p) as Hnil.
    pose proof (DecimalPos.Unsigned.of_to p) as Hof.
    assert (Hstr : NilZero.string_of_uint (Pos.to_uint p)
                   = NilEmpty.string_of_uint (Pos.to_uint p))
      by (by destruct (Pos.to_uint p)).
    rewrite Hstr.
    destruct (string_of_uint_digits _ Hnil) as (c & s & -> & Hc & Hs & Hval).
    exists c, s. rewrite Hval, Hof. by repeat split.
Qed.

(** The text of a negative number is a minus sign before the text of
    its size. *)
Lemma negative_text (z : Z) :
  z < 0 → BigInt_toString z = String "-" (BigInt_toString (- z)).
Proof.
  intros Hz. unfold BigInt_toString. destruct z as [|p|p]; [lia|lia|].
  cbn [Z.to_int NilZero.string_of_int Z.opp]. done.
Qed.

(** Nothing is trimmed from and no sign is read off a text that starts
    with a digit, and a decimal text has no radix prefix. *)
Lemma signed_digit (c : ascii) (s : string) :
  is_digit c = true → signed (trimStart (String c s)) = (false, String c s).
Proof.
  intros Hc. destruct (is_digit_plain c Hc) as (Hsp & Hminus & Hplus & _).
  cbn [trimStart]. rewrite Hsp. unfold signed. by rewrite Hminus, Hplus.
Qed.

Lemma parseInt_digits (negative : bool) (c : ascii) (s : string) :
  is_digit c = true →
  (∀ c1 r, s = String c1 r → is_digit c1 = true) →
  parseInt (if negative then String "-" (String c s) else String c s)
  = match digits 10 None (String c s) with
    | Some n => Number_of (if negative then - n else n)
    | None => NaN
    end.
Proof.
  intros Hc Hs.
  assert (Hradix : match String c s with
                   | String c0 (String c1 r) =>
                       if Ascii.eqb c0 "0" && (Ascii.eqb c1 "x" || Ascii.eqb c1 "X")
                       then (16, r) else (10, String c s)
                   | _ => (10, String c s)
                   end = (10, String c s)).
  { destruct s as [|c1 r]; [done|].
    destruct (is_digit_plain c1 (Hs c1 r eq_refl)) as (_ & _ & _ & -> & ->).
    by rewrite andb_false_r. }
  unfold parseInt. destruct negative.
  - cbn [trimStart]. change (is_space "-") with false. cbv iota.
    unfold signed. change (Ascii.eqb "-" "-") with true. cbv iota.
    by rewrite Hradix.
  - rewrite signed_digit by done. by rewrite Hradix.
Qed.

(** [parseInt] reads the text of a whole number as the nearest double. *)
Lemma parseInt_toString (z : Z) : parseInt (BigInt_toString z) = Number_of z.
Proof.
  destruct (Z_lt_le_dec z 0) as [Hneg|Hpos].
  - rewrite negative_text by done.
    destruct (decimal_text (- z) ltac:(lia)) as (c & s & -> & Hc & Hs & Hval).
    rewrite (parseInt_digits true c s Hc Hs), Hval. f_equal. lia.
  - destruct (decimal_text z Hpos) as (c & s & -> & Hc & Hs & Hval).
    by rewrite (parseInt_digits false c s Hc Hs), Hval.
Qed.

(** [CAST] reads the text of a whole number that is not negative as the
    number, or as the largest 64-bit integer. *)
Lemma sql_cast_decimal (z : Z) :
  0 <= z → sql_cast_integer (BigInt_toString z) = Z.min INT64_MAX z.
Proof.
  intros Hz. destruct (decimal_text z Hz) as (c & s & -> & Hc & _ & Hval).
  unfold sql_cast_integer. rewrite signed_digit by done. rewrite Hval.
  unfold INT64_MIN, INT64_MAX. lia.
Qed.

(** ** Payments *)

Lemma getPaymentByTxHash_None (d : db) (txHash : string) :
  getPaymentByTxHash d txHash = None ↔ (txHash ∉ tx_hashes d).
Proof.
  unfold getPaymentByTxHash, tx_hashes. split.
  - intros Hhead Hin. apply list_elem_of_fmap in Hin as (p & Hp & Hin).
    assert (Hp' : p ∈ filter (fun p => bool_decide (pay_tx_hash p = txHash))
                             (payments d)).
    { apply list_elem_of_filter. split; [by apply bool_decide_pack|done]. }
    destruct (filter _ _) as [|q l]; [inversion Hp'|done].
  - intros Hnot. destruct (filter _ _) as [|q l] eqn:Hf; [done|].
    exfalso. apply Hnot.
    assert (Hq : q ∈ filter (fun p => bool_decide (pay_tx_hash p = txHash))
                            (payments d)) by (rewrite Hf; apply list_elem_of_here).
    apply list_elem_of_filter in Hq as [Hq Hin]. apply bool_decide_unpack in Hq.
    apply list_elem_of_fmap. by exists q.
Qed.

(** The agent's sum after a payment of [amount] was recorded. *)
Lemma paid_total_recorded (d : db) (uuid agentId txHash fromWallet : string)
    (amount : Z) (matchId : option string) (d' : db) (i : string) (a : string) :
  0 <= amount →
  recordPayment d uuid agentId txHash (BigInt_toString amount) fromWallet matchId
    = Some (d', i) →
  paid_total d' a =
    if decide (agentId = a)
    then t ← paid_total d a;
         if Z.leb INT64_MIN (t + Z.min INT64_MAX amount)
            && Z.leb (t + Z.min INT64_MAX amount) INT64_MAX
         then Some (t + Z.min INT64_MAX amount) else None
    else paid_total d a.
Proof.
  intros Hpos Hrec. apply recordPayment_spec in Hrec as (_ & _ & Hpay & _).
  unfold paid_total. rewrite Hpay, filter_app.
  destruct (decide (agentId = a)) as [->|Hne].
  - rewrite filter_cons_True by (by apply bool_decide_pack).
    cbn [filter list_filter]. rewrite map_app. unfold sql_sum at 1.
    rewrite foldl_app. cbn [map foldl pay_amount_wei].
    by rewrite sql_cast_decimal.
  - rewrite filter_cons_False; [by rewrite app_nil_r|].
    intros Hp. by apply bool_decide_unpack in Hp.
Qed.

(** A payment request that is accepted, step by step. *)
Lemma pay_anatomy `{Viem} `{EtherText} (s : server) (ag : agent)
    (txHash matchId : option string) (payUuid chainError : string)
    (body : value) (s' : server) :
  post_match_pay s ag txHash matchId payUuid chainError = (Json body, s') →
  ∃ tx t to w d',
    txHash = Some tx ∧ tx ≠ EmptyString ∧
    getPaymentByTxHash (store s) tx = None ∧
    getTransactionReceipt tx = Some "success" ∧
    getTransaction tx = Some t ∧ tx_to t = Some to ∧
    toLowerCase to = toLowerCase ARENA_WALLET ∧
    100000000000000 <= tx_value t ∧
    wallet ag = Some w ∧ toLowerCase (tx_from t) = toLowerCase w ∧
    recordPayment (store s) payUuid (agent_id ag) tx
      (BigInt_toString (tx_value t)) (tx_from t) matchId = Some (d', payUuid) ∧
    s' = with_store s d'.
Proof.
  unfold post_match_pay.
  destruct txHash as [tx|]; [|done]. cbn [opt_truthy].
  destruct (String.eqb_spec tx EmptyString) as [|Hne]; [done|].
  destruct (getPaymentByTxHash _ _) eqn:Hnew; [done|].
  destruct (getTransactionReceipt tx) as [st|] eqn:Hst;
    [|unfold pay_catch; by repeat destruct (includes _ _)].
  destruct (String.eqb_spec st "success") as [->|]; [|done]. cbn [negb].
  destruct (getTransaction tx) as [t|] eqn:Ht;
    [|unfold pay_catch; by repeat destruct (includes _ _)].
  destruct (tx_to t) as [to|] eqn:Hto; [|done].
  destruct (String.eqb_spec (toLowerCase to) (toLowerCase ARENA_WALLET))
    as [Harena|]; [|done].
  cbn [negb]. unfold pay_checked, ENTRY_FEE_WEI, ENTRY_FEE_ETH.
  rewrite parseEther_min. cbn [from_option]. rewrite BigInt_parse_toString.
  destruct (Z.ltb_spec (tx_value t) 100000000000000) as [|Hfee]; [done|].
  destruct (wallet ag) as [w|] eqn:Hw; [|done]. cbn [opt_truthy].
  destruct (String.eqb w EmptyString); [done|].
  destruct (String.eqb_spec (toLowerCase (tx_from t)) (toLowerCase w))
    as [Hfrom|]; [|done].
  cbn [negb].
  destruct (recordPayment _ _ _ _ _ _ _) as [[d' i]|] eqn:Hrec; [|done].
  destruct (recordPayment_spec _ _ _ _ _ _ _ _ _ Hrec) as (-> & _).
  intros [= _ <-]. exists tx, t, to, w, d'. by repeat split.
Qed.

(** X11.  A payment is accepted only for a transaction the store has not
    seen, that succeeded on chain, was sent to the arena wallet from
    the agent's registered wallet (letter case aside) and carries at
    least the entry fee of 0.0001 ETH. *)
Lemma pay_accepted_only_if `{Viem} `{EtherText} (s : server) (ag : agent)
    (txHash matchId : option string) (payUuid chainError : string)
    (body : value) (s' : server) :
  post_match_pay s ag txHash matchId payUuid chainError = (Json body, s') →
  ∃ tx t to w,
    txHash = Some tx ∧ getPaymentByTxHash (store s) tx = None ∧
    getTransactionReceipt tx = Some "success" ∧
    getTransaction tx = Some t ∧
    tx_to t = Some to ∧ toLowerCase to = toLowerCase ARENA_WALLET ∧
    wallet ag = Some w ∧ toLowerCase (tx_from t) = toLowerCase w ∧
    100000000000000 <= tx_value t.
Proof.
  intros Hrun.
  destruct (pay_anatomy _ _ _ _ _ _ _ _ Hrun)
    as (tx & t & to & w & d' & ? & _ & ? & ? & ? & ? & ? & ? & ? & ? & _).
  by exists tx, t, to, w.
Qed.

Lemma pay_accepted_only_if_witness :
  ∃ t, @getTransaction sampleViem "0xpaid" = Some t ∧
       100000000000000 <= tx_value t.
Proof.
  assert (Hrun : ∃ body,
    @post_match_pay sampleViem sampleEther server0 bob (Some "0xpaid") None
      "p9" "TransactionNotFoundError" = (Json body, server_paid))
    by (eexists; vm_compute; reflexivity).
  destruct Hrun as (body & Hrun).
  destruct (@pay_accepted_only_if sampleViem sampleEther _ _ _ _ _ _ _ _ Hrun)
    as (tx & t & to & w & [= <-] & _ & _ & Ht & _ & _ & _ & _ & Hfee).
  exists t. split; [exact Ht|exact Hfee].
Defined.

(** X12.  An accepted payment adds the value of its transaction to the
    balance the store reports for the paying agent, as long as the sum
    of that agent's payments stays below 2^53 wei, the range in which
    the double that carries the sum is exact; every other agent's
    balance is as it was, and the paying agent can afford a quick match
    afterwards. *)
Lemma pay_credits_sender `{Viem} `{EtherText} (s : server) (ag : agent)
    (tx : string) (matchId : option string) (payUuid chainError : string)
    (body : value) (s' : server) (t : chain_tx) (b : Z) :
  post_match_pay s ag (Some tx) matchId payUuid chainError = (Json body, s') →
  getTransaction tx = Some t →
  paid_total (store s) (agent_id ag) = Some b → 0 <= b →
  b + tx_value t < 2 ^ 53 →
  getAgentPaymentBalance (store s) (agent_id ag) = Some (BigInt_toString b) ∧
  getAgentPaymentBalance (store s') (agent_id ag)
    = Some (BigInt_toString (b + tx_value t)) ∧
  (∀ a, a ≠ agent_id ag →
        getAgentPaymentBalance (store s') a = getAgentPaymentBalance (store s) a) ∧
  canAgentAffordMatch (store s') (agent_id ag) ENTRY_FEE_WEI = Some true.
Proof.
  intros Hrun Ht Hb Hpos Hsafe.
  destruct (pay_anatomy _ _ _ _ _ _ _ _ Hrun)
    as (tx0 & t0 & to & w & d' & [= <-] & _ & _ & _ & Ht0 & _ & _ & Hfee & _ & _
        & Hrec & ->).
  rewrite Ht in Ht0. injection Ht0 as <-. cbn [store with_store].
  assert (Hsum : ∀ a, paid_total d' a =
            if decide (agent_id ag = a)
            then t0 ← paid_total (store s) a;
                 if Z.leb INT64_MIN (t0 + Z.min INT64_MAX (tx_value t))
                    && Z.leb (t0 + Z.min INT64_MAX (tx_value t)) INT64_MAX
                 then Some (t0 + Z.min INT64_MAX (tx_value t)) else None
            else paid_total (store s) a).
  { assert (Hv : 0 <= tx_value t) by lia.
    intros a. apply (paid_total_recorded _ _ _ _ _ _ _ _ _ a Hv Hrec). }
  assert (Hnew : paid_total d' (agent_id ag) = Some (b + tx_value t)).
  { rewrite Hsum. destruct (decide _) as [_|]; [|done]. rewrite Hb.
    cbn [mbind option_bind]. unfold INT64_MAX, INT64_MIN in *.
    assert (2 ^ 53 < 2 ^ 63 - 1) by done.
    rewrite Z.min_r by lia.
    destruct (Z.leb_spec (- 2 ^ 63) (b + tx_value t)); [|lia].
    destruct (Z.leb_spec (b + tx_value t) (2 ^ 63 - 1)); [done|lia]. }
  assert (Htext : getAgentPaymentBalance d' (agent_id ag)
                  = Some (BigInt_toString (b + tx_value t))).
  { unfold getAgentPaymentBalance. rewrite Hnew. cbn [mbind option_bind].
    by rewrite Number_toString_safe by lia. }
  split; [|split; [exact Htext|split]].
  - unfold getAgentPaymentBalance. rewrite Hb. cbn [mbind option_bind].
    by rewrite Number_toString_safe by lia.
  - intros a Hne. unfold getAgentPaymentBalance. rewrite Hsum.
    destruct (decide _); [congruence|done].
  - unfold canAgentAffordMatch. rewrite Htext. cbn [mbind option_bind].
    rewrite BigInt_parse_toString. cbn [mbind option_bind].
    rewrite ENTRY_FEE_WEI_value, BigInt_parse_toString. cbn [mbind option_bind].
    f_equal. apply Z.leb_le. lia.
Qed.

Lemma pay_credits_sender_witness :
  @getAgentPaymentBalance (store server_paid) "b" = Some "100000000000000" ∧
  @canAgentAffordMatch (store server_paid) "b" (@ENTRY_FEE_WEI sampleViem)
    = Some true.
Proof.
  assert (Hrun : ∃ body,
    @post_match_pay sampleViem sampleEther server0 bob (Some "0xpaid") None
      "p9" "TransactionNotFoundError" = (Json body, server_paid))
    by (eexists; vm_compute; reflexivity).
  destruct Hrun as (body & Hrun).
  destruct (@pay_credits_sender sampleViem sampleEther _ _ _ _ _ _ _ _
              sampleTx 0 Hrun eq_refl eq_refl ltac:(lia) ltac:(done))
    as (_ & Hbal & _ & Hafford).
  split; [exact Hbal|exact Hafford].
Defined.

(** Beyond 2^53 wei the balance reported is the double nearest to the
    sum: one wei on top of 2^53 is not seen. *)
Example balance_beyond_2_53 :
  Number_toString (Number_of (2 ^ 53 + 1)) = "9007199254740992" ∧
  Number_toString (Number_of (2 ^ 63 - 1)) = "9223372036854776000" ∧
  sql_sum [5000000000000000000; 5000000000000000000] = None.
Proof. repeat split. Qed.

(** X13.  A transaction that paid once is spent: whoever presents its hash
    again, to the payment request or as the payment of a match to
    create or join, is told that it was already processed, and nothing
    is written. *)
Lemma paid_transaction_is_spent `{Viem} `{EtherText} (s : server) (ag : agent)
    (tx : string) (matchId : option string) (payUuid chainError : string)
    (body : value) (s' : server) :
  post_match_pay s ag (Some tx) matchId payUuid chainError = (Json body, s') →
  (∀ ag' matchId' payUuid' chainError',
     post_match_pay s' ag' (Some tx) matchId' payUuid' chainError'
     = (Error 400 "Transaction already processed", s')) ∧
  (∀ ag' requiredWei,
     verify_payment (store s') ag' tx requiredWei
     = Some (Some "Transaction already processed")).
Proof.
  intros Hrun.
  destruct (pay_anatomy _ _ _ _ _ _ _ _ Hrun)
    as (tx0 & t & to & w & d' & [= <-] & Hne & _ & _ & _ & _ & _ & _ & _ & _
        & Hrec & ->).
  apply recordPayment_spec in Hrec as (_ & _ & Hpay & _).
  assert (Hseen : is_Some (getPaymentByTxHash d' tx)).
  { destruct (getPaymentByTxHash d' tx) eqn:Hget; [by eexists|].
    apply getPaymentByTxHash_None in Hget. exfalso. apply Hget.
    unfold tx_hashes. rewrite Hpay, map_app. apply elem_of_app. right.
    apply list_elem_of_here. }
  destruct Hseen as [p Hp]. split.
  - intros ag' matchId' payUuid' chainError'. unfold post_match_pay.
    cbn [opt_truthy store with_store].
    destruct (String.eqb_spec tx EmptyString) as [|_]; [done|]. by rewrite Hp.
  - intros ag' requiredWei. unfold verify_payment. cbn [store with_store].
    by rewrite Hp.
Qed.

Lemma paid_transaction_is_spent_witness :
  @post_match_pay sampleViem sampleEther server_paid alice (Some "0xpaid") None
    "p10" "TransactionNotFoundError"
  = (Error 400 "Transaction already processed", server_paid).
Proof.
  assert (Hrun : ∃ body,
    @post_match_pay sampleViem sampleEther server0 bob (Some "0xpaid") None
      "p9" "TransactionNotFoundError" = (Json body, server_paid))
    by (eexists; vm_compute; reflexivity).
  destruct Hrun as (body & Hrun).
  exact (proj1 (@paid_transaction_is_spent sampleViem sampleEther _ _ _ _ _ _ _ _
                  Hrun) alice None "p10" "TransactionNotFoundError").
Defined.

(** X14.  Being queued, and being paired from the queue, writes no payment
    and debits no balance: what an agent could afford before the
    request it can afford after it, so one payment of the entry fee
    is good for any number of quick matches. *)
Lemma queue_costs_nothing `{Viem} `{ChallengeGenerator} (s : server)
    (ag : agent) (b : queue_body) (rnd : Z) (seed uuid now : string) :
  payments (store (snd (post_match_queue s ag b rnd seed uuid now)))
    = payments (store s) ∧
  ∀ a fee,
    canAgentAffordMatch (store (snd (post_match_queue s ag b rnd seed uuid now)))
                        a fee
    = canAgentAffordMatch (store s) a fee.
Proof.
  assert (Hpay : payments (store (snd (post_match_queue s ag b rnd seed uuid now)))
                 = payments (store s)).
  { unfold post_match_queue.
    destruct (canAgentAffordMatch _ _ _) as [[|]|]; try done.
    destruct (already_queued _ _); [done|].
    assert (Hq : payments (store (snd (tryMatchmaking
      {| store := store s;
         matchQueue := matchQueue s ++ [new_entry ag b rnd now] |}
      seed uuid now))) = payments (store s)).
    { unfold tryMatchmaking. cbn [store matchQueue].
      destruct (matchQueue s ++ [new_entry ag b rnd now])%list
        as [|e1 [|e2 rest]]; [done|done|].
      destruct (generateChallenge _ _ _) as [ch|]; [|done].
      destruct (quick_match_insert _ _ _ _ _ _ _) as [d'|] eqn:Hins; [|done].
      cbn [snd store]. unfold quick_match_insert in Hins.
      destruct (BigInt_parse ENTRY_FEE_WEI) as [fee|]; [|done].
      cbn [mbind option_bind] in Hins.
      destruct (arenaCutWei _) as [cut|]; [|done].
      cbn [mbind option_bind] in Hins.
      destruct (winnerPayoutWei _ _) as [payout|]; [|done].
      cbn [mbind option_bind] in Hins.
      destruct (bind_text _) as [ty|]; [|done]. cbn [mbind option_bind] in Hins.
      destruct (bind_int _) as [tl|]; [|done]. cbn [mbind option_bind] in Hins.
      destruct (matches (store s) !! uuid); [done|]. by injection Hins as <-. }
    by destruct (tryMatchmaking _ _ _ _) as [[[[mid ch]|]|] s2]. }
  split; [exact Hpay|]. intros a fee.
  unfold canAgentAffordMatch, getAgentPaymentBalance, paid_total. by rewrite Hpay.
Qed.


(** ** Ratings and counters of a regular match *)



(** ** Joining a match *)




(** ** Creating a match: two edges *)

(** X17.  A custom match of type 'random' can never be created: the handler
    passes [null] for the type, which the NOT NULL column refuses, so
    the request is never answered with success and nothing is written. *)
Lemma create_random_never_creates `{Viem} (s : server) (ag : agent)
    (b : create_body) (seed uuid payUuid : string) :
  cb_challengeType b = Some "random" →
  snd (post_match_create s ag b seed uuid payUuid) = s ∧
  ∀ body, fst (post_match_create s ag b seed uuid payUuid) ≠ Json body.
Proof.
  intros Hty.
  assert (Hins : ∀ fee wei dif tx,
    create_insert s ag "random" fee wei dif tx seed uuid payUuid
    = (Error 500 "Failed to create match", s)) by done.
  unfold post_match_create. rewrite Hty. cbn [opt_truthy String.eqb Ascii.eqb Bool.eqb].
  destruct (opt_truthy (cb_entryFee b)) as [fee|]; [|done].
  destruct (BigInt_toString <$> parseEther fee) as [wei|]; [|done].
  destruct (BigInt_toString <$> parseEther "0.0001") as [minWei|]; [|done].
  destruct (BigInt_parse wei) as [f|]; [|done].
  destruct (BigInt_parse minWei) as [m|]; [|done].
  destruct (Z.ltb f m); [done|].
  destruct (opt_truthy (cb_txHash b)) as [tx|]; [|by rewrite Hins].
  destruct (verify_payment _ _ _ _) as [[e|]|]; [done|by rewrite Hins|done].
Qed.

Lemma create_random_never_creates_witness :
  snd (@post_match_create sampleViem server0 alice
         {| cb_challengeType := Some "random"; cb_entryFee := Some "0.0001";
            cb_difficulty := None; cb_txHash := None |} "ab12" "m1" "p1")
  = server0.
Proof.
  exact (proj1 (@create_random_never_creates sampleViem server0 alice
                  {| cb_challengeType := Some "random";
                     cb_entryFee := Some "0.0001";
                     cb_difficulty := None; cb_txHash := None |}
                  "ab12" "m1" "p1" eq_refl)).
Defined.

(** X18.  A match created without a transaction hash is open to join all the
    same, and its creator is charged nothing: no payment is recorded
    and no balance changes. *)
Lemma create_without_payment `{Viem} (s : server) (ag : agent)
    (b : create_body) (seed uuid payUuid : string) (body : value) (s' : server) :
  cb_txHash b = None →
  post_match_create s ag b seed uuid payUuid = (Json body, s') →
  payments (store s') = payments (store s) ∧
  ∃ row, getMatch (store s') uuid = Some row ∧ status row = "open" ∧
         agent1_id row = agent_id ag ∧
         getprop body "match_id" = Some (VStr uuid).
Proof.
  intros Htx. unfold post_match_create.
  destruct (opt_truthy (cb_challengeType b)) as [ty|]; [|done].
  destruct (opt_truthy (cb_entryFee b)) as [fee|]; [|done].
  destruct (BigInt_toString <$> parseEther fee) as [wei|]; [|done].
  destruct (BigInt_toString <$> parseEther "0.0001") as [minWei|]; [|done].
  destruct (BigInt_parse wei) as [f|]; [|done].
  destruct (BigInt_parse minWei) as [m|]; [|done].
  destruct (Z.ltb f m); [done|].
  rewrite Htx. cbn [opt_truthy]. unfold create_insert, createCustomMatch.
  destruct (if String.eqb ty "random" then None else Some ty) as [ty'|]; [|done].
  destruct (matches (store s) !! uuid); [done|].
  intros [= <- <-]. cbn [store with_store payments with_matches].
  split; [done|]. eexists. unfold getMatch. cbn [matches with_matches].
  rewrite lookup_insert_eq. split; [done|]. by repeat split.
Qed.

Lemma create_without_payment_witness :
  payments (store server_open) = payments (store server0).
Proof.
  assert (Hrun : ∃ body,
    @post_match_create sampleViem server0 alice body_cipher "ab12" "m1" "p1"
    = (Json body, server_open)) by (eexists; vm_compute; reflexivity).
  destruct Hrun as (body & Hrun).
  exact (proj1 (@create_without_payment sampleViem server0 alice body_cipher
                  "ab12" "m1" "p1" body server_open eq_refl Hrun)).
Defined.

(** ** The id a paired agent is told *)

(** X19.  When a request to queue finds an opponent, the match is stored
    under its UUID, but the id in the answer is the number of rows of
    the matches table; unless that number is the UUID, or names an
    older match, the id answered names no match. *)
Lemma queue_reports_row_number `{Viem} `{ChallengeGenerator} (s : server)
    (ag : agent) (b : queue_body) (rnd : Z) (seed uuid now : string)
    (body : value) (s' : server) :
  post_match_queue s ag b rnd seed uuid now = (Json body, s') →
  getprop body "message" = Some (VStr "Match found!") →
  let reported := BigInt_toString (Z.of_nat (size (matches (store s')))) in
  getprop body "match_id" = Some (VStr reported) ∧
  (∃ row, getMatch (store s') uuid = Some row ∧ status row = "active") ∧
  (uuid ≠ reported → getMatch (store s) reported = None →
   getMatch (store s') reported = None).
Proof.
  unfold post_match_queue.
  destruct (canAgentAffordMatch _ _ _) as [[|]|]; try done.
  destruct (already_queued _ _); [done|].
  set (s1 := {| store := store s;
                matchQueue := matchQueue s ++ [new_entry ag b rnd now] |}).
  destruct (tryMatchmaking s1 seed uuid now) as [[[[mid ch]|]|] s2] eqn:Htry;
    [|by intros [= <- <-]|done].
  intros [= <- <-] _. cbv zeta.
  unfold tryMatchmaking in Htry.
  destruct (matchQueue s1) as [|e1 [|e2 rest]]; [done|done|].
  destruct (generateChallenge _ _ _) as [ch'|]; [|done].
  destruct (quick_match_insert _ _ _ _ _ _ _) as [d'|] eqn:Hins; [|done].
  injection Htry as <- <- <-. cbn [store getprop field String.eqb Ascii.eqb Bool.eqb].
  split; [done|]. unfold quick_match_insert in Hins.
  destruct (BigInt_parse ENTRY_FEE_WEI) as [fee|]; [|done].
  cbn [mbind option_bind] in Hins.
  destruct (arenaCutWei _) as [cut|]; [|done]. cbn [mbind option_bind] in Hins.
  destruct (winnerPayoutWei _ _) as [payout|]; [|done].
  cbn [mbind option_bind] in Hins.
  destruct (bind_text _) as [ty|]; [|done]. cbn [mbind option_bind] in Hins.
  destruct (bind_int _) as [tl|]; [|done]. cbn [mbind option_bind] in Hins.
  destruct (matches (store s1) !! uuid) eqn:Hfresh; [done|].
  injection Hins as <-. unfold getMatch. cbn [matches with_matches]. split.
  - eexists. rewrite lookup_insert_eq. by split.
  - intros Hne Hold. by rewrite lookup_insert_ne.
Qed.

Lemma queue_reports_row_number_witness :
  getMatch (store server_paired) "1" = None ∧
  ∃ row, getMatch (store server_paired) "q1" = Some row ∧ status row = "active".
Proof.
  assert (Hrun : ∃ body,
    @post_match_queue sampleViem sampleEngine server_waiting bob
      {| qb_challenge_type := Some "cipher_break"; qb_difficulty := None |}
      2 "5eed" "q1" "2026-01-01 08:00:05" = (Json body, server_paired) ∧
    getprop body "message" = Some (VStr "Match found!"))
    by (eexists; split; vm_compute; reflexivity).
  destruct Hrun as (body & Hrun & Hmsg).
  destruct (@queue_reports_row_number sampleViem sampleEngine _ _ _ _ _ _ _ _ _
              Hrun Hmsg) as (_ & Hrow & Hnone).
  assert (Hsize : BigInt_toString (Z.of_nat (size (matches (store server_paired))))
                  = "1") by (vm_compute; reflexivity).
  rewrite Hsize in Hnone. split; [|exact Hrow].
  apply Hnone; [discriminate|vm_compute; reflexivity].
Defined.


(** ** Practice matches *)

Lemma completeMatch_practice_agents `{EloArithmetic} (d : db)
    (now matchId : string) (winnerId : option string) (m : match_row) :
  matches d !! matchId = Some m → practice m = true →
  agents (after (completeMatch d now matchId winnerId)) = agents d.
Proof.
  intros Hm Hprac. unfold completeMatch. set (d1 := with_matches d _).
  assert (Hm1 : matches d1 !! matchId = Some (set_completed m winnerId now)).
  { unfold d1. cbn [matches with_matches]. by rewrite lookup_alter_eq, Hm. }
  rewrite (updateELO_practice d1 matchId winnerId _ Hm1); [done|].
  cbn [is_practice set_completed]. unfold practice in Hprac.
  intros Hz. by rewrite Hz in Hprac.
Qed.

(** X21.  An answer to a practice match never touches a rating and never
    starts a payout.  A valid one wins the match for the agent at once;
    a wrong one leaves the match as it is and starts a five-second
    timer, and when that timer runs with PracticeBot on record the
    match is completed with PracticeBot as winner, again without any
    change to the agents. *)
Lemma practice_answer_settles `{ChallengeGenerator} `{EloArithmetic}
    (s : server) (ag : agent) (matchId text uuid now : string) (m : match_row)
    (body : value) (s' : server) (effs : list effect) :
  post_match_submit s ag matchId (Some text) uuid now = (Json body, s', effs) →
  getMatch (store s) matchId = Some m → practice m = true →
  agents (store s') = agents (store s) ∧
  (∀ i w p, SendPayout i w p ∉ effs) ∧
  if valid (validateSolution (challenge_data m) text)
  then ∃ m', getMatch (store s') matchId = Some m' ∧
             status m' = "completed" ∧ winner_id m' = Some (agent_id ag)
  else SetTimeout 5000 matchId ∈ effs ∧
       matches (store s') = matches (store s) ∧
       ∀ bot now',
         getPracticeBot (store s') = Some bot →
         let d' := snd (practice_timer (store s') now' matchId (solution_type m)) in
         agents d' = agents (store s) ∧
         ∃ m', getMatch d' matchId = Some m' ∧ status m' = "completed" ∧
               winner_id m' = Some (agent_id bot).
Proof.
  intros Hrun Hm Hprac.
  destruct (submit_anatomy _ _ _ _ _ _ _ _ _ Hrun)
    as (m0 & text0 & d1 & l & d' & [= <-] & _ & Hm0 & _ & _ & _ & Hsub & Hset
        & -> & _ & ->).
  rewrite Hm in Hm0. injection Hm0 as <-.
  apply submitSolution_spec in Hsub as (_ & _ & _ & Hmatches & Hagents & _).
  unfold submit_settle in Hset. rewrite Hprac in Hset. cbn [store with_store].
  destruct (valid (validateSolution (challenge_data m) text)).
  - set (d2 := markSubmissionCorrect d1 uuid
                 (score (validateSolution (challenge_data m) text))) in *.
    assert (Hm2 : matches d2 !! matchId = Some m).
    { unfold d2, markSubmissionCorrect. cbn [matches with_submissions].
      rewrite Hmatches. exact Hm. }
    pose proof (completeMatch_practice_agents d2 now matchId
                  (Some (agent_id ag)) m Hm2 Hprac) as Hag.
    pose proof (completeMatch_rows d2 now matchId (Some (agent_id ag)) matchId)
      as Hrow.
    rewrite Hm2 in Hrow. destruct Hrow as (m' & Hm' & _ & _ & _ & _ & _ & Hdone).
    destruct (resolved _); [|done]. injection Hset as <- <-.
    split; [by rewrite Hag|]. split.
    + intros i w p Hin. apply elem_of_app in Hin as [Hin|Hin];
        apply list_elem_of_singleton in Hin; discriminate.
    + exists m'. split; [exact Hm'|]. by apply Hdone.
  - injection Hset as <- <-. split; [done|]. split.
    + intros i w p Hin. apply elem_of_app in Hin as [Hin|Hin];
        apply list_elem_of_singleton in Hin; discriminate.
    + split; [apply elem_of_app; left; apply list_elem_of_here|].
      split; [done|]. intros bot now' Hbot. cbv zeta.
      unfold practice_timer. rewrite Hbot.
      assert (Hm1 : matches d1 !! matchId = Some m)
        by (rewrite Hmatches; exact Hm).
      pose proof (completeMatch_practice_agents d1 now' matchId
                    (Some (agent_id bot)) m Hm1 Hprac) as Hag.
      pose proof (completeMatch_rows d1 now' matchId (Some (agent_id bot)) matchId)
        as Hrow.
      rewrite Hm1 in Hrow. destruct Hrow as (m' & Hm' & _ & _ & _ & _ & _ & Hdone).
      destruct (resolved _); cbn [snd]; (split; [by rewrite Hag|]);
        exists m'; (split; [exact Hm'|]); by apply Hdone.
Qed.

Lemma practice_answer_settles_witness :
  agents (store server_practice_missed) = agents (store server_practice) ∧
  matches (store server_practice_missed) = matches (store server_practice).
Proof.
  assert (Hrun : ∃ body effs,
    @post_match_submit sampleEngine sampleElo server_practice alice "pm1"
      (Some "WRONG") "s1" "2026-01-01 09:00:30"
    = (Json body, server_practice_missed, effs))
    by (eexists _, _; vm_compute; reflexivity).
  destruct Hrun as (body & effs & Hrun).
  assert (Hm : ∃ m, getMatch (store server_practice) "pm1" = Some m ∧
    practice m = true ∧
    valid (@validateSolution sampleEngine (challenge_data m) "WRONG") = false)
    by (eexists; split; [|split]; vm_compute; reflexivity).
  destruct Hm as (m & Hm & Hprac & Hbad).
  pose proof (@practice_answer_settles sampleEngine sampleElo _ _ _ _ _ _ _ _ _ _
                Hrun Hm Hprac) as (Hag & _ & Hrest).
  rewrite Hbad in Hrest. destruct Hrest as (_ & Hsame & _).
  split; [exact Hag|exact Hsame].
Defined.

(** ** Solutions on the match page *)

(** X22.  While a match is not completed, its page shows every submission
    with its agent, but a solution only to the agent who submitted it:
    every other entry, and every entry of a request without a valid
    API key, has no solution field. *)
Lemma solutions_hidden_while_running (d : db) (matchId : string)
    (apiKey : option string) (m : match_row) (body : value) :
  getMatch d matchId = Some m → status m ≠ "completed" →
  get_match d matchId apiKey = Json body →
  ∃ entries,
    getprop body "submissions" = Some (VArr entries) ∧
    Forall2
      (fun sub entry =>
         ∃ o, entry = VObj o ∧
              field "agent_id" o = Some (VStr (sub_agent_id sub)) ∧
              field "solution" o =
                if own_solution (opt_truthy apiKey ≫= getAgentByApiKey d) sub
                then Some (VStr (sub_solution sub)) else None)
      (getMatchSubmissions d (id m)) entries.
Proof.
  intros Hm Hrun. unfold get_match. rewrite Hm.
  destruct (safeChallenge (challenge_data m)) as [safe|]; [|done].
  destruct (String.eqb_spec (status m) "completed") as [|_]; [done|].
  set (req := opt_truthy apiKey ≫= getAgentByApiKey d).
  intros Hb.
  apply (f_equal (fun r => match r with Json b => b | _ => VNull end)) in Hb.
  cbv beta iota in Hb. subst body.
  change (wire (VObj ?o)) with (VObj (wire_obj o)). cbn [getprop].
  rewrite (field_wire_Some _ _
             (VArr (map (safeSubmission d false req)
                        (getMatchSubmissions d (id m)))));
    [|apply field_put_eq|discriminate].
  eexists. split; [reflexivity|].
  induction (getMatchSubmissions d (id m)) as [|sub subs IH]; [constructor|].
  cbn [map]. constructor; [|exact IH]. clear IH.
  unfold safeSubmission, own_solution.
  destruct (agent_name <$> getAgent d (sub_agent_id sub)) as [name|];
    destruct req as [a|];
    try destruct (String.eqb (sub_agent_id sub) (agent_id a));
    eexists; (split; [reflexivity|]); by cbn.
Qed.

Lemma solutions_hidden_while_running_witness :
  ∃ o,
    getprop (match @get_match (store server_missed) "m1" (Some "dk_a") with
             | Json body => body
             | _ => VNull
             end) "submissions" = Some (VArr [VObj o]) ∧
    field "agent_id" o = Some (VStr "b") ∧ field "solution" o = None.
Proof.
  assert (Hrun : ∃ body, get_match (store server_missed) "m1" (Some "dk_a")
                         = Json body) by (eexists; vm_compute; reflexivity).
  destruct Hrun as (body & Hrun).
  assert (Hm : ∃ m, getMatch (store server_missed) "m1" = Some m ∧
                    status m ≠ "completed" ∧ id m = "m1")
    by (eexists; split; [vm_compute; reflexivity|]; split; [|reflexivity];
        vm_compute; discriminate).
  destruct Hm as (m & Hm & Hst & Hid).
  destruct (solutions_hidden_while_running _ _ _ _ _ Hm Hst Hrun)
    as (entries & Hsubs & Hall).
  rewrite Hid in Hall.
  assert (Hlist : ∃ sub, getMatchSubmissions (store server_missed) "m1" = [sub] ∧
                         sub_agent_id sub = "b" ∧
                         own_solution (opt_truthy (Some "dk_a")
                                       ≫= getAgentByApiKey (store server_missed))
                                      sub = false)
    by (eexists; split; [vm_compute; reflexivity|]; split; vm_compute; reflexivity).
  destruct Hlist as (sub & Hlist & Hb & Hown).
  rewrite Hlist in Hall.
  inversion Hall as [|? entry ? rest (o & Ho & Hag & Hsol) Hrest]; subst.
  inversion Hrest; subst. rewrite Hown in Hsol. rewrite Hb in Hag.
  exists o. rewrite Hrun. split; [exact Hsubs|]. split; [exact Hag|exact Hsol].
Defined.


(** ** The live feed *)

Lemma pop_while_take (fuel : nat) (l : list feed_event) :
  (length l <= fuel + MAX_RECENT_EVENTS)%nat →
  pop_while fuel l = take MAX_RECENT_EVENTS l.
Proof.
  revert l. induction fuel as [|fuel IH]; intros l Hlen.
  - cbn [pop_while]. by rewrite take_ge by (cbn in Hlen; lia).
  - cbn [pop_while]. destruct (Nat.ltb_spec MAX_RECENT_EVENTS (length l)) as [Hgt|Hle].
    + rewrite IH.
      * rewrite removelast_firstn_len. unfold MAX_RECENT_EVENTS in *.
        rewrite take_take. f_equal. lia.
      * rewrite removelast_firstn_len, length_take. lia.
    + by rewrite take_ge by lia.
Qed.

(** X28.  The events kept in memory are the twenty most recent, newest
    first: a broadcast puts its event in front and drops what lies
    beyond the twentieth place. *)
Lemma recent_events_capped (recentEvents : list feed_event) (e : feed_event) :
  broadcastSSE_recent recentEvents e = take 20 (e :: recentEvents) ∧
  (length (broadcastSSE_recent recentEvents e) <= 20)%nat ∧
  head (broadcastSSE_recent recentEvents e) = Some e.
Proof.
  assert (Heq : broadcastSSE_recent recentEvents e = take 20 (e :: recentEvents)).
  { unfold broadcastSSE_recent. rewrite pop_while_take; [done|].
    cbn [length]. lia. }
  rewrite Heq. split; [done|]. split; [|done].
  rewrite length_take. lia.
Qed.

#[export] Instance newer_total : Total newer.
Proof. intros r1 r2. unfold newer. lia. Qed.

#[export] Instance newer_trans : Transitive newer.
Proof. intros r1 r2 r3. unfold newer. lia. Qed.

(** The newest row comes first. *)
Lemma newest_first_head (rows : list feed_row) (new : feed_row) :
  new ∈ rows → (∀ r, r ∈ rows → r = new ∨ fr_id r < fr_id new) →
  head (newest_first rows) = Some new.
Proof.
  intros Hin Hmax. unfold newest_first.
  pose proof (Sorted_merge_sort newer rows) as Hsorted.
  pose proof (merge_sort_Permutation newer rows) as Hperm.
  destruct (merge_sort newer rows) as [|x l]; cbn [head].
  - rewrite <- Hperm in Hin. inversion Hin.
  - f_equal. assert (Hx : x ∈ rows) by (rewrite <- Hperm; apply list_elem_of_here).
    destruct (Hmax x Hx) as [|Hlt]; [done|]. exfalso.
    rewrite <- Hperm in Hin. apply elem_of_cons in Hin as [->|Hin]; [lia|].
    apply Sorted_StronglySorted in Hsorted; [|apply _].
    apply StronglySorted_inv in Hsorted as [_ Hall].
    rewrite Forall_forall in Hall. apply Hall in Hin.
    unfold newer in Hin. lia.
Qed.

Lemma max_id_bound (ids : list Z) (i : Z) :
  i ∈ ids → i <= foldr Z.max 0 ids.
Proof.
  induction ids as [|j ids IH]; [intros Hin; inversion Hin|].
  cbn [foldr]. intros Hin. apply elem_of_cons in Hin as [->|Hin]; [lia|].
  specialize (IH Hin). lia.
Qed.

(** X29.  The persistent feed keeps the hundred newest events and serves the
    newest first: after an event is saved the table holds it, has at
    most 100 rows with distinct ids, and the page of recent events
    starts with the event just saved and has at most 20 entries. *)
Lemma feed_keeps_newest (f : feed_table) (event : string) (data : obj)
    (now : string) :
  feed_ok f →
  let f' := saveFeedEvent f event data now in
  feed_ok f' ∧ (length (feed_rows f') <= 100)%nat ∧
  head (getRecentFeedEvents f' 20)
    = Some {| fe_event := event; fe_data := wire_obj data;
              fe_timestamp := now |} ∧
  (length (getRecentFeedEvents f' 20) <= 20)%nat.
Proof.
  intros [Hnd Hseq]. cbv zeta. unfold saveFeedEvent.
  set (i := Z.max (feed_seq f) (foldr Z.max 0 (map fr_id (feed_rows f))) + 1).
  set (new := {| fr_id := i; fr_event := event; fr_data := wire_obj data;
                 fr_created_at := now |}).
  set (rows := (feed_rows f ++ [new])%list).
  assert (Hold : ∀ r, r ∈ feed_rows f → fr_id r < i).
  { intros r Hr.
    assert (fr_id r <= foldr Z.max 0 (map fr_id (feed_rows f)))
      by (apply max_id_bound, list_elem_of_fmap; by exists r).
    unfold i. lia. }
  assert (Hmax : ∀ r, r ∈ rows → r = new ∨ fr_id r < fr_id new).
  { intros r Hr. apply elem_of_app in Hr as [Hr|Hr].
    - right. by apply Hold.
    - left. by apply list_elem_of_singleton in Hr. }
  assert (Hnew : new ∈ rows) by (apply elem_of_app; right; apply list_elem_of_here).
  assert (Hrows : NoDup (map fr_id rows)).
  { unfold rows. rewrite map_app. apply NoDup_app. split; [done|].
    split; [|apply NoDup_singleton].
    intros j Hj Hj'. apply list_elem_of_singleton in Hj'. cbn in Hj'. subst j.
    apply list_elem_of_fmap in Hj as (r & Hr & Hin). specialize (Hold r Hin). lia. }
  pose proof (newest_first_head rows new Hnew Hmax) as Hhead.
  assert (Hlim : ∀ (n : nat) A (l : list A),
            sql_limit (Z.of_nat n) l = take n l).
  { intros n A l. unfold sql_limit.
    destruct (Z.ltb_spec (Z.of_nat n) 0) as [|_]; [lia|]. by rewrite Nat2Z.id. }
  rewrite (Hlim 100%nat).
  set (kept := map fr_id (take 100 (newest_first rows))).
  assert (Hkept : fr_id new ∈ kept).
  { unfold kept. destruct (newest_first rows) as [|x l]; [done|].
    injection Hhead as ->. apply list_elem_of_here. }
  set (rows' := filter (fun r => fr_id r ∈ kept) rows).
  assert (Hnew' : new ∈ rows') by (by apply list_elem_of_filter).
  assert (Hsub : ∀ r, r ∈ rows' → r ∈ rows)
    by (intros r Hr; by apply list_elem_of_filter in Hr as [_ ?]).
  assert (Hnd' : NoDup (map fr_id rows')).
  { eapply sublist_NoDup; [exact Hrows|].
    apply (fmap_sublist fr_id), sublist_filter. }
  cbn [feed_rows feed_seq]. split; [|split; [|split]].
  - split; [done|]. intros r Hr. apply Hsub in Hr.
    destruct (Hmax r Hr) as [->|Hlt]; [done|].
    unfold new in Hlt. cbn [fr_id] in Hlt. cbn [feed_seq]. lia.
  - rewrite <- (length_map fr_id rows').
    transitivity (length kept).
    + apply submseteq_length, NoDup_submseteq; [done|].
      intros j Hj. apply list_elem_of_fmap in Hj as (r & -> & Hr).
      by apply list_elem_of_filter in Hr as [? _].
    + unfold kept. rewrite length_map, length_take. lia.
  - unfold getRecentFeedEvents. cbn [feed_rows]. rewrite (Hlim 20%nat).
    pose proof (newest_first_head rows' new Hnew'
                  (fun r Hr => Hmax r (Hsub r Hr))) as Hhead'.
    destruct (newest_first rows') as [|x l]; [done|].
    injection Hhead' as ->. done.
  - unfold getRecentFeedEvents. cbn [feed_rows]. rewrite (Hlim 20%nat).
    rewrite length_map, length_take. lia.
Qed.

Lemma feed_keeps_newest_witness :
  head (getRecentFeedEvents
          (saveFeedEvent sample_feed "match_completed" [("winner", VStr "bob")]
                         "2026-01-01 10:01:00") 20)
  = Some {| fe_event := "match_completed";
            fe_data := wire_obj [("winner", VStr "bob")];
            fe_timestamp := "2026-01-01 10:01:00" |}.
Proof.
  assert (Hok : feed_ok sample_feed).
  { split.
    - cbn [sample_feed feed_rows map fr_id]. apply NoDup_cons. split.
      + intros Hin. apply list_elem_of_singleton in Hin. discriminate.
      + apply NoDup_singleton.
    - intros r Hr. cbn [sample_feed feed_rows feed_seq] in *.
      apply elem_of_cons in Hr as [->|Hr]; [cbn; lia|].
      apply list_elem_of_singleton in Hr. subst r. cbn. lia. }
  exact (proj1 (proj2 (proj2 (feed_keeps_newest sample_feed "match_completed"
                                [("winner", VStr "bob")] "2026-01-01 10:01:00"
                                Hok)))).
Defined.


(** ** Registration challenges (erc8004.js) *)

(** What the cleaning timer leaves of a challenge: the entry as it is,
    or nothing; the entry as it is when the timer only ran before the
    challenge expired. *)
Lemma clean_expired_lookup (p : gmap string pending) (sweeps : list Z)
    (nonce : string) (c : pending) :
  p !! nonce = Some c →
  (foldl clean_expired p sweeps !! nonce = Some c ∨
   foldl clean_expired p sweeps !! nonce = None) ∧
  (Forall (fun t => t <= p_expires c) sweeps →
   foldl clean_expired p sweeps !! nonce = Some c).
Proof.
  revert p. induction sweeps as [|t sweeps IH]; intros p Hc; cbn [foldl].
  { split; [by left|done]. }
  destruct (decide (p_expires c < t)) as [Hlate|Hin].
  - assert (Hgone : ∀ l, foldl clean_expired (clean_expired p t) l !! nonce = None).
    { assert (H0 : clean_expired p t !! nonce = None).
      { unfold clean_expired. apply map_lookup_filter_None. right.
        intros x Hx. rewrite Hc in Hx. injection Hx as <-. cbn [snd]. tauto. }
      revert H0. generalize (clean_expired p t). intros q Hq l. revert q Hq.
      induction l as [|u l IHl]; intros q Hq; cbn [foldl]; [done|].
      apply IHl. unfold clean_expired. apply map_lookup_filter_None. by left. }
    split; [right; apply Hgone|].
    intros Hall. apply Forall_cons in Hall as [Ht _]. lia.
  - assert (Hkept : clean_expired p t !! nonce = Some c).
    { unfold clean_expired. apply map_lookup_filter_Some. by split. }
    destruct (IH _ Hkept) as [Hany Hall]. split; [exact Hany|].
    intros Hf. apply Forall_cons in Hf as [_ Hf]. by apply Hall.
Qed.

(** X23.  A challenge can be answered for five minutes, the last millisecond
    included, whenever the cleaning timer ran in between: up to then a
    valid signature of the wallet that owns the token verifies it, for
    the wallet in lower case and the token id as a number, and uses the
    nonce up.  Later than that the same answer is refused: as expired
    when the challenge is still there, which removes it, and as unknown
    when the timer has removed it already. *)
Lemma challenge_lifetime `{Registry} (p : gmap string pending) (issued now : Z)
    (nonce wallet_ signature owner : string) (tokenId : token) (n : Z)
    (sweeps : list Z) :
  token_number tokenId = Finite n →
  verifyMessage (toLowerCase wallet_) (challenge_message wallet_ tokenId nonce)
                signature = inr true →
  ownerOf n = inr owner → toLowerCase owner = toLowerCase wallet_ →
  Forall (fun t => t <= now) sweeps →
  let p1 := fst (generateAuthChallenge p issued nonce wallet_ tokenId) in
  let p2 := foldl clean_expired p1 sweeps in
  (now <= issued + 300000 →
   verifyRegistration p2 now nonce signature
   = (inr (toLowerCase wallet_, n), delete nonce p2)) ∧
  (issued + 300000 < now →
   ∃ e, verifyRegistration p2 now nonce signature = (inl e, delete nonce p2) ∧
        (e = "Challenge expired" ∨ e = "Invalid or expired challenge nonce")) ∧
  delete nonce p2 !! nonce = None.
Proof.
  intros Htok Hsig Hown Hsame Hsweeps. cbv zeta.
  unfold generateAuthChallenge. cbn [fst].
  set (c := {| p_wallet := toLowerCase wallet_;
               p_tokenId := token_number tokenId;
               p_message := challenge_message wallet_ tokenId nonce;
               p_expires := issued + 5 * 60 * 1000 |}).
  destruct (clean_expired_lookup (<[nonce := c]> p) sweeps nonce c
              (lookup_insert_eq _ _ _)) as [Hany Hall].
  split; [|split; [|apply lookup_delete_eq]].
  - intros Hin. unfold verifyRegistration. rewrite Hall.
    + unfold c. cbn [p_expires p_wallet p_message].
      destruct (Z.ltb_spec (issued + 5 * 60 * 1000) now) as [|_]; [lia|].
      rewrite Hsig. unfold check_owner. cbn [p_tokenId p_wallet].
      rewrite Htok. cbn [BigInt_of_number].
      by rewrite Hown, Hsame, String.eqb_refl.
    + eapply Forall_impl; [exact Hsweeps|]. intros t Ht. unfold c.
      cbn [p_expires]. cbv beta in Ht. lia.
  - intros Hlate. unfold verifyRegistration. destruct Hany as [-> | Hgone].
    + unfold c. cbn [p_expires].
      destruct (Z.ltb_spec (issued + 5 * 60 * 1000) now) as [_|]; [|lia].
      exists "Challenge expired". split; [done|by left].
    + rewrite Hgone. exists "Invalid or expired challenge nonce".
      split; [|by right]. by rewrite delete_id.
Qed.

Lemma challenge_lifetime_witness :
  fst (@verifyRegistration sampleRegistry (clean_expired pending_carol 300000)
         301000 "n0" "signed by 0xc0ffee") = inr ("0xc0ffee", 7) ∧
  ∃ e, fst (@verifyRegistration sampleRegistry (clean_expired pending_carol 300000)
              301001 "n0" "signed by 0xc0ffee") = inl e.
Proof.
  assert (Hgen : ∀ now, 300000 <= now →
    (now <= 1000 + 300000 →
     @verifyRegistration sampleRegistry (clean_expired pending_carol 300000) now
       "n0" "signed by 0xc0ffee"
     = (inr (toLowerCase "0xC0FFEE", 7),
        delete "n0" (clean_expired pending_carol 300000))) ∧
    (1000 + 300000 < now →
     ∃ e, @verifyRegistration sampleRegistry (clean_expired pending_carol 300000)
            now "n0" "signed by 0xc0ffee"
          = (inl e, delete "n0" (clean_expired pending_carol 300000)) ∧
          (e = "Challenge expired" ∨ e = "Invalid or expired challenge nonce"))).
  { intros now Hnow.
    destruct (@challenge_lifetime sampleRegistry ∅ 1000 now "n0" "0xC0FFEE"
                "signed by 0xc0ffee" "0xC0FFEE" (TokStr "7") 7 [300000]
                eq_refl eq_refl eq_refl eq_refl) as (Hin & Hlate & _).
    - by apply Forall_singleton.
    - split; [exact Hin|exact Hlate]. }
  split.
  - destruct (Hgen 301000 ltac:(lia)) as [Hin _]. rewrite Hin by lia. reflexivity.
  - destruct (Hgen 301001 ltac:(lia)) as [_ Hlate].
    destruct (Hlate ltac:(lia)) as (e & -> & _). by exists e.
Defined.

(** X24.  A nonce verifies once: after a successful verification the same
    nonce is unknown, whatever signature comes with it, and every other
    pending challenge is untouched. *)
Lemma nonce_single_use `{Registry} (p p' : gmap string pending) (now : Z)
    (nonce signature w : string) (n : Z) :
  verifyRegistration p now nonce signature = (inr (w, n), p') →
  (∀ now' signature',
     verifyRegistration p' now' nonce signature'
     = (inl "Invalid or expired challenge nonce", p')) ∧
  ∀ other, other ≠ nonce → p' !! other = p !! other.
Proof.
  unfold verifyRegistration at 1.
  destruct (p !! nonce) as [c|]; [|done].
  destruct (Z.ltb _ _); [done|].
  destruct (verifyMessage _ _ _) as [e|[|]]; [done| |done].
  destruct (check_owner c) as [e|t]; [done|].
  intros [= _ _ <-]. split.
  - intros now' signature'. unfold verifyRegistration.
    by rewrite lookup_delete_eq.
  - intros other Hne. by rewrite lookup_delete_ne.
Qed.

Lemma nonce_single_use_witness :
  @verifyRegistration sampleRegistry
    (delete "n0" (fst (generateAuthChallenge ∅ 1000 "n0" "0xC0FFEE" (TokStr "7"))))
    3000 "n0" "signed by 0xc0ffee"
  = (inl "Invalid or expired challenge nonce",
     delete "n0" (fst (generateAuthChallenge ∅ 1000 "n0" "0xC0FFEE" (TokStr "7")))).
Proof.
  assert (Hrun : @verifyRegistration sampleRegistry
    (fst (generateAuthChallenge ∅ 1000 "n0" "0xC0FFEE" (TokStr "7")))
    2000 "n0" "signed by 0xc0ffee"
    = (inr ("0xc0ffee", 7),
       delete "n0" (fst (generateAuthChallenge ∅ 1000 "n0" "0xC0FFEE"
                           (TokStr "7"))))) by (vm_compute; reflexivity).
  exact (proj1 (@nonce_single_use sampleRegistry _ _ _ _ _ _ _ Hrun)
           3000 "signed by 0xc0ffee").
Defined.

(** X25.  A verification that fails uses the challenge up only when the
    challenge has expired: after a wrong signature or a failed
    ownership check the challenge is still pending. *)
Lemma failed_verification_keeps_challenge `{Registry} (p p' : gmap string pending)
    (now : Z) (nonce signature e : string) :
  verifyRegistration p now nonce signature = (inl e, p') →
  p' = p ∨
  (∃ c, p !! nonce = Some c ∧ p_expires c < now ∧ p' = delete nonce p).
Proof.
  unfold verifyRegistration.
  destruct (p !! nonce) as [c|]; [|intros [= _ <-]; by left].
  destruct (Z.ltb_spec (p_expires c) now) as [Hlate|_].
  - intros [= _ <-]. right. by exists c.
  - destruct (verifyMessage _ _ _) as [e'|[|]]; try (intros [= _ <-]; by left).
    destruct (check_owner c) as [e'|t]; [|done]. intros [= _ <-]. by left.
Qed.

Lemma failed_verification_keeps_challenge_witness :
  snd (@verifyRegistration sampleRegistry
         (fst (generateAuthChallenge ∅ 1000 "n0" "0xC0FFEE" (TokStr "7")))
         2000 "n0" "signed by someone else")
  = fst (generateAuthChallenge ∅ 1000 "n0" "0xC0FFEE" (TokStr "7")).
Proof.
  assert (Hrun : @verifyRegistration sampleRegistry
    (fst (generateAuthChallenge ∅ 1000 "n0" "0xC0FFEE" (TokStr "7")))
    2000 "n0" "signed by someone else"
    = (inl "Invalid signature",
       fst (generateAuthChallenge ∅ 1000 "n0" "0xC0FFEE" (TokStr "7"))))
    by (vm_compute; reflexivity).
  destruct (@failed_verification_keeps_challenge sampleRegistry _ _ _ _ _ _ Hrun)
    as [Hkept|(c & _ & _ & _)]; rewrite Hrun; reflexivity.
Defined.

(** ** Registering and authenticating *)

Lemma NoDup_only {A} (l : list A) (y : A) :
  NoDup l → y ∈ l → (∀ x, x ∈ l → x = y) → l = [y].
Proof.
  intros Hnd Hy Hall. destruct l as [|z l]; [inversion Hy|].
  assert (Hz : z = y) by (apply Hall, list_elem_of_here). subst z.
  destruct l as [|w l]; [done|]. exfalso.
  assert (Hw : w = y) by (apply Hall, list_elem_of_further, list_elem_of_here).
  subst w. apply NoDup_cons in Hnd as [Hnot _]. apply Hnot, list_elem_of_here.
Qed.

(** Looking an agent up by an API key no other agent has. *)
Lemma getAgentByApiKey_unique (d : db) (i : string) (a : agent) :
  agents d !! i = Some a →
  (∀ j x, agents d !! j = Some x → agent_api_key x = agent_api_key a → j = i) →
  getAgentByApiKey d (agent_api_key a) = Some a.
Proof.
  intros Ha Huniq. unfold getAgentByApiKey.
  rewrite (NoDup_only _ (i, a)); [done| | |].
  - apply NoDup_filter, NoDup_map_to_list.
  - apply list_elem_of_filter. split; [by apply bool_decide_pack|].
    by apply elem_of_map_to_list.
  - intros [j x] Hin. apply list_elem_of_filter in Hin as [Hkey Hin].
    apply bool_decide_unpack in Hkey. apply elem_of_map_to_list in Hin.
    cbn [snd] in Hkey. pose proof (Huniq j x Hin Hkey) as ->.
    rewrite Ha in Hin. by injection Hin as ->.
Qed.

Lemma registerAgent_spec (d : db) (uuid hex now name endpoint : string)
    (description erc8004 wallet_ : option string) (d' : db) (i k : string) :
  registerAgent d uuid hex now name endpoint description erc8004 wallet_
    = Some (d', (i, k)) →
  i = uuid ∧ k = "dk_" +:+ hex ∧ agents d !! uuid = None ∧
  (∀ j x, agents d !! j = Some x → agent_name x ≠ name ∧ agent_api_key x ≠ k) ∧
  d' = with_agents d
         (<[uuid := {| agent_id := uuid; agent_name := name;
                       agent_endpoint := endpoint;
                       agent_description := description;
                       agent_api_key := "dk_" +:+ hex; elo := 1000; wins := 0;
                       losses := 0; draws := 0; erc8004_identity := erc8004;
                       wallet := wallet_; agent_created_at := now |}]> (agents d)).
Proof.
  unfold registerAgent.
  destruct (bool_decide (is_Some (agents d !! uuid))) eqn:Hid; [done|].
  destruct (bool_decide (Exists _ _)) eqn:Hex; [done|].
  cbn [orb]. intros [= <- <- <-].
  apply bool_decide_eq_false in Hid, Hex.
  split; [done|]. split; [done|]. split.
  - destruct (agents d !! uuid); [|done]. exfalso. apply Hid. by eexists.
  - split; [|done]. intros j x Hx.
    split; intros Heq; apply Hex, Exists_exists; exists (j, x);
      (split; [by apply elem_of_map_to_list|]); cbn [snd]; eauto.
Qed.

(** X26.  Registration round trip: the API key handed out by a successful
    registration is 'dk_' followed by the random bytes, and it
    authenticates as the agent just registered: under the name given,
    with the verified wallet, rated 1000, with no game played. *)
Lemma register_then_authenticate `{Registry} (s : server)
    (p : gmap string pending) (b : register_body) (now : Z)
    (uuid hex created dbError : string) (body : value) (s' : server)
    (p' : gmap string pending) (effs : list effect) :
  post_register s p b now uuid hex created dbError = (Json body, s', p', effs) →
  ∃ a,
    getprop body "api_key" = Some (VStr ("dk_" +:+ hex)) ∧
    authenticateAgent (store s') (Some ("dk_" +:+ hex)) = inr a ∧
    agent_id a = uuid ∧ Some (agent_name a) = rb_name b ∧
    elo a = 1000 ∧ wins a = 0 ∧ losses a = 0 ∧ draws a = 0 ∧
    getprop body "wallet" = Some (opt_str (wallet a)).
Proof.
  unfold post_register.
  destruct (rb_nonce b) as [nonce|]; [|done]. cbn [opt_truthy].
  destruct (String.eqb nonce EmptyString); [done|].
  destruct (rb_signature b) as [signature|]; [|done]. cbn [opt_truthy].
  destruct (String.eqb signature EmptyString); [done|].
  destruct (rb_name b) as [name|]; [|done]. cbn [opt_truthy].
  destruct (String.eqb name EmptyString); [done|].
  destruct (rb_endpoint b) as [endpoint|]; [|done]. cbn [opt_truthy].
  destruct (String.eqb endpoint EmptyString); [done|].
  destruct (verifyRegistration _ _ _ _) as [[e|[w tokenId]] p1]; [done|].
  destruct (registerAgent _ _ _ _ _ _ _ _ _) as [[d' [i k]]|] eqn:Hreg; [|done].
  apply registerAgent_spec in Hreg as (-> & -> & Hfresh & Hnew & ->).
  intros [= <- <- <- <-].
  set (a := {| agent_id := uuid; agent_name := name; agent_endpoint := endpoint;
               agent_description := rb_description b;
               agent_api_key := "dk_" +:+ hex; elo := 1000; wins := 0;
               losses := 0; draws := 0;
               erc8004_identity := Some (Number_toString (Finite tokenId));
               wallet := Some w; agent_created_at := created |}).
  exists a. split; [done|]. split; [|by repeat split].
  unfold authenticateAgent.
  replace (opt_truthy (Some ("dk_" +:+ hex))) with (Some (agent_api_key a))
    by done.
  rewrite (getAgentByApiKey_unique _ uuid a); [done| |].
  - cbn [store with_store agents with_agents]. apply lookup_insert_eq.
  - cbn [store with_store agents with_agents]. intros j x Hx Hkey.
    destruct (decide (j = uuid)) as [|Hne]; [done|].
    rewrite lookup_insert_ne in Hx by done.
    by destruct (Hnew j x Hx) as [_ Hk].
Qed.

Lemma register_then_authenticate_witness :
  ∃ a, authenticateAgent (store server_carol) (Some "dk_c0de") = inr a ∧
       agent_id a = "c" ∧ elo a = 1000.
Proof.
  assert (Hrun : ∃ body p' effs,
    @post_register sampleRegistry server0 pending_carol (body_carol "carol")
      2000 "c" "c0de" "2026-01-01 07:00:00" "UNIQUE constraint failed"
    = (Json body, server_carol, p', effs))
    by (eexists _, _, _; vm_compute; reflexivity).
  destruct Hrun as (body & p' & effs & Hrun).
  destruct (@register_then_authenticate sampleRegistry _ _ _ _ _ _ _ _ _ _ _ _ Hrun)
    as (a & _ & Hauth & Hid & _ & Helo & _).
  exists a. split; [exact Hauth|]. split; [exact Hid|exact Helo].
Defined.

(** X27.  A registration refused for its name has used up its challenge: the
    signature is verified first, which removes the nonce, and only then
    the INSERT fails on the name already taken; nothing is written and
    the agent must ask for a new challenge. *)
Lemma refused_name_uses_up_challenge `{Registry} (s : server)
    (p p1 : gmap string pending) (b : register_body) (now : Z)
    (uuid hex created dbError nonce signature name endpoint w : string)
    (n : Z) (j : string) (x : agent) :
  rb_nonce b = Some nonce → rb_signature b = Some signature →
  rb_name b = Some name → rb_endpoint b = Some endpoint →
  nonce ≠ EmptyString → signature ≠ EmptyString → name ≠ EmptyString →
  endpoint ≠ EmptyString →
  verifyRegistration p now nonce signature = (inr (w, n), p1) →
  agents (store s) !! j = Some x → agent_name x = name →
  post_register s p b now uuid hex created dbError
    = (Error 400 dbError, s, p1, []) ∧
  p1 !! nonce = None.
Proof.
  intros Hb1 Hb2 Hb3 Hb4 Hn Hs Hname He Hver Hx Htaken.
  unfold post_register. rewrite Hb1, Hb2, Hb3, Hb4. cbn [opt_truthy].
  destruct (String.eqb_spec nonce EmptyString) as [|_]; [done|].
  destruct (String.eqb_spec signature EmptyString) as [|_]; [done|].
  destruct (String.eqb_spec name EmptyString) as [|_]; [done|].
  destruct (String.eqb_spec endpoint EmptyString) as [|_]; [done|].
  rewrite Hver. split.
  - unfold registerAgent.
    assert (Hex : bool_decide (Exists
      (fun q : string * agent => agent_name q.2 = name
                                 ∨ agent_api_key q.2 = "dk_" +:+ hex)
      (map_to_list (agents (store s)))) = true).
    { apply bool_decide_eq_true, Exists_exists. exists (j, x).
      split; [by apply elem_of_map_to_list|]. by left. }
    rewrite Hex, orb_true_r. done.
  - revert Hver. unfold verifyRegistration.
    destruct (p !! nonce) as [c|]; [|done].
    destruct (Z.ltb _ _); [done|].
    destruct (verifyMessage _ _ _) as [e|[|]]; [done| |done].
    destruct (check_owner c) as [e|t]; [done|].
    intros [= _ _ <-]. apply lookup_delete_eq.
Qed.

Lemma refused_name_uses_up_challenge_witness :
  snd (fst (@post_register sampleRegistry server0 pending_carol
              (body_carol "alice") 2000 "c" "c0de" "2026-01-01 07:00:00"
              "UNIQUE constraint failed")) !! "n0" = None.
Proof.
  assert (Hver : ∃ p1, @verifyRegistration sampleRegistry pending_carol 2000 "n0"
                         "signed by 0xc0ffee" = (inr ("0xc0ffee", 7), p1))
    by (eexists; vm_compute; reflexivity).
  destruct Hver as (p1 & Hver).
  assert (Halice : agents (store server0) !! "a" = Some alice)
    by (vm_compute; reflexivity).
  pose proof (@refused_name_uses_up_challenge sampleRegistry server0 pending_carol
                p1 (body_carol "alice") 2000 "c" "c0de" "2026-01-01 07:00:00"
                "UNIQUE constraint failed" "n0" "signed by 0xc0ffee" "alice"
                "http://carol" "0xc0ffee" 7 "a" alice eq_refl eq_refl eq_refl
                eq_refl ltac:(discriminate) ltac:(discriminate)
                ltac:(discriminate) ltac:(discriminate) Hver Halice eq_refl)
    as [Hrun Hgone].
  rewrite Hrun. exact Hgone.
Defined.


(** ** The leaderboard *)

#[export] Instance rated_above_total : Total rated_above.
Proof. intros a1 a2. unfold rated_above. lia. Qed.

#[export] Instance rated_above_trans : Transitive rated_above.
Proof. intros a1 a2 a3. unfold rated_above. lia. Qed.

(** X30.  The leaderboard lists agents of the table, best rating first.  The
    limit asked for is 50 when absent, zero or not a number, and is
    capped at 100; a limit of at least zero bounds the length of the
    list.  A negative limit passes the cap as it is (a whole number down
    to -2^53 is read exactly), and lifts the bound: the page then lists
    every agent; from -2^63 down the statement refuses the limit and
    the request is answered with status 500. *)
Lemma leaderboard_sorted_and_capped (d : db) (q : option string) :
  (from_option parseInt NaN q = NaN ∨ from_option parseInt NaN q = Finite 0 →
   limit_of q 50 100 = Finite 50) ∧
  (∀ n, - 2 ^ 53 <= n < 0 → q = Some (BigInt_toString n) →
        limit_of q 50 100 = Finite n) ∧
  ∀ limit, limit_of q 50 100 = Finite limit →
    limit <= 100 ∧
    (limit <= INT64_MIN →
     get_leaderboard d q = Error 500 "Failed to get leaderboard") ∧
    (INT64_MIN < limit →
     let board := getLeaderboard d limit in
     get_leaderboard d q = Json (wire (VArr (map leaderboard_row board))) ∧
     StronglySorted rated_above board ∧
     (∀ a, a ∈ board → ∃ i, agents d !! i = Some a) ∧
     (0 <= limit → (length board <= 100)%nat) ∧
     (limit < 0 → board ≡ₚ map snd (map_to_list (agents d)) ∧
                  length board = size (agents d))).
Proof.
  split; [|split].
  - unfold limit_of. intros [-> | ->]; done.
  - intros n Hn ->. unfold limit_of. cbn [from_option].
    rewrite parseInt_toString, Number_of_safe by lia.
    cbn [number_or Math_min]. destruct (Z.eqb_spec n 0); [lia|].
    cbn [Math_min]. f_equal. lia.
  - intros limit Hlimit.
    assert (Hcap : limit <= 100).
    { revert Hlimit. unfold limit_of.
      destruct (number_or _ _) as [z|[|]|]; cbn [Math_min]; try done;
        intros [= <-]; lia. }
    split; [exact Hcap|]. split.
    { intros Hlow. unfold get_leaderboard. rewrite Hlimit.
      destruct (Z.ltb_spec INT64_MIN limit); [lia|done]. }
    intros Hbound. cbv zeta. unfold getLeaderboard.
    set (all := map snd (map_to_list (agents d))).
    pose proof (StronglySorted_merge_sort rated_above all) as Hsorted.
    pose proof (merge_sort_Permutation rated_above all) as Hperm.
    split; [|split; [|split; [|split]]].
    + unfold get_leaderboard. rewrite Hlimit.
      destruct (Z.ltb_spec INT64_MIN limit) as [_|]; [done|lia].
    + unfold sql_limit. destruct (Z.ltb _ _); [done|].
      rewrite <- (take_drop (Z.to_nat limit) (merge_sort rated_above all))
        in Hsorted.
      by apply StronglySorted_app_1_l in Hsorted.
    + intros a Ha.
      assert (Hin : a ∈ all).
      { rewrite <- Hperm. unfold sql_limit in Ha.
        destruct (Z.ltb _ _); [done|]. by apply subseteq_take in Ha. }
      apply list_elem_of_fmap in Hin as ([i x] & -> & Hin).
      exists i. by apply elem_of_map_to_list.
    + intros Hpos. unfold sql_limit.
      destruct (Z.ltb_spec limit 0) as [|_]; [lia|].
      rewrite length_take. lia.
    + intros Hneg. unfold sql_limit.
      destruct (Z.ltb_spec limit 0) as [_|]; [|lia].
      split; [done|]. rewrite Hperm. unfold all.
      by rewrite length_map, length_map_to_list.
Qed.

Lemma leaderboard_sorted_and_capped_witness :
  limit_of (Some "-1") 50 100 = Finite (-1) ∧
  length (getLeaderboard db0 (-1)) = size (agents db0).
Proof.
  destruct (leaderboard_sorted_and_capped db0 (Some "-1")) as (_ & Hneg & Hall).
  pose proof (Hneg (-1) ltac:(done) eq_refl) as Hlimit.
  split; [exact Hlimit|].
  destruct (Hall (-1) Hlimit) as (_ & _ & Hboard).
  destruct (Hboard ltac:(done)) as (_ & _ & _ & _ & Hevery).
  exact (proj2 (Hevery ltac:(lia))).
Defined.

(** ** Every handler is made of these statements *)

(** The operations of the storage layer, each as the statements it
    issues. *)
Lemma registerAgent_writes (d : db) (uuid hex now name endpoint : string)
    (description erc8004 wallet_ : option string) (d' : db) (r : string * string) :
  registerAgent d uuid hex now name endpoint description erc8004 wallet_
    = Some (d', r) →
  writes d d'.
Proof.
  unfold registerAgent.
  destruct (bool_decide (is_Some (agents d !! uuid))) eqn:Hid; [done|].
  destruct (bool_decide (Exists _ _)) eqn:Hex; [done|]. cbn [orb].
  intros Heq. injection Heq as Hd _. subst d'.
  apply bool_decide_eq_false in Hid. apply bool_decide_eq_false in Hex.
  set (a := {| agent_id := uuid; agent_name := name; agent_endpoint := endpoint;
               agent_description := description;
               agent_api_key := "dk_" +:+ hex; elo := 1000; wins := 0;
               losses := 0; draws := 0; erc8004_identity := erc8004;
               wallet := wallet_; agent_created_at := now |}).
  apply (write_agent d a).
  - destruct (agents d !! uuid) eqn:E; [|done]. exfalso. apply Hid. by eexists.
  - intros j x Hx. split; intros Heq; apply Hex, Exists_exists;
      exists (j, x); (split; [by apply elem_of_map_to_list|]); cbn; eauto.
Qed.

Lemma createCustomMatch_writes (d : db) (uuid creatorId : string)
    (challengeType : option string) (entryFeeWei : string) (difficulty : Z)
    (challengeSeed : string) (d' : db) (i : string) :
  createCustomMatch d uuid creatorId challengeType entryFeeWei difficulty
    challengeSeed = Some (d', i) →
  writes d d'.
Proof.
  unfold createCustomMatch. destruct challengeType as [ty|]; [|done].
  destruct (matches d !! uuid) eqn:Hnew; [done|]. intros [= <- _].
  by apply (write_match d {| id := uuid |}).
Qed.

Lemma createPracticeMatch_writes (d : db) (uuid now agentId challengeType : string)
    (difficulty : Z) (challengeSeed : string) (challengeData : obj)
    (timeLimit : Z) (d' : db) (i : string) :
  createPracticeMatch d uuid now agentId challengeType difficulty challengeSeed
    challengeData timeLimit = Some (d', i) →
  writes d d'.
Proof.
  unfold createPracticeMatch. destruct (getPracticeBot d) as [bot|]; [|done].
  cbn [mbind option_bind].
  destruct (matches d !! uuid) eqn:Hnew; [done|]. intros [= <- _].
  by apply (write_match d {| id := uuid |}).
Qed.

Lemma quick_match_insert_writes `{Viem} (d : db) (uuid now seed : string)
    (e1 e2 : queueEntry) (challenge : obj) (d' : db) :
  quick_match_insert d uuid now seed e1 e2 challenge = Some d' → writes d d'.
Proof.
  unfold quick_match_insert.
  destruct (BigInt_parse ENTRY_FEE_WEI) as [fee|]; [|done].
  cbn [mbind option_bind].
  destruct (arenaCutWei _) as [cut|]; [|done]. cbn [mbind option_bind].
  destruct (winnerPayoutWei _ _) as [payout|]; [|done]. cbn [mbind option_bind].
  destruct (bind_text _) as [ty|]; [|done]. cbn [mbind option_bind].
  destruct (bind_int _) as [tl|]; [|done]. cbn [mbind option_bind].
  destruct (matches d !! uuid) eqn:Hnew; [done|]. intros [= <-].
  by apply (write_match d (quick_match_row uuid now e1 e2 ty challenge tl
                             ENTRY_FEE_WEI (potWei fee) cut payout seed)).
Qed.

Lemma joinCustomMatch_writes (d : db) (now matchId opponentId : string)
    (challengeData : obj) (timeLimit : Z) (d' : db) :
  joinCustomMatch d now matchId opponentId challengeData timeLimit = Some d' →
  writes d d'.
Proof.
  unfold joinCustomMatch. destruct (matches d !! matchId) as [row|] eqn:Hrow;
    [|done]. cbn [mbind option_bind].
  destruct (BigInt_parse _) as [fee|]; [|done]. cbn [mbind option_bind].
  destruct (arenaCutWei _) as [cut|]; [|done]. cbn [mbind option_bind].
  destruct (winnerPayoutWei _ _) as [payout|]; [|done]. cbn [mbind option_bind].
  intros [= <-].
  replace (<[matchId := _]> (matches d)) with
    (alter (fun r => set_joined r opponentId challengeData timeLimit now
                                (potWei fee) cut payout) matchId (matches d)).
  - apply write_joined.
  - apply map_eq. intros i. destruct (decide (matchId = i)) as [<-|Hne].
    + by rewrite lookup_alter_eq, lookup_insert_eq, Hrow.
    + by rewrite lookup_alter_ne, lookup_insert_ne.
Qed.

Lemma completeMatch_writes `{EloArithmetic} (d : db) (now matchId : string)
    (winnerId : option string) :
  rtc writes d (after (completeMatch d now matchId winnerId)).
Proof.
  unfold completeMatch, updateELO.
  set (d1 := with_matches d _).
  assert (H1 : rtc writes d d1) by (apply rtc_once, write_completed).
  destruct (getMatch d1 matchId) as [m|]; [|done].
  destruct (negb _); [done|].
  destruct (getAgent d1 (agent1_id m)) as [a1|]; [|done].
  destruct (getAgent d1 (agent2_id m)) as [a2|]; [|done].
  cbn [mbind option_bind].
  destruct (newRatings _ _ _) as [n1 n2].
  destruct (match _ with Draw => _ | _ => _ end) as [c1 c2].
  cbn [after]. etrans; [exact H1|].
  eapply rtc_l; [apply write_elo_changes|].
  eapply rtc_l; [apply write_rating|]. apply rtc_once, write_rating.
Qed.

Lemma with_store_same (s : server) : with_store s (store s) = s.
Proof. by destruct s. Qed.

(** Statements on the store are changes of the server. *)
Lemma serves_statements (s : server) (d' : db) :
  rtc writes (store s) d' → rtc serves s (with_store s d').
Proof.
  intros Hw. remember (store s) as d eqn:Hd. revert s Hd.
  induction Hw as [d|d d1 d' Hstep _ IH]; intros s ->.
  - by rewrite with_store_same.
  - apply rtc_l with (with_store s d1); [by apply serves_statement|].
    exact (IH (with_store s d1) eq_refl).
Qed.

Lemma serves_recordPayment (s : server) (uuid agentId txHash amountWei fromWallet : string)
    (matchId : option string) (d' : db) (r : string) :
  recordPayment (store s) uuid agentId txHash amountWei fromWallet matchId
    = Some (d', r) →
  rtc serves s (with_store s d').
Proof.
  intros Hrec. apply serves_statements.
  apply recordPayment_writes in Hrec as (d1 & H1 & H2).
  by apply rtc_l with d1, rtc_once.
Qed.

(** The handlers, run in one go, are changes of the server: what holds
    on every state the server reaches holds after each of them. *)
Lemma serves_pay `{Viem} `{EtherText} (s : server) (ag : agent)
    (txHash matchId : option string) (payUuid chainError : string) :
  rtc serves s (snd (post_match_pay s ag txHash matchId payUuid chainError)).
Proof.
  unfold post_match_pay.
  destruct (opt_truthy txHash) as [tx|]; [|done].
  destruct (getPaymentByTxHash _ _); [done|].
  destruct (getTransactionReceipt tx) as [st|]; [|done].
  destruct (negb _); [done|].
  destruct (getTransaction tx) as [t|]; [|done].
  destruct (tx_to t) as [to|]; [|done].
  destruct (negb _); [done|]. unfold pay_checked.
  destruct (BigInt_parse _) as [fee|]; [|done].
  destruct (Z.ltb _ _); [done|].
  destruct (opt_truthy (wallet ag)) as [w|]; [|done].
  destruct (negb _); [done|].
  destruct (recordPayment _ _ _ _ _ _ _) as [[d' i]|] eqn:Hrec; [|done].
  by apply serves_recordPayment in Hrec.
Qed.

Lemma serves_register `{Registry} (s : server) (p : gmap string pending)
    (b : register_body) (now : Z) (uuid hex created dbError : string) :
  rtc serves s
    (snd (fst (fst (post_register s p b now uuid hex created dbError)))).
Proof.
  unfold post_register.
  destruct (opt_truthy (rb_nonce b)); [|done].
  destruct (opt_truthy (rb_signature b)); [|done].
  destruct (opt_truthy (rb_name b)); [|done].
  destruct (opt_truthy (rb_endpoint b)); [|done].
  destruct (verifyRegistration _ _ _ _) as [[e|[w tokenId]] p']; [done|].
  destruct (registerAgent _ _ _ _ _ _ _ _ _) as [[d' [i k]]|] eqn:Hreg; [|done].
  apply registerAgent_writes in Hreg. by apply rtc_once, serves_statement.
Qed.

Lemma serves_complete `{EloArithmetic} (s : server) (now matchId : string)
    (winnerId : option string) :
  rtc serves s (with_store s (after (completeMatch (store s) now matchId winnerId))).
Proof. apply serves_statements, completeMatch_writes. Qed.

Lemma serves_submit `{ChallengeGenerator} `{EloArithmetic} (s : server)
    (ag : agent) (matchId : string) (solution : option string)
    (uuid now : string) :
  rtc serves s (snd (fst (post_match_submit s ag matchId solution uuid now))).
Proof.
  unfold post_match_submit.
  destruct (opt_truthy solution) as [sol|]; [|done].
  destruct (getMatch _ _) as [m|]; [|done].
  destruct (negb _); [done|]. destruct (_ && _); [done|].
  destruct (existsb _ _); [done|].
  destruct (submitSolution _ _ _ _ _ _) as [[d1 i]|] eqn:Hsub; [|done].
  assert (H1 : rtc writes (store s) d1)
    by (eapply rtc_once, write_submission, Hsub).
  assert (H2 : rtc writes d1 (submit_settle d1 ag m matchId i now
                                (validateSolution (challenge_data m) sol)).2).
  { unfold submit_settle. destruct (valid _); [|by destruct (practice m)].
    set (d2 := markSubmissionCorrect d1 i _).
    assert (Hd2 : rtc writes d1 d2) by (apply rtc_once, write_correct).
    assert (Hc : rtc writes d1
                   (after (completeMatch d2 now matchId (Some (agent_id ag)))))
      by (etrans; [exact Hd2|apply completeMatch_writes]).
    destruct (practice m); [by destruct (resolved _)|].
    destruct (_ =? _)%nat; [|done]. by destruct (resolved _). }
  destruct (submit_settle _ _ _ _ _ _ _) as [[l|] d']; cbn [fst snd] in *;
    apply serves_statements; by etrans.
Qed.

Lemma serves_queue_request `{Viem} `{ChallengeGenerator} (s : server)
    (ag : agent) (b : queue_body) (rnd : Z) (seed uuid now : string) :
  rtc serves s (snd (post_match_queue s ag b rnd seed uuid now)).
Proof.
  unfold post_match_queue.
  destruct (canAgentAffordMatch _ _ _) as [[|]|]; try done.
  destruct (already_queued _ _) eqn:Hdup; [done|].
  set (s1 := {| store := store s;
                matchQueue := shift_pair (matchQueue s ++ [new_entry ag b rnd now]) |}).
  assert (H1 : rtc serves s s1) by (by apply rtc_once, serves_queue).
  unfold tryMatchmaking. cbn [matchQueue store].
  destruct (matchQueue s ++ [new_entry ag b rnd now])%list
    as [|e1 [|e2 rest]] eqn:Hq.
  - done.
  - done.
  - destruct (generateChallenge _ _ _) as [ch|]; [|done].
    destruct (quick_match_insert _ _ _ _ _ _ _) as [d'|] eqn:Hins; [|done].
    cbn [snd]. etrans; [exact H1|].
    apply quick_match_insert_writes in Hins.
    by apply rtc_once, (serves_statement s1).
Qed.

Lemma serves_step `{Viem} `{ChallengeGenerator} `{EloArithmetic}
    (s s' : server) :
  step s s' → rtc serves s s'.
Proof.
  intros Hstep. destruct Hstep.
  - unfold post_match_create.
    assert (Hins : ∀ ty fee wei dif tx,
      rtc serves s (create_insert s ag ty fee wei dif tx seed uuid payUuid).2).
    { intros ty fee wei dif tx. unfold create_insert.
      destruct (createCustomMatch _ _ _ _ _ _ _) as [[d1 mid]|] eqn:Hc; [|done].
      apply createCustomMatch_writes in Hc.
      assert (Hs1 : rtc serves s (with_store s d1))
        by (by apply rtc_once, serves_statement).
      destruct tx as [tx|]; [|done].
      destruct (getTransaction tx) as [t|]; [|done]. cbn [mbind option_bind].
      destruct (recordPayment _ _ _ _ _ _ _) as [[d2 i]|] eqn:Hrec; [|done].
      cbn [snd]. etrans; [exact Hs1|].
      exact (serves_recordPayment (with_store s d1) _ _ _ _ _ _ _ _ Hrec). }
    destruct (opt_truthy (cb_challengeType b)) as [ty|]; [|done].
    destruct (opt_truthy (cb_entryFee b)) as [fee|]; [|done].
    destruct (BigInt_toString <$> parseEther fee) as [wei|]; [|done].
    destruct (BigInt_toString <$> parseEther "0.0001") as [minWei|]; [|done].
    destruct (BigInt_parse wei) as [f|]; [|done].
    destruct (BigInt_parse minWei) as [m|]; [|done].
    destruct (Z.ltb f m); [done|].
    destruct (opt_truthy (cb_txHash b)) as [tx|]; [|apply Hins].
    destruct (verify_payment _ _ _ _) as [[err|]|]; [done|apply Hins|done].
  - unfold post_match_join.
    destruct (opt_truthy txHash) as [tx|]; [|done].
    destruct (getMatch (store s) matchId) as [m|]; [|done].
    destruct (negb _); [done|]. destruct (bool_decide _); [done|].
    destruct (verify_payment _ _ _ _) as [[e|]|]; try done.
    destruct (getTransaction tx) as [t|]; [|done].
    assert (Hw : rtc serves s
                   (with_store s (join_writes (store s) ag matchId m t tx now
                                              payUuid).2)).
    { unfold join_writes.
      destruct (generateChallenge _ _ _) as [ch|];
        [|cbn [snd]; by rewrite with_store_same].
      destruct (bind_int _) as [tl|];
        [|cbn [snd mbind option_bind]; by rewrite with_store_same].
      cbn [mbind option_bind].
      destruct (joinCustomMatch _ _ _ _ _ _) as [d1|] eqn:Hj;
        [|cbn [snd]; by rewrite with_store_same].
      apply joinCustomMatch_writes in Hj.
      assert (Hs1 : rtc serves s (with_store s d1))
        by (by apply rtc_once, serves_statement).
      destruct (recordPayment _ _ _ _ _ _ _) as [[d2 i]|] eqn:Hrec; [|done].
      assert (Hs2 : rtc serves s (with_store s d2)).
      { etrans; [exact Hs1|].
        exact (serves_recordPayment (with_store s d1) _ _ _ _ _ _ _ _ Hrec). }
      by destruct (_ ≫= _). }
    by destruct (join_writes _ _ _ _ _ _ _ _) as [[body|] d'].
  - apply serves_queue_request.
  - unfold post_match_practice.
    destruct (generateChallenge _ _ _) as [ch|]; [|done].
    cbn [mbind option_bind].
    destruct (bind_text _) as [ty'|]; [|done]. cbn [mbind option_bind].
    destruct (createPracticeMatch _ _ _ _ _ _ _ _ _) as [[d' mid]|] eqn:Hc;
      [|done].
    apply createPracticeMatch_writes in Hc. cbn [mbind option_bind snd].
    by apply rtc_once, serves_statement.
  - apply serves_complete.
Qed.

(** So the states the handlers reach one request at a time are among
    the states the server reaches. *)
Lemma served_after (s s' : server) : served s → rtc serves s s' → served s'.
Proof.
  intros Hs Hrun. induction Hrun as [s|s s1 s' Hstep _ IH]; [done|].
  apply IH. by apply served_next with s.
Qed.

Lemma sweep_match_writes `{EloArithmetic} (d : db)
    (elapsedMs : string → option Z) (now : string) (m : match_row) :
  rtc writes d (sweep_match d elapsedMs now m).2.
Proof.
  unfold sweep_match. destruct (timed_out _ _); [|done].
  destruct (practice m).
  - destruct (getPracticeBot d) as [bot|]; [|done].
    pose proof (completeMatch_writes d now (id m) (Some (agent_id bot))).
    by destruct (resolved _).
  - destruct (bestSubmission _) as [best|].
    + pose proof (completeMatch_writes d now (id m) (Some (sub_agent_id best))).
      by destruct (resolved _).
    + pose proof (completeMatch_writes d now (id m) None).
      by destruct (resolved _).
Qed.

Lemma timeout_sweep_writes `{EloArithmetic} (d : db)
    (elapsedMs : string → option Z) (now : string → string)
    (activeMatches : list match_row) :
  rtc writes d (timeout_sweep d elapsedMs now activeMatches).1.
Proof.
  revert d. induction activeMatches as [|m rest IH]; intros d; [done|].
  cbn [timeout_sweep].
  pose proof (sweep_match_writes d elapsedMs (now (id m)) m) as Hm.
  destruct (sweep_match _ _ _ _) as [[effs|] d']; [|done].
  specialize (IH d'). destruct (timeout_sweep d' _ _ _) as [d'' effs'].
  by etrans.
Qed.

Lemma practice_timer_writes `{EloArithmetic} (d : db) (now matchId : string)
    (solutionType : value) :
  rtc writes d (practice_timer d now matchId solutionType).2.
Proof.
  unfold practice_timer. destruct (getPracticeBot d) as [bot|]; [|done].
  pose proof (completeMatch_writes d now matchId (Some (agent_id bot))).
  by destruct (resolved _).
Qed.

(** The same for the handlers cut at their [await]s, in whatever order
    their statements run. *)
Lemma made_of_writes_bind {A B} (t : task A) (k : A → task B) :
  made_of_writes t → (∀ a, made_of_writes (k a)) → made_of_writes (t ≫= k).
Proof.
  intros Ht Hk. induction t as [a| |C statement next IH]; [apply Hk|done|].
  destruct Ht as [Hs Hn]. split; [exact Hs|]. intros b. by apply IH.
Qed.

Lemma made_of_writes_select {B} (q : db → B) : made_of_writes (select q).
Proof. split; [by left|done]. Qed.

Lemma made_of_writes_update (w : db → db) :
  (∀ d, writes d (w d)) → made_of_writes (update w).
Proof. intros Hw. split; [by right|done]. Qed.

Lemma completeMatch_task_writes `{EloArithmetic} (now matchId : string)
    (winnerId : option string) :
  made_of_writes (completeMatch_task now matchId winnerId).
Proof.
  unfold completeMatch_task.
  apply made_of_writes_bind;
    [apply made_of_writes_update; intros d; apply write_completed|].
  intros _. apply made_of_writes_bind.
  - unfold updateELO_task.
    apply made_of_writes_bind; [apply made_of_writes_select|].
    intros [m|]; [|done]. destruct (negb _); [done|].
    apply made_of_writes_bind; [apply made_of_writes_select|]. intros [a1|];
      (apply made_of_writes_bind; [apply made_of_writes_select|]);
      intros [a2|]; try done.
    destruct (newRatings _ _ _) as [n1 n2].
    destruct (match _ with Draw => _ | _ => _ end) as [c1 c2].
    apply made_of_writes_bind;
      [apply made_of_writes_update; intros d; apply write_elo_changes|].
    intros _. apply made_of_writes_bind;
      [apply made_of_writes_update; intros d; apply write_rating|].
    intros _. apply made_of_writes_bind;
      [apply made_of_writes_update; intros d; apply write_rating|].
    done.
  - intros l. apply made_of_writes_bind; [apply made_of_writes_select|]. done.
Qed.

Lemma submit_task_writes `{ChallengeGenerator} `{EloArithmetic} (ag : agent)
    (matchId : string) (solution : option string) (uuid now : string) :
  made_of_writes (submit_task ag matchId solution uuid now).
Proof.
  unfold submit_task. destruct (opt_truthy solution) as [sol|]; [|done].
  apply made_of_writes_bind; [apply made_of_writes_select|].
  intros [m|]; [|done]. destruct (negb _); [done|]. destruct (_ && _); [done|].
  apply made_of_writes_bind; [apply made_of_writes_select|].
  intros existing. destruct (existsb _ _); [done|].
  apply made_of_writes_bind; [apply made_of_writes_select|]. intros v.
  apply made_of_writes_bind.
  { split; [|by intros [i|]]. intros d.
    destruct (submitSolution _ _ _ _ _ _) as [[d' i]|] eqn:Hsub; [|by left].
    right. eapply write_submission, Hsub. }
  intros i. apply made_of_writes_bind; [|done].
  unfold settle_task. destruct (valid v); [|by destruct (practice m)].
  apply made_of_writes_bind;
    [apply made_of_writes_update; intros d; apply write_correct|].
  intros _. destruct (practice m).
  - apply made_of_writes_bind; [apply completeMatch_task_writes|done].
  - apply made_of_writes_bind; [apply made_of_writes_select|].
    intros l. destruct (_ =? _)%nat; [|done].
    apply made_of_writes_bind; [apply completeMatch_task_writes|].
    intros _. apply made_of_writes_bind; [apply made_of_writes_select|done].
Qed.

Lemma step_task_writes {A} (t : task A) (d : db) :
  made_of_writes t →
  rtc writes d (step_task t d).2 ∧ made_of_writes (step_task t d).1.
Proof.
  destruct t as [a| |B statement next]; [done|done|].
  intros [Hs Hn]. cbn [step_task]. specialize (Hs d). specialize (Hn (statement d).1).
  destruct (statement d) as [b d']. cbn [fst snd] in *.
  split; [|done]. destruct Hs as [->|Hw]; [done|by apply rtc_once].
Qed.

Lemma run_writes {A} (t : task A) (d : db) :
  made_of_writes t → rtc writes d (run t d).2.
Proof.
  revert d. induction t as [a| |B statement next IH]; intros d; [done|done|].
  intros [Hs Hn]. cbn [run]. specialize (Hs d).
  specialize (IH (statement d).1 (statement d).2 (Hn _)).
  destruct (statement d) as [b d']. cbn [fst snd] in *.
  destruct Hs as [->|Hw]; [done|by apply rtc_l with d'].
Qed.

Lemma overlap_writes {A B} (turns : list bool) (t1 : task A) (t2 : task B)
    (d : db) :
  made_of_writes t1 → made_of_writes t2 →
  rtc writes d (overlap turns t1 t2 d).2.
Proof.
  revert t1 t2 d. induction turns as [|[|] rest IH]; intros t1 t2 d H1 H2.
  - cbn [overlap]. pose proof (run_writes t1 d H1) as R1.
    destruct (run t1 d) as [a d1]. pose proof (run_writes t2 d1 H2) as R2.
    destruct (run t2 d1) as [b d2]. by etrans.
  - cbn [overlap]. destruct (step_task_writes t1 d H1) as [Hw Hm].
    destruct (step_task t1 d) as [t1' d']. etrans; [exact Hw|]. by apply IH.
  - cbn [overlap]. destruct (step_task_writes t2 d H2) as [Hw Hm].
    destruct (step_task t2 d) as [t2' d']. etrans; [exact Hw|]. by apply IH.
Qed.
